(** * Block Blast: the game-state engine of [src/game.js]

    A shallow embedding of the classes [Piece], [Grid], [Game] and of the
    drop handler of [DragController], followed by the properties of the
    engine: placement legality, line detection and clearing, scoring,
    tray life cycle and game-over detection.

    Conventions of the embedding.
    - A JavaScript array is a [list]; [a[i]] is stdpp's lookup [a !! i],
      whose [None] stands for [undefined].
    - A grid cell is [option string]: [None] is the source's [null]
      (empty), [Some c] a cell filled with the colour [c].
    - Row and column arguments are integers ([Z]): callers compute them as
      [gridRow + cell.row] and they may leave the board on either side.
    - A method that can throw, or write outside the arrays it owns,
      returns an [option]; [None] is that failure.
    - [await this.delay(..)] only paces the animation: a placement is
      modelled as the sequence of its state changes, in program order.
    - DOM, sound and local-storage calls have no effect on the modelled
      state and are left out. *)

From Stdlib Require Import ZArith QArith Qround Lqa String Ascii Decimal DecimalString DecimalNat DecimalZ Sorted Lia.
From stdpp Require Import base option list strings.

Local Open Scope string_scope.

(* ===================================================================== *)
(** ** JavaScript array helpers                                            *)
(* ===================================================================== *)

(** [a[i]] for an integer index: negative indices name no element. *)
Definition elemAt {A} (a : list A) (i : Z) : option A :=
  if (i <? 0)%Z then None else a !! Z.to_nat i.

(** [for (let i = 0; i < n; i++)] visits [upto n]. *)
Definition upto (n : nat) : list nat := seq 0 n.

(** [for (let i = 0; i <= hi; i++)] over integers; empty when [hi < 0]. *)
Definition upto_incl (hi : Z) : list Z := Z.of_nat <$> seq 0 (Z.to_nat (hi + 1)).

(* ===================================================================== *)
(** ** PIECE_DEFINITIONS and class Piece                                   *)
(* ===================================================================== *)

Record definition := { def_shape : list (list nat); def_color : string }.

(** The object literal, as an association list in insertion order (the
    order [Object.keys] reports). *)
Definition PIECE_DEFINITIONS : list (string * definition) :=
  [ ("line3h", {| def_shape := [[1; 1; 1]]; def_color := "#00D4FF" |});
    ("line4h", {| def_shape := [[1; 1; 1; 1]]; def_color := "#00D4FF" |});
    ("line3v", {| def_shape := [[1]; [1]; [1]]; def_color := "#00D4FF" |});
    ("line4v", {| def_shape := [[1]; [1]; [1]; [1]]; def_color := "#00D4FF" |});
    ("square2", {| def_shape := [[1; 1]; [1; 1]]; def_color := "#FFD700" |});
    ("square3", {| def_shape := [[1; 1; 1]; [1; 1; 1]; [1; 1; 1]]; def_color := "#FFD700" |});
    ("lShape1", {| def_shape := [[1; 0]; [1; 0]; [1; 1]]; def_color := "#FF8C00" |});
    ("lShape2", {| def_shape := [[1; 1; 1]; [1; 0; 0]]; def_color := "#FF8C00" |});
    ("lShape3", {| def_shape := [[1; 1]; [0; 1]; [0; 1]]; def_color := "#FF8C00" |});
    ("lShape4", {| def_shape := [[0; 0; 1]; [1; 1; 1]]; def_color := "#FF8C00" |});
    ("tShape1", {| def_shape := [[1; 1; 1]; [0; 1; 0]]; def_color := "#B388FF" |});
    ("tShape2", {| def_shape := [[0; 1]; [1; 1]; [0; 1]]; def_color := "#B388FF" |});
    ("tShape3", {| def_shape := [[0; 1; 0]; [1; 1; 1]]; def_color := "#B388FF" |});
    ("tShape4", {| def_shape := [[1; 0]; [1; 1]; [1; 0]]; def_color := "#B388FF" |});
    ("zShape1", {| def_shape := [[1; 1; 0]; [0; 1; 1]]; def_color := "#FF5252" |});
    ("zShape2", {| def_shape := [[0; 1]; [1; 1]; [1; 0]]; def_color := "#FF5252" |});
    ("sShape1", {| def_shape := [[0; 1; 1]; [1; 1; 0]]; def_color := "#00E676" |});
    ("sShape2", {| def_shape := [[1; 0]; [1; 1]; [0; 1]]; def_color := "#00E676" |}) ].

(** [Object.keys(PIECE_DEFINITIONS)] *)
Definition PIECE_TYPES : list string := fst <$> PIECE_DEFINITIONS.

(** [PIECE_DEFINITIONS[type]] *)
Fixpoint lookup_definition (ty : string) (defs : list (string * definition))
  : option definition :=
  match defs with
  | [] => None
  | (k, d) :: rest => if String.eqb k ty then Some d else lookup_definition ty rest
  end.

Module Piece.

Record t := mk
  { type : string;
    shape : list (list nat);
    color : string;
    rows : nat;
    cols : nat }.

(** [new Piece(type)]; [None] when the constructor throws: an unknown
    type, or a shape without a first row. *)
Definition new (ty : string) : option t :=
  match lookup_definition ty PIECE_DEFINITIONS with
  | None => None
  | Some d =>
      match def_shape d with
      | [] => None
      | row0 :: _ =>
          Some {| type := ty;
                  shape := def_shape d;
                  color := def_color d;
                  rows := length (def_shape d);
                  cols := length row0 |}
      end
  end.

(** [Piece.createRandom()], given the value [u] that [Math.random()]
    returns. [Math.floor(u * PIECE_TYPES.length)] is taken over the
    rationals. JavaScript rounds the product to a double first, which
    raises the index of a draw within one rounding below a multiple of
    [1 / 18] and changes nothing else. *)
Definition createRandom (u : Q) : option t :=
  let randomIndex := Qfloor (u * inject_Z (Z.of_nat (length PIECE_TYPES))) in
  match elemAt PIECE_TYPES randomIndex with
  | None => None
  | Some ty => new ty
  end.

(** [this.shape[row][col] === 1] *)
Definition isOn (p : t) (row col : nat) : bool :=
  bool_decide (shape p !! row ≫= (.!! col) = Some 1).

(** [getFilledCells()]: row-major list of the offsets that are on. *)
Definition getFilledCells (p : t) : list (nat * nat) :=
  flat_map (fun row =>
    flat_map (fun col => if isOn p row col then [(row, col)] else [])
             (upto (cols p)))
    (upto (rows p)).

End Piece.

(* ===================================================================== *)
(** ** class Grid                                                          *)
(* ===================================================================== *)

(** The template literal [`${n}`] and [Number(s)] on the keys that
    [getCellsToClear] builds: decimal numerals of array indices. [Number]
    is modelled on strings of decimal digits only (the empty string
    included, which JavaScript reads as 0); [None] is [NaN]. *)
Definition showNat (n : nat) : string := NilEmpty.string_of_uint (Nat.to_uint n).

Definition Number (s : string) : option nat :=
  Nat.of_uint <$> NilEmpty.uint_of_string s.

(** [s.split(',')] *)
Fixpoint split_comma (s : string) : list string :=
  match s with
  | EmptyString => [EmptyString]
  | String a rest =>
      if Ascii.eqb a "," then EmptyString :: split_comma rest
      else match split_comma rest with
           | [] => [String a EmptyString]
           | hd :: tl => String a hd :: tl
           end
  end.

(** [Set.prototype.add] on a set of strings kept in insertion order. *)
Definition Set_add (k : string) (s : list string) : list string :=
  if bool_decide (k ∈ s) then s else s ++ [k].

Module Grid.

Record t := mk
  { size : nat;
    state : list (list (option string)) }.

(** [createEmptyState()] *)
Definition createEmptyState (n : nat) : list (list (option string)) :=
  replicate n (replicate n None).

(** [new Grid(size)] *)
Definition new (n : nat) : t := {| size := n; state := createEmptyState n |}.

(** [reset()] *)
Definition reset (g : t) : t := {| size := size g; state := createEmptyState (size g) |}.

(** The invariant the constructor establishes: [size] rows of [size]
    cells. *)
Definition wf (g : t) : Prop :=
  length (state g) = size g ∧ Forall (fun line => length line = size g) (state g).

(** The expression [this.state[row][col]]. [None] is [undefined]; a
    missing row, on which JavaScript throws, is folded into [None] too.
    Neither happens inside the bounds of a well-formed grid. *)
Definition cellAt (g : t) (row col : Z) : option (option string) :=
  elemAt (state g) row ≫= (fun line => elemAt line col).

(** [v === null] *)
Definition isNull (v : option (option string)) : bool :=
  match v with
  | Some None => true
  | _ => false
  end.

(** The assignment [this.state[row][col] = v]. [None] when it does not
    land on an existing element: [this.state[row]] is [undefined] (a
    TypeError) or [col] is not an index of that row (the array would
    grow or gain a stray property). *)
Definition assign (g : t) (row col : Z) (v : option string) : option t :=
  match elemAt (state g) row with
  | None => None
  | Some line =>
      if bool_decide (0 ≤ col ∧ col < Z.of_nat (length line))%Z
      then Some {| size := size g;
                   state := <[Z.to_nat row := <[Z.to_nat col := v]> line]> (state g) |}
      else None
  end.

(** [isValidCell(row, col)] *)
Definition isValidCell (g : t) (row col : Z) : bool :=
  (0 <=? row)%Z && (row <? Z.of_nat (size g))%Z &&
  (0 <=? col)%Z && (col <? Z.of_nat (size g))%Z.

(** [isCellEmpty(row, col)] *)
Definition isCellEmpty (g : t) (row col : Z) : bool :=
  isValidCell g row col && isNull (cellAt g row col).

(** [setCell(row, col, color)] *)
Definition setCell (g : t) (row col : Z) (color : string) : option t :=
  if isValidCell g row col then assign g row col (Some color) else Some g.

(** [clearCell(row, col)] *)
Definition clearCell (g : t) (row col : Z) : option t :=
  if isValidCell g row col then assign g row col None else Some g.

(** [canPlacePiece(piece, gridRow, gridCol)]: the loop returns [false]
    at the first offset cell that is out of bounds or not [null]. *)
Definition canPlacePiece (g : t) (piece : Piece.t) (gridRow gridCol : Z) : bool :=
  forallb (fun cell : nat * nat =>
             let targetRow := (gridRow + Z.of_nat cell.1)%Z in
             let targetCol := (gridCol + Z.of_nat cell.2)%Z in
             isValidCell g targetRow targetCol &&
             isNull (cellAt g targetRow targetCol))
          (Piece.getFilledCells piece).

(** The inner loops of [findCompleteRows] and [findCompleteCols]:
    [isComplete] stays [true] unless some cell of the line is [null]. *)
Definition rowIsComplete (g : t) (row : nat) : bool :=
  forallb (fun col => negb (isNull (cellAt g (Z.of_nat row) (Z.of_nat col))))
          (upto (size g)).

Definition colIsComplete (g : t) (col : nat) : bool :=
  forallb (fun row => negb (isNull (cellAt g (Z.of_nat row) (Z.of_nat col))))
          (upto (size g)).

(** [findCompleteRows()] *)
Definition findCompleteRows (g : t) : list nat :=
  List.filter (rowIsComplete g) (upto (size g)).

(** [findCompleteCols()] *)
Definition findCompleteCols (g : t) : list nat :=
  List.filter (colIsComplete g) (upto (size g)).

(** The key [`${row},${col}`] *)
Definition cellKey (row col : nat) : string :=
  showNat row +:+ "," +:+ showNat col.

(** [const [row, col] = key.split(',').map(Number); return { row, col }]
    [None] when a component is missing or is not a number. *)
Definition parseKey (key : string) : option (nat * nat) :=
  match Number <$> split_comma key with
  | Some row :: Some col :: _ => Some (row, col)
  | _ => None
  end.

(** The two filling loops of [getCellsToClear], on the set of keys. *)
Definition addRowKeys (n : nat) (rs : list nat) (cellsSet : list string) : list string :=
  foldl (fun s row => foldl (fun s' col => Set_add (cellKey row col) s') s (upto n))
        cellsSet rs.

Definition addColKeys (n : nat) (cs : list nat) (cellsSet : list string) : list string :=
  foldl (fun s col => foldl (fun s' row => Set_add (cellKey row col) s') s (upto n))
        cellsSet cs.

(** [getCellsToClear(rows, cols)] *)
Definition getCellsToClear (g : t) (rs cs : list nat) : option (list (nat * nat)) :=
  let cellsSet := addColKeys (size g) cs (addRowKeys (size g) rs []) in
  mapM parseKey cellsSet.

(** [clearCells(cells)]: unguarded assignments of [null]. *)
Fixpoint clearCells (g : t) (cells : list (nat * nat)) : option t :=
  match cells with
  | [] => Some g
  | (row, col) :: rest =>
      match assign g (Z.of_nat row) (Z.of_nat col) None with
      | None => None
      | Some g' => clearCells g' rest
      end
  end.

End Grid.

(* ===================================================================== *)
(** ** class Game                                                          *)
(* ===================================================================== *)

(** The values of the three [Math.random()] calls of one tray refill. *)
Record draws := { draw1 : Q; draw2 : Q; draw3 : Q }.

Module Game.

Record t := mk
  { grid : Grid.t;
    score : Z;
    trayPieces : list (option Piece.t);
    isAnimating : bool;
    isGameOver : bool }.

Definition with_grid (game : t) (g : Grid.t) : t :=
  {| grid := g; score := score game; trayPieces := trayPieces game;
     isAnimating := isAnimating game; isGameOver := isGameOver game |}.

Definition with_trayPieces (game : t) (tray : list (option Piece.t)) : t :=
  {| grid := grid game; score := score game; trayPieces := tray;
     isAnimating := isAnimating game; isGameOver := isGameOver game |}.

Definition with_isAnimating (game : t) (b : bool) : t :=
  {| grid := grid game; score := score game; trayPieces := trayPieces game;
     isAnimating := b; isGameOver := isGameOver game |}.

(** [canInteract()] *)
Definition canInteract (game : t) : bool :=
  negb (isGameOver game) && negb (isAnimating game).

(** [canPieceFitAnywhere(piece)] *)
Definition canPieceFitAnywhere (game : t) (piece : Piece.t) : bool :=
  let maxRow := (Z.of_nat (Grid.size (grid game)) - Z.of_nat (Piece.rows piece))%Z in
  let maxCol := (Z.of_nat (Grid.size (grid game)) - Z.of_nat (Piece.cols piece))%Z in
  existsb (fun row =>
             existsb (fun col => Grid.canPlacePiece (grid game) piece row col)
                     (upto_incl maxCol))
          (upto_incl maxRow).

(** [checkGameOver()]: [true] when no piece of the tray fits anywhere;
    [null] slots are skipped. *)
Definition checkGameOver (game : t) : bool :=
  negb (existsb (fun slot => match slot with
                             | None => false
                             | Some piece => canPieceFitAnywhere game piece
                             end)
                (trayPieces game)).

(** [triggerGameOver()]: the flag; sounds, the modal and the stored high
    score are outside the modelled state. *)
Definition triggerGameOver (game : t) : t :=
  {| grid := grid game; score := score game; trayPieces := trayPieces game;
     isAnimating := isAnimating game; isGameOver := true |}.

(** [calculateLineBonus(lineCount)] *)
Definition calculateLineBonus (lineCount : Z) : Z := (500 * lineCount * lineCount)%Z.

(** [addScore(points)] *)
Definition addScore (game : t) (points : Z) : t :=
  {| grid := grid game; score := (score game + points)%Z; trayPieces := trayPieces game;
     isAnimating := isAnimating game; isGameOver := isGameOver game |}.

(** [removePieceFromTray(index)]: [this.trayPieces[index] = null]. Past
    the end a JavaScript array grows, leaving holes before the new
    element; every reader of the tray treats a hole like [null]
    ([every] skips it, [!piece] holds of it), so holes are [None] too. *)
Definition removePieceFromTray (game : t) (index : nat) : t :=
  let tray := trayPieces game in
  with_trayPieces game
    (if bool_decide (index < length tray) then <[index := None]> tray
     else tray ++ replicate (index - length tray) None ++ [None]).

(** [generateTrayPieces()] *)
Definition generateTrayPieces (game : t) (u : draws) : option t :=
  p1 ← Piece.createRandom (draw1 u);
  p2 ← Piece.createRandom (draw2 u);
  p3 ← Piece.createRandom (draw3 u);
  Some (with_trayPieces game [Some p1; Some p2; Some p3]).

(** [refillTray()]: new pieces; the rest re-renders the tray. *)
Definition refillTray (game : t) (u : draws) : option t := generateTrayPieces game u.

(** [checkAndRefillTray()] *)
Definition checkAndRefillTray (game : t) (u : draws) : option t :=
  let allPlaced := forallb (fun piece => match piece with None => true | Some _ => false end)
                           (trayPieces game) in
  if allPlaced then refillTray game u else Some game.

(** [checkAndClearLines()] *)
Definition checkAndClearLines (game : t) : option t :=
  let completeRows := Grid.findCompleteRows (grid game) in
  let completeCols := Grid.findCompleteCols (grid game) in
  let totalLines := length completeRows + length completeCols in
  if Nat.eqb totalLines 0 then Some game
  else
    cellsToClear ← Grid.getCellsToClear (grid game) completeRows completeCols;
    g ← Grid.clearCells (grid game) cellsToClear;
    let lineBonus := calculateLineBonus (Z.of_nat totalLines) in
    Some (addScore (with_grid game g) lineBonus).

(** The array [placedCells] that step 1 of [placePiece] collects: the
    absolute cell of every offset. *)
Definition placedCells (gridRow gridCol : Z) (filledCells : list (nat * nat)) : list (Z * Z) :=
  (fun cell : nat * nat => ((gridRow + Z.of_nat cell.1)%Z, (gridCol + Z.of_nat cell.2)%Z))
    <$> filledCells.

(** Step 1 of [placePiece]: the loop calling [setCell] on every offset
    cell of the piece. *)
Fixpoint fillCells (g : Grid.t) (color : string) (gridRow gridCol : Z)
    (filledCells : list (nat * nat)) : option Grid.t :=
  match filledCells with
  | [] => Some g
  | cell :: rest =>
      let targetRow := (gridRow + Z.of_nat cell.1)%Z in
      let targetCol := (gridCol + Z.of_nat cell.2)%Z in
      match Grid.setCell g targetRow targetCol color with
      | None => None
      | Some g' => fillCells g' color gridRow gridCol rest
      end
  end.

(** [placePiece(piece, gridRow, gridCol, trayIndex)] *)
Definition placePiece (game : t) (piece : Piece.t) (gridRow gridCol : Z)
    (trayIndex : nat) (u : draws) : option t :=
  let game := with_isAnimating game true in
  (* 1. fill grid cells with the piece colour *)
  let filledCells := Piece.getFilledCells piece in
  g ← fillCells (grid game) (Piece.color piece) gridRow gridCol filledCells;
  let game := with_grid game g in
  (* 3. remove the piece from the tray *)
  let game := removePieceFromTray game trayIndex in
  (* 4. placement score *)
  let placementPoints := (Z.of_nat (length filledCells) * 10)%Z in
  let game := addScore game placementPoints in
  (* 6. completed lines *)
  game ← checkAndClearLines game;
  (* 7. refill, before the game-over check *)
  game ← checkAndRefillTray game u;
  (* 8. game over *)
  if checkGameOver game
  then Some (triggerGameOver (with_isAnimating game false))
  else Some (with_isAnimating game false).

(** [startNewGame()] *)
Definition startNewGame (game : t) (u : draws) : option t :=
  generateTrayPieces
    {| grid := Grid.reset (grid game); score := 0; trayPieces := trayPieces game;
       isAnimating := false; isGameOver := false |} u.

End Game.

(* ===================================================================== *)
(** ** class DragController: the drop handler                              *)
(* ===================================================================== *)

Module DragController.

Record t := mk
  { isDragging : bool;
    draggedPiece : option Piece.t;
    draggedPieceIndex : option nat;
    lastGridPos : option (Z * Z) }.

(** [endDrag()] *)
Definition endDrag (dc : t) : t :=
  {| isDragging := false; draggedPiece := None; draggedPieceIndex := None;
     lastGridPos := None |}.

(** [handlePointerDown(e)]; [target] is the tray index of the piece
    element under the pointer, if any. *)
Definition handlePointerDown (dc : t) (game : Game.t) (target : option nat) : t :=
  if negb (Game.canInteract game) then dc
  else match target with
       | None => dc
       | Some index =>
           match Game.trayPieces game !! index with
           | Some (Some piece) =>
               {| isDragging := true; draggedPiece := Some piece;
                  draggedPieceIndex := Some index; lastGridPos := lastGridPos dc |}
           | _ => dc
           end
       end.

(** [handlePointerUp(e)]; [gridPos] is what [grid.pageToGrid] returns for
    the pointer position ([None] outside the grid). [None] as a result
    is an exception: no dragged piece or index while dragging, or a
    failing placement. *)
Definition handlePointerUp (dc : t) (game : Game.t) (gridPos : option (Z * Z))
    (u : draws) : option (t * Game.t) :=
  if negb (isDragging dc) then Some (dc, game)
  else
    match gridPos with
    | None => Some (endDrag dc, game)
    | Some (row, col) =>
        match draggedPiece dc with
        | None => None
        | Some piece =>
            let isValid := Grid.canPlacePiece (Game.grid game) piece row col in
            if isValid then
              match draggedPieceIndex dc with
              | None => None
              | Some trayIndex =>
                  game' ← Game.placePiece game piece row col trayIndex u;
                  Some (endDrag dc, game')
              end
            else Some (endDrag dc, game)
        end
    end.

End DragController.

(* ===================================================================== *)
(** ** Constructors                                                        *)
(* ===================================================================== *)

(** [new Game()], as far as the engine state goes: an 8 x 8 grid, no
    score, an empty tray that [generateTrayPieces] fills at once. *)
Definition new_Game (u : draws) : option Game.t :=
  Game.generateTrayPieces
    {| Game.grid := Grid.new 8; Game.score := 0; Game.trayPieces := [];
       Game.isAnimating := false; Game.isGameOver := false |} u.

(** [new DragController(game)]: nothing is dragged. *)
Definition new_DragController : DragController.t :=
  {| DragController.isDragging := false; DragController.draggedPiece := None;
     DragController.draggedPieceIndex := None; DragController.lastGridPos := None |}.

(* ===================================================================== *)
(** ** The game across the awaits of placePiece                            *)
(* ===================================================================== *)

(** [placePiece] is an [async] function that nobody awaits. It runs up
    to [await this.delay(150)] inside the call of [handlePointerUp];
    the rest runs in later turns of the event loop, when the timeout of
    a [delay] fires, and between these turns other events are handled.
    Here the game, the drag controller and the suspended calls of
    [placePiece] make the state, and every turn of the event loop is a
    step. [Game.placePiece] above is the same code run without a turn in
    between. *)
Module Async.

(** Where a call of [placePiece] is suspended: at
    [await this.delay(150)], or at [await this.delay(300)] inside
    [checkAndClearLines], which holds [cellsToClear] and [totalLines]
    across the wait. *)
Inductive suspension :=
| AtPlaceDelay
| AtClearDelay (cellsToClear : list (nat * nat)) (totalLines : nat).

Record t := mk
  { game : Game.t;
    controller : DragController.t;
    suspended : list suspension }.

(** [placePiece(piece, gridRow, gridCol, trayIndex)] up to
    [await this.delay(150)]: steps 1 to 4. *)
Definition placePiece_begin (game : Game.t) (piece : Piece.t) (gridRow gridCol : Z)
    (trayIndex : nat) : option Game.t :=
  let game := Game.with_isAnimating game true in
  let filledCells := Piece.getFilledCells piece in
  g ← Game.fillCells (Game.grid game) (Piece.color piece) gridRow gridCol filledCells;
  let game := Game.with_grid game g in
  let game := Game.removePieceFromTray game trayIndex in
  let placementPoints := (Z.of_nat (length filledCells) * 10)%Z in
  Some (Game.addScore game placementPoints).

(** [checkAndClearLines()] up to [await this.delay(300)]: [Some None]
    when no line is complete and the function returns at once, else the
    locals that the wait keeps. *)
Definition checkAndClearLines_begin (game : Game.t)
  : option (option (list (nat * nat) * nat)) :=
  let completeRows := Grid.findCompleteRows (Game.grid game) in
  let completeCols := Grid.findCompleteCols (Game.grid game) in
  let totalLines := length completeRows + length completeCols in
  if Nat.eqb totalLines 0 then Some None
  else
    cellsToClear ← Grid.getCellsToClear (Game.grid game) completeRows completeCols;
    Some (Some (cellsToClear, totalLines)).

(** [checkAndClearLines()] after the wait: the cells found before it
    are cleared on the grid as it is now, and the bonus is added to the
    score as it is now. *)
Definition checkAndClearLines_end (game : Game.t) (cellsToClear : list (nat * nat))
    (totalLines : nat) : option Game.t :=
  g ← Grid.clearCells (Game.grid game) cellsToClear;
  let lineBonus := Game.calculateLineBonus (Z.of_nat totalLines) in
  Some (Game.addScore (Game.with_grid game g) lineBonus).

(** Steps 7 and 8 of [placePiece]: the refill, the game-over check, and
    [this.isAnimating = false]. *)
Definition placePiece_end (game : Game.t) (u : draws) : option Game.t :=
  game ← Game.checkAndRefillTray game u;
  if Game.checkGameOver game
  then Some (Game.triggerGameOver (Game.with_isAnimating game false))
  else Some (Game.with_isAnimating game false).

(** A suspended call runs on, up to its next [await] ([Some] suspension)
    or to its end. *)
Definition resume (game : Game.t) (sus : suspension) (u : draws)
  : option (Game.t * option suspension) :=
  match sus with
  | AtPlaceDelay =>
      found ← checkAndClearLines_begin game;
      match found with
      | Some (cellsToClear, totalLines) =>
          Some (game, Some (AtClearDelay cellsToClear totalLines))
      | None => game' ← placePiece_end game u; Some (game', None)
      end
  | AtClearDelay cellsToClear totalLines =>
      game ← checkAndClearLines_end game cellsToClear totalLines;
      game' ← placePiece_end game u;
      Some (game', None)
  end.

(** [handlePointerUp(e)]: as [DragController.handlePointerUp], with the
    call of [placePiece] returning at its first [await]. *)
Definition handlePointerUp (s : t) (gridPos : option (Z * Z)) : option t :=
  let dc := controller s in
  if negb (DragController.isDragging dc) then Some s
  else
    match gridPos with
    | None =>
        Some {| game := game s; controller := DragController.endDrag dc;
                suspended := suspended s |}
    | Some (row, col) =>
        match DragController.draggedPiece dc with
        | None => None
        | Some piece =>
            let isValid := Grid.canPlacePiece (Game.grid (game s)) piece row col in
            if isValid then
              match DragController.draggedPieceIndex dc with
              | None => None
              | Some trayIndex =>
                  game' ← placePiece_begin (game s) piece row col trayIndex;
                  Some {| game := game'; controller := DragController.endDrag dc;
                          suspended := (suspended s ++ [AtPlaceDelay])%list |}
              end
            else
              Some {| game := game s; controller := DragController.endDrag dc;
                      suspended := suspended s |}
        end
    end.

(** [handlePointerMove(e)], as far as this state goes: during a drag
    [updateGhostPreview] assigns [lastGridPos], the cell under the
    pointer or [null]; when it leaves the field as it is, [gridPos] is
    the value the field has. *)
Definition handlePointerMove (dc : DragController.t) (gridPos : option (Z * Z))
  : DragController.t :=
  if negb (DragController.isDragging dc) then dc
  else {| DragController.isDragging := DragController.isDragging dc;
          DragController.draggedPiece := DragController.draggedPiece dc;
          DragController.draggedPieceIndex := DragController.draggedPieceIndex dc;
          DragController.lastGridPos := gridPos |}.

(** The events: a pointer goes down on the tray ([target] as in
    [DragController.handlePointerDown]); a pointer moves or goes up
    ([gridPos] is what [pageToGrid] returns for it); [startNewGame]
    runs, from the New Game button ([handleNewGameClick], at once or
    once confirmed) or the Play Again button; the timeout of the [k]-th
    suspended call fires. The draws are those of the [Math.random()]
    calls the step makes. The page fires the timeouts in the order of
    their deadlines; here any suspended call may run on, which only adds
    runs. *)
Inductive event :=
| PointerDown (target : option nat)
| PointerMove (gridPos : option (Z * Z))
| PointerUp (gridPos : option (Z * Z))
| NewGame (u : draws)
| Timeout (k : nat) (u : draws).

(** One turn of the event loop; [None] is an exception, or a timeout
    that does not exist. *)
Definition step (s : t) (e : event) : option t :=
  match e with
  | PointerDown target =>
      Some {| game := game s;
              controller := DragController.handlePointerDown (controller s) (game s) target;
              suspended := suspended s |}
  | PointerMove gridPos =>
      Some {| game := game s; controller := handlePointerMove (controller s) gridPos;
              suspended := suspended s |}
  | PointerUp gridPos => handlePointerUp s gridPos
  | NewGame u =>
      game' ← Game.startNewGame (game s) u;
      Some {| game := game'; controller := controller s; suspended := suspended s |}
  | Timeout k u =>
      sus ← suspended s !! k;
      '(game', next) ← resume (game s) sus u;
      Some {| game := game'; controller := controller s;
              suspended := match next with
                           | Some sus' => <[k := sus']> (suspended s)
                           | None => delete k (suspended s)
                           end |}
  end.

(** The state after [new Game()]. *)
Definition initial (game : Game.t) : t :=
  {| game := game; controller := new_DragController; suspended := [] |}.

(** A sequence of turns. *)
Fixpoint run (s : t) (events : list event) : option t :=
  match events with
  | [] => Some s
  | e :: rest => s' ← step s e; run s' rest
  end.

End Async.

(* ===================================================================== *)
(** ** Pointer positions: Grid.pageToGrid and the handlers using it        *)
(* ===================================================================== *)

(** What [getBoundingClientRect()] reports of the grid element. Page
    coordinates are taken over the rationals. *)
Module DOMRect.

Record t := mk { left : Q; top : Q; right : Q; bottom : Q; width : Q }.

End DOMRect.

(** [a < b] on coordinates. *)
Definition Qlt_bool (a b : Q) : bool := negb (Qle_bool b a).

(** What a handler asks of the ghost preview: [grid.clearGhost()],
    nothing, or [grid.showGhost(piece, row, col, isValid)]. *)
Inductive ghostCall :=
| GhostCleared
| GhostKept
| GhostShown (row col : Z) (isValid : bool).

Module Pointer.

(** [grid.pageToGrid(pageX, pageY)]. The subtractions and the divisions
    are exact here and rounded in JavaScript, where a pointer within one
    rounding of the border between two cells can be given the next
    cell; the bounds test and the clamp do not depend on it. *)
Definition pageToGrid (g : Grid.t) (gridRect : DOMRect.t) (pageX pageY : Q) : option (Z * Z) :=
  if Qlt_bool pageX (DOMRect.left gridRect) || Qlt_bool (DOMRect.right gridRect) pageX ||
     Qlt_bool pageY (DOMRect.top gridRect) || Qlt_bool (DOMRect.bottom gridRect) pageY
  then None
  else
    let cellSize := (DOMRect.width gridRect / inject_Z (Z.of_nat (Grid.size g)))%Q in
    let col := Qfloor ((pageX - DOMRect.left gridRect) / cellSize) in
    let row := Qfloor ((pageY - DOMRect.top gridRect) / cellSize) in
    Some (Z.max 0 (Z.min (Z.of_nat (Grid.size g) - 1) row),
          Z.max 0 (Z.min (Z.of_nat (Grid.size g) - 1) col)).

(** [this.touchOffsetY], set once by the constructor. *)
Definition touchOffsetY : Q := - (60).

(** [isTouchDevice ? this.touchOffsetY : 0] *)
Definition touchOffset (isTouchDevice : bool) : Q :=
  if isTouchDevice then touchOffsetY else 0.

(** [updateGhostPreview(x, y)]; [None] when no piece is dragged, on
    which [canPlacePiece] throws. *)
Definition updateGhostPreview (dc : DragController.t) (game : Game.t)
    (gridRect : DOMRect.t) (isTouchDevice : bool) (x y : Q)
  : option (DragController.t * ghostCall) :=
  let adjustedY := (y + touchOffset isTouchDevice)%Q in
  match pageToGrid (Game.grid game) gridRect x adjustedY with
  | None =>
      Some ({| DragController.isDragging := DragController.isDragging dc;
               DragController.draggedPiece := DragController.draggedPiece dc;
               DragController.draggedPieceIndex := DragController.draggedPieceIndex dc;
               DragController.lastGridPos := None |}, GhostCleared)
  | Some (row, col) =>
      let unchanged :=
        match DragController.lastGridPos dc with
        | Some (lastRow, lastCol) => Z.eqb lastRow row && Z.eqb lastCol col
        | None => false
        end in
      if unchanged then Some (dc, GhostKept)
      else
        match DragController.draggedPiece dc with
        | None => None
        | Some piece =>
            let isValid := Grid.canPlacePiece (Game.grid game) piece row col in
            Some ({| DragController.isDragging := DragController.isDragging dc;
                     DragController.draggedPiece := DragController.draggedPiece dc;
                     DragController.draggedPieceIndex := DragController.draggedPieceIndex dc;
                     DragController.lastGridPos := Some (row, col) |},
                  GhostShown row col isValid)
        end
  end.

(** The drag controller together with its floating element:
    [this.dragElement] ([None] is [null]; elements are numbered in the
    order of their creation), the drag elements attached to
    [document.body], the number of elements created so far and the
    number of timeouts of [animateReturnToTray] that have not fired
    yet. *)
Record t := mk
  { controller : DragController.t;
    dragElement : option nat;
    body : list nat;
    created : nat;
    returnTimers : nat }.

Definition with_controller (s : t) (dc : DragController.t) : t :=
  {| controller := dc; dragElement := dragElement s; body := body s;
     created := created s; returnTimers := returnTimers s |}.

(** [new DragController(game)] *)
Definition initial : t :=
  {| controller := new_DragController; dragElement := None; body := [];
     created := 0; returnTimers := 0 |}.

(** [createDragElement(piece, x, y)]: a new element is appended to
    [document.body] and assigned to [this.dragElement]; the element the
    field held before is not removed. *)
Definition createDragElement (s : t) : t :=
  {| controller := controller s; dragElement := Some (created s);
     body := (body s ++ [created s])%list; created := S (created s);
     returnTimers := returnTimers s |}.

(** [removeDragElement()] *)
Definition removeDragElement (s : t) : t :=
  match dragElement s with
  | Some element =>
      {| controller := controller s; dragElement := None;
         body := List.filter (fun e => negb (Nat.eqb e element)) (body s);
         created := created s; returnTimers := returnTimers s |}
  | None => s
  end.

(** [animateReturnToTray()]; [sourceFound] tells whether the tray holds
    an element for the dragged index. The element is then removed by a
    timeout, 200 ms later. *)
Definition animateReturnToTray (s : t) (sourceFound : bool) : t :=
  match dragElement s with
  | None => s
  | Some _ =>
      if sourceFound
      then {| controller := controller s; dragElement := dragElement s; body := body s;
              created := created s; returnTimers := S (returnTimers s) |}
      else removeDragElement s
  end.

(** A timeout of [animateReturnToTray] fires, which takes one to be
    pending: [this.removeDragElement()], on whatever the field holds by
    then. *)
Definition returnTimeout (s : t) : t :=
  let s' := removeDragElement s in
  {| controller := controller s'; dragElement := dragElement s'; body := body s';
     created := created s'; returnTimers := pred (returnTimers s') |}.

(** [endDrag()] *)
Definition endDrag (s : t) : t := with_controller s (DragController.endDrag (controller s)).

(** [handlePointerDown(e)], with [createDragElement]. *)
Definition handlePointerDown (s : t) (game : Game.t) (target : option nat) : t :=
  if negb (Game.canInteract game) then s
  else match target with
       | None => s
       | Some index =>
           match Game.trayPieces game !! index with
           | Some (Some piece) =>
               createDragElement
                 (with_controller s
                    {| DragController.isDragging := true;
                       DragController.draggedPiece := Some piece;
                       DragController.draggedPieceIndex := Some index;
                       DragController.lastGridPos :=
                         DragController.lastGridPos (controller s) |})
           | _ => s
           end
       end.

(** [handlePointerMove(e)]: nothing happens unless a drag is on and the
    drag element exists. *)
Definition handlePointerMove (s : t) (game : Game.t)
    (gridRect : DOMRect.t) (isTouchDevice : bool) (clientX clientY : Q)
  : option (t * ghostCall) :=
  if negb (DragController.isDragging (controller s)) ||
     match dragElement s with None => true | Some _ => false end
  then Some (s, GhostKept)
  else
    '(dc', call) ← updateGhostPreview (controller s) game gridRect isTouchDevice
                     clientX clientY;
    Some (with_controller s dc', call).

(** [handlePointerUp(e)] with the position of the event: a placement
    removes the drag element at once, a refused drop sends it back to
    the tray. *)
Definition handlePointerUp (s : t) (game : Game.t)
    (gridRect : DOMRect.t) (isTouchDevice sourceFound : bool) (clientX clientY : Q)
    (u : draws) : option (t * Game.t) :=
  if negb (DragController.isDragging (controller s)) then Some (s, game)
  else
    let adjustedY := (clientY + touchOffset isTouchDevice)%Q in
    match pageToGrid (Game.grid game) gridRect clientX adjustedY with
    | None => Some (endDrag (animateReturnToTray s sourceFound), game)
    | Some (row, col) =>
        match DragController.draggedPiece (controller s) with
        | None => None
        | Some piece =>
            let isValid := Grid.canPlacePiece (Game.grid game) piece row col in
            if isValid then
              match DragController.draggedPieceIndex (controller s) with
              | None => None
              | Some trayIndex =>
                  game' ← Game.placePiece game piece row col trayIndex u;
                  Some (endDrag (removeDragElement s), game')
              end
            else Some (endDrag (animateReturnToTray s sourceFound), game)
        end
    end.

End Pointer.

(* ===================================================================== *)
(** ** class Game: the high score system                                   *)
(* ===================================================================== *)

(** JavaScript's conversions of a number to a 32-bit integer, signed and
    unsigned, on integers. *)
Definition ToInt32 (z : Z) : Z :=
  let u := (z mod 2 ^ 32)%Z in if (u <? 2 ^ 31)%Z then u else (u - 2 ^ 32)%Z.

Definition ToUint32 (z : Z) : Z := (z mod 2 ^ 32)%Z.

(** [String.fromCharCode(...codes)] on codes below 256. *)
Definition fromCharCode (codes : list nat) : string :=
  string_of_list_ascii (ascii_of_nat <$> codes).

(** [s.split('').reverse().join('')] *)
Definition reverseString (s : string) : string :=
  string_of_list_ascii (reverse (list_ascii_of_string s)).

(** [s.charCodeAt(i)] for every [i], in order. *)
Definition charCodes (s : string) : list Z :=
  (fun a => Z.of_nat (nat_of_ascii a)) <$> list_ascii_of_string s.

(** The template literal [`${n}`] of an integer: decimal digits, with a
    minus sign when negative (as JavaScript prints integers below
    [10^21] in absolute value). *)
Definition showZ (z : Z) : string := NilEmpty.string_of_int (Z.to_int z).

(** One digit of [toString(36)]. *)
Definition digit36 (d : Z) : ascii :=
  if (d <? 10)%Z then ascii_of_nat (48 + Z.to_nat d) else ascii_of_nat (87 + Z.to_nat d).

(** [n.toString(36)] of a non-negative integer: the digits are produced
    from the last one; the number of binary digits of [n] bounds their
    number. *)
Fixpoint toString36_loop (fuel : nat) (n : Z) (acc : string) : string :=
  match fuel with
  | O => acc
  | S fuel' =>
      let acc' := String (digit36 (n mod 36)) acc in
      if (n / 36 =? 0)%Z then acc' else toString36_loop fuel' (n / 36) acc'
  end.

Definition toString36 (n : Z) : string :=
  toString36_loop (S (Z.to_nat (Z.log2 n))) n "".

(** [s.split(':')] *)
Fixpoint split_colon (s : string) : list string :=
  match s with
  | EmptyString => [EmptyString]
  | String a rest =>
      if Ascii.eqb a ":" then EmptyString :: split_colon rest
      else match split_colon rest with
           | [] => [String a EmptyString]
           | hd :: tl => String a hd :: tl
           end
  end.

(** [parseInt(s, 10)] on strings of code units below 256: leading white
    space is skipped, a sign is read, then the longest run of decimal
    digits; [None] is [NaN]. Below 256 the white space and line
    terminators of JavaScript are the codes 9 to 13, the space 32 and
    the no-break space 160. *)
Definition isWhiteSpace (a : ascii) : bool :=
  let n := nat_of_ascii a in
  Nat.eqb n 32 || Nat.eqb n 160 || (Nat.leb 9 n && Nat.leb n 13).

Definition isDigit (a : ascii) : bool :=
  let n := nat_of_ascii a in Nat.leb 48 n && Nat.leb n 57.

Fixpoint skipWhiteSpace (s : string) : string :=
  match s with
  | String a rest => if isWhiteSpace a then skipWhiteSpace rest else s
  | EmptyString => EmptyString
  end.

Fixpoint takeDigits (s : string) : string :=
  match s with
  | String a rest => if isDigit a then String a (takeDigits rest) else EmptyString
  | EmptyString => EmptyString
  end.

Definition parseInt (s : string) : option Z :=
  let s := skipWhiteSpace s in
  let '(negative, s) :=
    match s with
    | String a rest =>
        if Ascii.eqb a "-" then (true, rest)
        else if Ascii.eqb a "+" then (false, rest)
        else (false, s)
    | EmptyString => (false, s)
    end in
  match takeDigits s with
  | EmptyString => None
  | digits =>
      match NilEmpty.uint_of_string digits with
      | Some d => Some (if negative then - Z.of_uint d else Z.of_uint d)%Z
      | None => None
      end
  end.

(** [localStorage] as the high score code meets it: the item
    ['blockblast-highscore'] ([None]: no item; a string of code units
    below 256 otherwise) and, for each of the three calls made on it,
    whether the call throws. A browser that blocks storage makes all
    three throw; a full or read-only storage makes [setItem] throw. *)
Module LocalStorage.

Record t := mk
  { item : option string;
    getItemThrows : bool;
    setItemThrows : bool;
    removeItemThrows : bool }.

(** The three calls; [None] is an exception. *)
Definition getItem (st : t) : option (option string) :=
  if getItemThrows st then None else Some (item st).

Definition setItem (st : t) (value : string) : option t :=
  if setItemThrows st then None
  else Some {| item := Some value; getItemThrows := getItemThrows st;
               setItemThrows := setItemThrows st;
               removeItemThrows := removeItemThrows st |}.

Definition removeItem (st : t) : option t :=
  if removeItemThrows st then None
  else Some {| item := None; getItemThrows := getItemThrows st;
               setItemThrows := setItemThrows st;
               removeItemThrows := removeItemThrows st |}.

End LocalStorage.

Module HighScore.

(** The part of the game the high score lives in: [localStorage] and the
    field [this.highScore]. *)
Record t := mk
  { storage : LocalStorage.t;
    highScore : Z }.

(** The salt of [generateScoreHash]. *)
Definition salt : string :=
  fromCharCode [66; 108; 111; 99; 107; 66; 108; 97; 115; 116; 50; 48; 50; 52].

(** One turn of the loop of [generateScoreHash]:
    [hash = ((hash << 5) + hash) ^ data.charCodeAt(i); hash = hash >>> 0]. *)
Definition hashStep (hash code : Z) : Z :=
  ToUint32 (Z.lxor (ToInt32 (ToInt32 (Z.shiftl (ToInt32 hash) 5) + hash)) (ToInt32 code)).

(** The loop, from [5381]. *)
Definition hashOf (data : string) : Z := foldl hashStep 5381%Z (charCodes data).

(** [generateScoreHash(score)] *)
Definition generateScoreHash (score : Z) : string :=
  let data := salt +:+ ":" +:+ showZ score +:+ ":" +:+ reverseString salt in
  toString36 (hashOf data).

(** [verifyScoreHash(score, hash)] *)
Definition verifyScoreHash (score : Z) (hash : string) : bool :=
  String.eqb (generateScoreHash score) hash.

(** The branch of [loadHighScore] for a tampered or corrupted item:
    [removeItem], then [return 0]; when [removeItem] throws, the [catch]
    returns 0 as well. *)
Definition rejectItem (st : LocalStorage.t) : Z * LocalStorage.t :=
  match LocalStorage.removeItem st with
  | Some st' => (0%Z, st')
  | None => (0%Z, st)
  end.

(** [loadHighScore()]: the score returned and the storage afterwards.
    The whole body is inside [try]; the [catch] returns 0. *)
Definition loadHighScore (st : LocalStorage.t) : Z * LocalStorage.t :=
  match LocalStorage.getItem st with
  | None => (0%Z, st)
  | Some None => (0%Z, st)
  | Some (Some EmptyString) => (0%Z, st)
  | Some (Some stored) =>
      match split_colon stored with
      | [part0; hash] =>
          match parseInt part0 with
          | None => rejectItem st
          | Some score =>
              if verifyScoreHash score hash then (score, st) else rejectItem st
          end
      | _ => (0%Z, st)
      end
  end.

(** [saveHighScore(score)]: the value returned and the game afterwards.
    When [setItem] throws, the [catch] returns [false] before
    [this.highScore] is assigned. *)
Definition saveHighScore (hs : t) (score : Z) : bool * t :=
  let '(current, st) := loadHighScore (storage hs) in
  if (current <? score)%Z
  then
    match LocalStorage.setItem st (showZ score +:+ ":" +:+ generateScoreHash score) with
    | Some st' => (true, {| storage := st'; highScore := score |})
    | None => (false, {| storage := st; highScore := highScore hs |})
    end
  else (false, {| storage := st; highScore := highScore hs |}).

(** [this.highScore = this.loadHighScore()] of the constructor. *)
Definition new (st : LocalStorage.t) : t :=
  let '(score, st') := loadHighScore st in
  {| storage := st'; highScore := score |}.

(** [triggerGameOver()] with the high score: the flag is set, the score
    is offered to [saveHighScore]; the [bool] is [isNewHighScore]. *)
Definition triggerGameOver (game : Game.t) (hs : t) : Game.t * t * bool :=
  let game' := Game.triggerGameOver game in
  let '(isNewHighScore, hs') := saveHighScore hs (Game.score game') in
  (game', hs', isNewHighScore).

End HighScore.

(* ===================================================================== *)
(** ** SoundManager: the stored preference                                 *)
(* ===================================================================== *)

Module SoundManager.

(** The flags of the object; the item ['blockblast-sound'] of
    [localStorage] is passed along. *)
Record t := mk
  { enabled : bool;
    initialized : bool }.

(** The object literal. *)
Definition initial : t := {| enabled := true; initialized := false |}.




End SoundManager.

(* ===================================================================== *)
(** ** Vocabulary of the statements                                        *)
(* ===================================================================== *)

(** A quarter turn clockwise of a 0/1 matrix: the transpose of the rows
    read bottom-up. Used to say that two catalogue shapes are
    orientations of one another. *)
Fixpoint transpose (m : list (list nat)) : list (list nat) :=
  match m with
  | [] => []
  | [r] => (fun x => [x]) <$> r
  | r :: m' => zip_with cons r (transpose m')
  end.

Definition quarterTurn (m : list (list nat)) : list (list nat) := transpose (reverse m).

(** The shapes of the catalogue, in table order. *)
Definition catalogueShapes : list (list (list nat)) :=
  (fun kd => def_shape kd.2) <$> PIECE_DEFINITIONS.

(** The pieces of the catalogue, in table order ([None] for a type the
    constructor refuses). *)
Definition cataloguePieces : list (option Piece.t) := Piece.new <$> PIECE_TYPES.

(** Appending an element to a duplicate-free list unless it is there
    already: what [Set_add] does to keys, on any type with decidable
    equality. [dedupFirst l] keeps the first occurrence of every element
    of [l], in order. *)
Definition addNew `{EqDecision A} (x : A) (l : list A) : list A :=
  if bool_decide (x ∈ l) then l else l ++ [x].

Definition dedupFirst `{EqDecision A} (l : list A) : list A :=
  foldl (fun acc x => addNew x acc) [] l.

(** The cells of the listed rows, row by row, followed by the cells of
    the listed columns, column by column: the order in which
    [getCellsToClear] visits them. *)
Definition lineCells (n : nat) (rs cs : list nat) : list (nat * nat) :=
  flat_map (fun row => (fun col => (row, col)) <$> upto n) rs ++
  flat_map (fun col => (fun row => (row, col)) <$> upto n) cs.

(** The key of a cell. *)
Definition keyOf (cell : nat * nat) : string := Grid.cellKey cell.1 cell.2.

(** The draws that [Math.random()] can return: values of [0, 1). *)
Definition validDraw (u : Q) : Prop := (0 <= u)%Q ∧ (u < 1)%Q.

Definition validDraws (u : draws) : Prop :=
  validDraw (draw1 u) ∧ validDraw (draw2 u) ∧ validDraw (draw3 u).

(** A piece whose filled cells touch the four sides of its
    [rows] x [cols] box. *)
Definition touchesBox (p : Piece.t) : bool :=
  let cells := Piece.getFilledCells p in
  existsb (fun cell : nat * nat => Nat.eqb cell.1 0) cells &&
  existsb (fun cell : nat * nat => Nat.eqb (S cell.1) (Piece.rows p)) cells &&
  existsb (fun cell : nat * nat => Nat.eqb cell.2 0) cells &&
  existsb (fun cell : nat * nat => Nat.eqb (S cell.2) (Piece.cols p)) cells.

(** Row-major order on cells: an earlier row, or the same row and an
    earlier column. *)
Definition cellBefore (a b : nat * nat) : Prop :=
  a.1 < b.1 ∨ (a.1 = b.1 ∧ a.2 < b.2).

(** The value of a string of digits of [toString(36)], read from the
    left; [None] on any other character. *)
Definition value36_digit (a : ascii) : option Z :=
  let n := nat_of_ascii a in
  if Nat.leb 48 n && Nat.leb n 57 then Some (Z.of_nat n - 48)%Z
  else if Nat.leb 97 n && Nat.leb n 122 then Some (Z.of_nat n - 87)%Z
  else None.

Fixpoint value36_from (acc : Z) (s : string) : option Z :=
  match s with
  | EmptyString => Some acc
  | String a rest =>
      match value36_digit a with
      | Some d => value36_from (36 * acc + d) rest
      | None => None
      end
  end.

Definition value36 (s : string) : option Z :=
  match s with
  | EmptyString => None
  | _ => value36_from 0 s
  end.

(** A piece of the catalogue. *)
Definition inCatalogue (p : Piece.t) : Prop := ∃ k, cataloguePieces !! k = Some (Some p).

(** What holds of the game whenever no call of [placePiece] is
    suspended, in a run in which [startNewGame] waits for the
    animations. *)
Record gameInvariant (game : Game.t) : Prop := mkInvariant
  { inv_wf : Grid.wf (Game.grid game);
    inv_size : Grid.size (Game.grid game) = 8;
    inv_tray_length : length (Game.trayPieces game) = 3;
    inv_tray_catalogue :
      ∀ i p, Game.trayPieces game !! i = Some (Some p) → inCatalogue p;
    inv_tray_piece : ∃ i p, Game.trayPieces game !! i = Some (Some p);
    inv_no_row : Grid.findCompleteRows (Game.grid game) = [];
    inv_no_col : Grid.findCompleteCols (Game.grid game) = [];
    inv_score : (0 ≤ Game.score game)%Z;
    inv_isAnimating : Game.isAnimating game = false;
    inv_isGameOver : Game.isGameOver game = Game.checkGameOver game }.

(** The states the page can reach: the one after [new Game()], and from
    a reachable state the one after any turn of the event loop. *)
Inductive reachable : Async.t → Prop :=
| reach_new (u : draws) (game : Game.t) :
    new_Game u = Some game → reachable (Async.initial game)
| reach_step (s s' : Async.t) (e : Async.event) :
    reachable s → Async.step s e = Some s' → reachable s'.

(** A suspended call that waits to clear lines holds at least one line,
    and cells of the 8 x 8 board. *)
Definition suspensionOnBoard (sus : Async.suspension) : Prop :=
  match sus with
  | Async.AtPlaceDelay => True
  | Async.AtClearDelay cellsToClear totalLines =>
      0 < totalLines ∧ ∀ row col, (row, col) ∈ cellsToClear → row < 8 ∧ col < 8
  end.

(** What holds in every reachable state, whatever happened between the
    turns of a placement. *)
Record pageInvariant (s : Async.t) : Prop := mkPageInvariant
  { page_wf : Grid.wf (Game.grid (Async.game s));
    page_size : Grid.size (Game.grid (Async.game s)) = 8;
    page_tray_length : length (Game.trayPieces (Async.game s)) = 3;
    page_tray_catalogue :
      ∀ i p, Game.trayPieces (Async.game s) !! i = Some (Some p) → inCatalogue p;
    page_score : (0 ≤ Game.score (Async.game s))%Z;
    page_tray_piece :
      Game.isAnimating (Async.game s) = false →
      ∃ i p, Game.trayPieces (Async.game s) !! i = Some (Some p);
    page_not_stuck :
      Game.canInteract (Async.game s) = true → Game.checkGameOver (Async.game s) = false;
    page_unlocks :
      Game.isAnimating (Async.game s) = true → Async.suspended s ≠ [];
    page_dragged :
      DragController.isDragging (Async.controller s) = true →
      ∃ piece index,
        DragController.draggedPiece (Async.controller s) = Some piece ∧
        DragController.draggedPieceIndex (Async.controller s) = Some index ∧
        index < 3 ∧ inCatalogue piece;
    page_suspended : Forall suspensionOnBoard (Async.suspended s) }.

(** An event that can occur in a state, with draws that [Math.random()]
    can return: a timeout fires only for a call that is suspended. *)
Definition enabled (s : Async.t) (e : Async.event) : Prop :=
  match e with
  | Async.PointerDown _ | Async.PointerMove _ | Async.PointerUp _ => True
  | Async.NewGame u => validDraws u
  | Async.Timeout k u => k < length (Async.suspended s) ∧ validDraws u
  end.

(** A run in which [startNewGame] waits for the animations: it is not
    called while a call of [placePiece] is suspended. *)
Definition calm (s : Async.t) (e : Async.event) : Prop :=
  match e with
  | Async.NewGame _ => Async.suspended s = []
  | _ => True
  end.

Inductive calmlyReachable : Async.t → Prop :=
| calm_new (u : draws) (game : Game.t) :
    new_Game u = Some game → calmlyReachable (Async.initial game)
| calm_step (s s' : Async.t) (e : Async.event) :
    calmlyReachable s → calm s e → Async.step s e = Some s' → calmlyReachable s'.

(** What such a run keeps: between placements the invariant of the game;
    during a placement, a single suspended call whose game is the one
    the first turn of [placePiece] made of a game with the invariant. *)
Definition calmInvariant (s : Async.t) : Prop :=
  match Async.suspended s with
  | [] =>
      gameInvariant (Async.game s) ∧
      (DragController.isDragging (Async.controller s) = true →
       Game.isGameOver (Async.game s) = false ∧
       ∃ piece index,
         DragController.draggedPiece (Async.controller s) = Some piece ∧
         DragController.draggedPieceIndex (Async.controller s) = Some index ∧ index < 3)
  | [sus] =>
      DragController.isDragging (Async.controller s) = false ∧
      ∃ game0 piece row col index,
        gameInvariant game0 ∧ Game.isGameOver game0 = false ∧ index < 3 ∧
        Async.placePiece_begin game0 piece row col index = Some (Async.game s) ∧
        match sus with
        | Async.AtPlaceDelay => True
        | Async.AtClearDelay cells total =>
            Async.checkAndClearLines_begin (Async.game s) = Some (Some (cells, total))
        end
  | _ => False
  end.

(** The integers that JavaScript numbers hold exactly and prints in
    plain decimal: the model of the stored high score is exact on them. *)
Definition safeInteger (z : Z) : Prop := (Z.abs z < 2 ^ 53)%Z.

(** A coordinate in whole pixels, of a size at which JavaScript's
    numbers hold and subtract integers without rounding; and the
    rectangle of a square grid with such coordinates. *)
Definition pixel (z : Z) : Prop := (Z.abs z < 2 ^ 31)%Z.

Definition pixelRect (left top width : Z) : DOMRect.t :=
  {| DOMRect.left := inject_Z left; DOMRect.top := inject_Z top;
     DOMRect.right := inject_Z (left + width); DOMRect.bottom := inject_Z (top + width);
     DOMRect.width := inject_Z width |}.

(** A stored item whose numeral, if it has the two-part form, is such an
    integer. *)
Definition safeItem (item : option string) : Prop :=
  ∀ stored part0 hash score,
    item = Some stored → split_colon stored = [part0; hash] →
    parseInt part0 = Some score → safeInteger score.

(** A storage none of whose calls throws. *)
Definition working (st : LocalStorage.t) : Prop :=
  LocalStorage.getItemThrows st = false ∧ LocalStorage.setItemThrows st = false ∧
  LocalStorage.removeItemThrows st = false.

(** The field [highScore] holds what [loadHighScore] returns. *)
Definition agrees (hs : HighScore.t) : Prop :=
  (HighScore.loadHighScore (HighScore.storage hs)).1 = HighScore.highScore hs.

(** An item of the form [numeral:hash] that [loadHighScore] refuses: the
    numeral is no number, or the hash is not that of the number. *)
Definition refused (item : option string) : Prop :=
  ∃ stored part0 hash,
    item = Some stored ∧ split_colon stored = [part0; hash] ∧
    (parseInt part0 = None ∨
     ∃ read, parseInt part0 = Some read ∧ HighScore.generateScoreHash read ≠ hash).

(** A horizontal line of [n] cells and the full square of side [n]. *)
Definition lineShape (n : nat) : list (list nat) := [replicate n 1].
Definition squareShape (n : nat) : list (list nat) := replicate n (replicate n 1).

(** The half-open interval of [Math.random()] values mapped to index [k]
    of a table of [n] entries when the product is taken over the
    rationals. *)
Definition drawInterval (n k : nat) (u : Q) : Prop :=
  (inject_Z (Z.of_nat k) / inject_Z (Z.of_nat n) <= u)%Q ∧
  (u < (inject_Z (Z.of_nat k) + 1) / inject_Z (Z.of_nat n))%Q.

(** JavaScript rounds the product [Math.random() * n] to the nearest
    double before [Math.floor] sees it. The rounding moves a product
    below 32 by at most [2^-49] and never across an integer from above
    (integers are doubles), so it can only raise the index, and only of
    a draw less than [2^-49 / n] below a multiple of [1 / n].
    [drawCore n k] are the draws of the interval of index [k] that stay
    [2^-50] away from its upper end, [drawHull n k] is that interval
    widened by [2^-50] at its lower end: statements made with them do
    not depend on the rounding. *)
Definition roundingMargin : Q := 1 # (2 ^ 50).

Definition drawCore (n k : nat) (u : Q) : Prop :=
  (inject_Z (Z.of_nat k) / inject_Z (Z.of_nat n) <= u)%Q ∧
  (u <= (inject_Z (Z.of_nat k) + 1) / inject_Z (Z.of_nat n) - roundingMargin)%Q.

Definition drawHull (n k : nat) (u : Q) : Prop :=
  (inject_Z (Z.of_nat k) / inject_Z (Z.of_nat n) - roundingMargin <= u)%Q ∧
  (u < (inject_Z (Z.of_nat k) + 1) / inject_Z (Z.of_nat n))%Q.

(* ===================================================================== *)
(** ** Sample values                                                       *)
(* ===================================================================== *)

(** [new Piece('lShape4')] *)
Definition piece_lShape4 : Piece.t :=
  {| Piece.type := "lShape4"; Piece.shape := [[0; 0; 1]; [1; 1; 1]];
     Piece.color := "#FF8C00"; Piece.rows := 2; Piece.cols := 3 |}.

(** A board whose first row and first column are full, in two colours. *)
Definition grid_row0_col0 : Grid.t :=
  {| Grid.size := 8;
     Grid.state :=
       replicate 8 (Some "#00D4FF")
       :: replicate 7 (Some "#FFD700" :: replicate 7 None) |}.

(** [new Piece('line3h')], [new Piece('line3v')], [new Piece('square2')] *)
Definition piece_line3h : Piece.t :=
  {| Piece.type := "line3h"; Piece.shape := [[1; 1; 1]];
     Piece.color := "#00D4FF"; Piece.rows := 1; Piece.cols := 3 |}.

Definition piece_line3v : Piece.t :=
  {| Piece.type := "line3v"; Piece.shape := [[1]; [1]; [1]];
     Piece.color := "#00D4FF"; Piece.rows := 3; Piece.cols := 1 |}.

Definition piece_square2 : Piece.t :=
  {| Piece.type := "square2"; Piece.shape := [[1; 1]; [1; 1]];
     Piece.color := "#FFD700"; Piece.rows := 2; Piece.cols := 2 |}.

(** A board with the single cell (0, 0) filled. *)
Definition grid_corner : Grid.t :=
  {| Grid.size := 8;
     Grid.state := (Some "#FFD700" :: replicate 7 None) :: replicate 7 (replicate 8 None) |}.

(** A board on which the cells (0, 0), (1, 0) and (2, 0) are all that
    row 0 and column 0 lack. *)
Definition grid_cross_open : Grid.t :=
  {| Grid.size := 8;
     Grid.state :=
       (None :: replicate 7 (Some "#FF5252"))
       :: replicate 2 (replicate 8 None)
       ++ replicate 5 (Some "#FF5252" :: replicate 7 None) |}.

(** Three draws of [Math.random()]. *)
Definition draws_sample : draws := {| draw1 := 1 # 2; draw2 := 0; draw3 := 17 # 18 |}.

(** A game in progress on [grid_corner]. *)
Definition game_corner : Game.t :=
  {| Game.grid := grid_corner; Game.score := 0;
     Game.trayPieces := [Some piece_line3h; Some piece_square2; None];
     Game.isAnimating := false; Game.isGameOver := false |}.

(** A game in progress on [grid_cross_open], one piece left in the tray. *)
Definition game_cross : Game.t :=
  {| Game.grid := grid_cross_open; Game.score := 0;
     Game.trayPieces := [None; Some piece_line3v; None];
     Game.isAnimating := false; Game.isGameOver := false |}.

(** A drag of the first tray piece of [game_corner]. *)
Definition drag_corner : DragController.t :=
  {| DragController.isDragging := true;
     DragController.draggedPiece := Some piece_line3h;
     DragController.draggedPieceIndex := Some 0;
     DragController.lastGridPos := None |}.

(** [new Piece('line4h')] *)
Definition piece_line4h : Piece.t :=
  {| Piece.type := "line4h"; Piece.shape := [[1; 1; 1; 1]];
     Piece.color := "#00D4FF"; Piece.rows := 1; Piece.cols := 4 |}.

(** A new game whose first tray holds a lying line of 4, a square and a
    standing line of 3. *)
Definition game_start : Game.t :=
  {| Game.grid := Grid.new 8; Game.score := 0;
     Game.trayPieces := [Some piece_line4h; Some piece_square2; Some piece_line3v];
     Game.isAnimating := false; Game.isGameOver := false |}.

(** A game whose row 0 lacks its last cell only. *)
Definition game_row0_open : Game.t :=
  {| Game.grid :=
       {| Grid.size := 8;
          Grid.state := (replicate 7 (Some "#B388FF") ++ [None])%list
                        :: replicate 7 (replicate 8 None) |};
     Game.score := 0;
     Game.trayPieces := [Some piece_line3v; Some piece_square2; None];
     Game.isAnimating := false; Game.isGameOver := false |}.

(** A game on a board whose only empty cells are those of the diagonal,
    with one square left in the tray. *)
Definition game_stuck : Game.t :=
  {| Game.grid :=
       {| Grid.size := 8;
          Grid.state := (fun i => <[i := None]> (replicate 8 (Some "#FF8C00"))) <$> seq 0 8 |};
     Game.score := 1270;
     Game.trayPieces := [None; Some piece_square2; None];
     Game.isAnimating := false; Game.isGameOver := true |}.

(** Draws that fill the tray with three lying lines of 4, and the game
    that [new Game()] makes of them. *)
Definition draws_line4h : draws := {| draw1 := 1 # 12; draw2 := 1 # 12; draw3 := 1 # 12 |}.

Definition game_lines : Game.t :=
  {| Game.grid := Grid.new 8; Game.score := 0;
     Game.trayPieces := [Some piece_line4h; Some piece_line4h; Some piece_line4h];
     Game.isAnimating := false; Game.isGameOver := false |}.

(** Three runs of the page. The first line is dropped at (0, 0), its
    placement ends, and the second line is picked up. Dropped at (0, 4)
    the second line completes row 0: either the two timeouts of the
    placement follow, or the first of them, then New Game, then the
    second. *)
Definition events_first_line : list Async.event :=
  [Async.PointerDown (Some 0); Async.PointerUp (Some (0, 0)%Z);
   Async.Timeout 0 draws_sample;
   Async.PointerDown (Some 1)].

Definition events_line_cleared : list Async.event :=
  (events_first_line ++
   [Async.PointerUp (Some (0, 4)%Z);
    Async.Timeout 0 draws_sample; Async.Timeout 0 draws_sample])%list.

Definition events_restart_midway : list Async.event :=
  (events_first_line ++
   [Async.PointerUp (Some (0, 4)%Z);
    Async.Timeout 0 draws_sample;
    Async.NewGame draws_sample;
    Async.Timeout 0 draws_sample])%list.

(** A high score as the game stored it, and the same item with the
    numeral raised by hand. *)
Definition item_2030 : option string := Some "2030:1qpei78".
Definition item_tampered : option string := Some "9999:1qpei78".

(** A storage that works, holding the item raised by hand; and a full
    one, whose [setItem] throws, holding the item as stored. *)
Definition storage_tampered : LocalStorage.t :=
  {| LocalStorage.item := item_tampered; LocalStorage.getItemThrows := false;
     LocalStorage.setItemThrows := false; LocalStorage.removeItemThrows := false |}.

Definition storage_full : LocalStorage.t :=
  {| LocalStorage.item := item_2030; LocalStorage.getItemThrows := false;
     LocalStorage.setItemThrows := true; LocalStorage.removeItemThrows := false |}.

(* ===================================================================== *)
(** ** Loops and indexing                                                  *)
(* ===================================================================== *)

Lemma elem_of_upto (n i : nat) : i ∈ upto n ↔ i < n.
Proof. unfold upto. rewrite elem_of_seq. lia. Qed.

Lemma elem_of_upto_incl (hi z : Z) : z ∈ upto_incl hi ↔ (0 ≤ z ≤ hi)%Z.
Proof.
  unfold upto_incl. rewrite list_elem_of_fmap. split.
  - intros (n & -> & Hn). apply elem_of_seq in Hn. lia.
  - intros Hz. exists (Z.to_nat z). split; [lia|]. apply elem_of_seq. lia.
Qed.

Lemma elemAt_Some {A} (a : list A) (i : Z) (x : A) :
  elemAt a i = Some x ↔ (0 ≤ i)%Z ∧ a !! Z.to_nat i = Some x.
Proof.
  unfold elemAt. destruct (Z.ltb_spec i 0); split; try (intros [? ?]); try lia; auto.
  discriminate.
Qed.

Lemma elemAt_of_nat {A} (a : list A) (n : nat) : elemAt a (Z.of_nat n) = a !! n.
Proof.
  unfold elemAt. destruct (Z.ltb_spec (Z.of_nat n) 0); [lia|]. by rewrite Nat2Z.id.
Qed.

Lemma forallb_elem_of {A} (f : A → bool) (l : list A) :
  forallb f l = true ↔ ∀ x, x ∈ l → f x = true.
Proof.
  rewrite forallb_forall. split; intros H x Hx; apply H; by apply list_elem_of_In.
Qed.

Lemma existsb_elem_of {A} (f : A → bool) (l : list A) :
  existsb f l = true ↔ ∃ x, x ∈ l ∧ f x = true.
Proof.
  rewrite existsb_exists. split; intros (x & Hx & Hf); exists x; split; auto;
    by apply list_elem_of_In.
Qed.

Lemma elem_of_flat_map {A B} (f : A → list B) (l : list A) (y : B) :
  y ∈ flat_map f l ↔ ∃ x, x ∈ l ∧ y ∈ f x.
Proof.
  rewrite list_elem_of_In, in_flat_map. split; intros (x & Hx & Hy); exists x;
    split; by apply list_elem_of_In.
Qed.

(* ===================================================================== *)
(** ** Piece                                                               *)
(* ===================================================================== *)

Lemma getFilledCells_spec (p : Piece.t) (dr dc : nat) :
  (dr, dc) ∈ Piece.getFilledCells p ↔
  dr < Piece.rows p ∧ dc < Piece.cols p ∧ Piece.isOn p dr dc = true.
Proof.
  unfold Piece.getFilledCells. rewrite elem_of_flat_map. split.
  - intros (row & Hrow & Hin). apply elem_of_flat_map in Hin as (col & Hcol & Hin).
    apply elem_of_upto in Hrow, Hcol.
    destruct (Piece.isOn p row col) eqn:Hon.
    + apply list_elem_of_singleton in Hin. by inversion Hin; subst.
    + by apply elem_of_nil in Hin.
  - intros (Hr & Hc & Hon). exists dr. split; [by apply elem_of_upto|].
    apply elem_of_flat_map. exists dc. split; [by apply elem_of_upto|].
    rewrite Hon. by apply list_elem_of_singleton.
Qed.

(** The sample pieces are what the constructor builds. *)
Lemma sample_pieces_constructed :
  Piece.new "line3h" = Some piece_line3h ∧ Piece.new "line4h" = Some piece_line4h ∧
  Piece.new "line3v" = Some piece_line3v ∧ Piece.new "square2" = Some piece_square2 ∧
  Piece.new "lShape4" = Some piece_lShape4.
Proof. by repeat split. Qed.

(* ===================================================================== *)
(** ** Grid: cells, bounds and assignments                                 *)
(* ===================================================================== *)

Lemma isValidCell_spec (g : Grid.t) (row col : Z) :
  Grid.isValidCell g row col = true ↔
  (0 ≤ row < Z.of_nat (Grid.size g))%Z ∧ (0 ≤ col < Z.of_nat (Grid.size g))%Z.
Proof.
  unfold Grid.isValidCell. rewrite !andb_true_iff, !Z.leb_le, !Z.ltb_lt. lia.
Qed.

Lemma isNull_spec (v : option (option string)) : Grid.isNull v = true ↔ v = Some None.
Proof. destruct v as [[?|]|]; simpl; split; congruence. Qed.

Lemma cellAt_Some (g : Grid.t) (row col : Z) (v : option string) :
  Grid.cellAt g row col = Some v ↔
  (0 ≤ row)%Z ∧ (0 ≤ col)%Z ∧
  ∃ line, Grid.state g !! Z.to_nat row = Some line ∧ line !! Z.to_nat col = Some v.
Proof.
  unfold Grid.cellAt. split.
  - intros H. apply bind_Some in H as (line & Hl & Hc).
    apply elemAt_Some in Hl as [? ?], Hc as [? ?]. eauto.
  - intros (Hr & Hc & line & Hl & Hv). apply bind_Some. exists line.
    split; by apply elemAt_Some.
Qed.

Lemma wf_new (n : nat) : Grid.wf (Grid.new n).
Proof.
  unfold Grid.wf, Grid.new, Grid.createEmptyState; simpl. split.
  - by rewrite length_replicate.
  - apply Forall_replicate. by rewrite length_replicate.
Qed.

Lemma wf_reset (g : Grid.t) : Grid.wf (Grid.reset g).
Proof. apply (wf_new (Grid.size g)). Qed.

Lemma wf_line (g : Grid.t) (i : nat) (line : list (option string)) :
  Grid.wf g → Grid.state g !! i = Some line → length line = Grid.size g.
Proof.
  intros [_ Hall] Hl. rewrite Forall_forall in Hall. apply Hall.
  eapply list_elem_of_lookup_2; eauto.
Qed.

(** Inside the bounds of a well-formed grid every cell exists. *)
Lemma wf_cellAt (g : Grid.t) (row col : Z) :
  Grid.wf g → Grid.isValidCell g row col = true → is_Some (Grid.cellAt g row col).
Proof.
  intros Hwf Hv. apply isValidCell_spec in Hv as [Hr Hc].
  destruct (lookup_lt_is_Some_2 (Grid.state g) (Z.to_nat row)) as [line Hl].
  { destruct Hwf as [-> _]. lia. }
  pose proof (wf_line _ _ _ Hwf Hl) as Hlen.
  destruct (lookup_lt_is_Some_2 line (Z.to_nat col)) as [v Hv]; [lia|].
  exists v. apply cellAt_Some. eauto 6 with lia.
Qed.

(** An assignment succeeds exactly on the cells that exist. *)
Lemma assign_is_Some (g : Grid.t) (row col : Z) (v : option string) :
  is_Some (Grid.assign g row col v) ↔ is_Some (Grid.cellAt g row col).
Proof.
  unfold Grid.assign, Grid.cellAt. destruct (elemAt (Grid.state g) row) as [line|]; simpl.
  - case_bool_decide as Hc.
    + split; intros _; [|eauto]. unfold elemAt.
      destruct (Z.ltb_spec col 0); [lia|]. apply lookup_lt_is_Some_2. lia.
    + split; intros [x Hx]; [discriminate|]. apply elemAt_Some in Hx as [? Hx].
      apply lookup_lt_Some in Hx. lia.
  - split; intros [x Hx]; discriminate.
Qed.

Lemma elemAt_insert {A} (l : list A) (n : nat) (x : A) (i : Z) :
  n < length l →
  elemAt (<[n := x]> l) i = if bool_decide (i = Z.of_nat n) then Some x else elemAt l i.
Proof.
  intros Hn. unfold elemAt. destruct (Z.ltb_spec i 0) as [Hi|Hi].
  - rewrite bool_decide_false; [done|lia].
  - case_bool_decide as He.
    + subst i. rewrite Nat2Z.id. by apply list_lookup_insert_eq.
    + apply list_lookup_insert_ne. lia.
Qed.

(** What an assignment changes: one cell, nothing else. *)
Lemma assign_cellAt (g g' : Grid.t) (row col : Z) (v : option string) :
  Grid.assign g row col v = Some g' →
  Grid.size g' = Grid.size g ∧
  ∀ i j, Grid.cellAt g' i j =
         if bool_decide (i = row ∧ j = col) then Some v else Grid.cellAt g i j.
Proof.
  unfold Grid.assign. destruct (elemAt (Grid.state g) row) as [line|] eqn:Hl; [|discriminate].
  case_bool_decide as Hc; [|discriminate]. intros [= <-]. split; [done|].
  intros i j. unfold Grid.cellAt; simpl.
  pose proof Hl as Hl'. apply elemAt_Some in Hl' as [Hr Hl'].
  rewrite elemAt_insert by (by eapply lookup_lt_Some).
  destruct (decide (i = row)) as [->|Hne].
  - rewrite bool_decide_true by lia. rewrite Hl. simpl.
    rewrite elemAt_insert by lia.
    destruct (decide (j = col)) as [->|Hnc].
    + rewrite !bool_decide_true; [done|done|lia].
    + rewrite !bool_decide_false; [done|tauto|lia].
  - rewrite !bool_decide_false; [done|tauto|lia].
Qed.

Lemma assign_wf (g g' : Grid.t) (row col : Z) (v : option string) :
  Grid.wf g → Grid.assign g row col v = Some g' → Grid.wf g'.
Proof.
  unfold Grid.assign. intros Hwf. destruct (elemAt (Grid.state g) row) as [line|] eqn:Hl; [|discriminate].
  case_bool_decide; [|discriminate]. intros [= <-].
  apply elemAt_Some in Hl as [Hr Hl]. pose proof (wf_line _ _ _ Hwf Hl) as Hlen.
  destruct Hwf as [Hn Hall]. split; simpl.
  - by rewrite length_insert.
  - apply Forall_insert; [done|]. by rewrite length_insert.
Qed.

(** On a well-formed grid both guarded mutators complete, and keep the
    grid well-formed. *)
Lemma setCell_wf (g : Grid.t) (row col : Z) (color : string) :
  Grid.wf g → ∃ g', Grid.setCell g row col color = Some g' ∧ Grid.wf g' ∧
                    Grid.size g' = Grid.size g.
Proof.
  intros Hwf. unfold Grid.setCell. destruct (Grid.isValidCell g row col) eqn:Hv; [|eauto].
  destruct (proj2 (assign_is_Some g row col (Some color)) (wf_cellAt _ _ _ Hwf Hv)) as [g' Hg'].
  exists g'. split; [done|]. split; [by eapply assign_wf|by eapply assign_cellAt].
Qed.

Lemma clearCell_wf (g : Grid.t) (row col : Z) :
  Grid.wf g → ∃ g', Grid.clearCell g row col = Some g' ∧ Grid.wf g' ∧
                    Grid.size g' = Grid.size g.
Proof.
  intros Hwf. unfold Grid.clearCell. destruct (Grid.isValidCell g row col) eqn:Hv; [|eauto].
  destruct (proj2 (assign_is_Some g row col None) (wf_cellAt _ _ _ Hwf Hv)) as [g' Hg'].
  exists g'. split; [done|]. split; [by eapply assign_wf|by eapply assign_cellAt].
Qed.

(** What [canPlacePiece] has found of a target cell when it answers
    [true]. *)
Lemma canPlacePiece_cell (g : Grid.t) (p : Piece.t) (r c : Z) (dr dc : nat) :
  Grid.canPlacePiece g p r c = true → (dr, dc) ∈ Piece.getFilledCells p →
  Grid.isValidCell g (r + Z.of_nat dr) (c + Z.of_nat dc) = true ∧
  Grid.cellAt g (r + Z.of_nat dr) (c + Z.of_nat dc) = Some None.
Proof.
  unfold Grid.canPlacePiece. rewrite forallb_elem_of. intros Hall Hin.
  specialize (Hall _ Hin). cbn [fst snd] in Hall.
  apply andb_true_iff in Hall as [Hv Hn]. by apply isNull_spec in Hn.
Qed.

(** C1. For every piece and anchor, [canPlacePiece] answers [true]
    exactly when every filled offset of the piece lands on a cell that is
    inside the bounds of the grid and holds [null]. *)
Theorem canPlacePiece_iff (g : Grid.t) (p : Piece.t) (r c : Z) :
  Grid.canPlacePiece g p r c = true ↔
  ∀ dr dc : nat, (dr, dc) ∈ Piece.getFilledCells p →
    (0 ≤ r + Z.of_nat dr < Z.of_nat (Grid.size g))%Z ∧
    (0 ≤ c + Z.of_nat dc < Z.of_nat (Grid.size g))%Z ∧
    Grid.cellAt g (r + Z.of_nat dr) (c + Z.of_nat dc) = Some None.
Proof.
  unfold Grid.canPlacePiece. rewrite forallb_elem_of. split.
  - intros H dr dc Hin. specialize (H _ Hin). simpl in H.
    apply andb_true_iff in H as [Hv Hn].
    apply isValidCell_spec in Hv. apply isNull_spec in Hn. tauto.
  - intros H [dr dc] Hin. destruct (H _ _ Hin) as (Hr & Hc & Hn). simpl.
    apply andb_true_iff. split; [by apply isValidCell_spec|by apply isNull_spec].
Qed.

(** C10. For every integer row and column, [setCell] and [clearCell]
    complete on a well-formed grid, and outside the bounds they return the
    grid unchanged: no assignment is attempted there. *)
Theorem setCell_clearCell_total (g : Grid.t) (row col : Z) (color : string) :
  Grid.wf g →
  ∃ g1 g2, Grid.setCell g row col color = Some g1 ∧
           Grid.clearCell g row col = Some g2 ∧
           Grid.wf g1 ∧ Grid.wf g2 ∧
           (Grid.isValidCell g row col = false → g1 = g ∧ g2 = g).
Proof.
  intros Hwf.
  destruct (setCell_wf g row col color Hwf) as (g1 & H1 & Hwf1 & _).
  destruct (clearCell_wf g row col Hwf) as (g2 & H2 & Hwf2 & _).
  exists g1, g2. do 4 (split; [done|]). intros Hout.
  unfold Grid.setCell in H1. unfold Grid.clearCell in H2.
  rewrite Hout in H1, H2. split; congruence.
Qed.

Lemma setCell_clearCell_total_witness :
  ∃ g1 g2, Grid.setCell (Grid.new 8) (-1) 8 "#FFD700" = Some g1 ∧
           Grid.clearCell (Grid.new 8) (-1) 8 = Some g2 ∧
           Grid.wf g1 ∧ Grid.wf g2 ∧
           (Grid.isValidCell (Grid.new 8) (-1) 8 = false →
            g1 = Grid.new 8 ∧ g2 = Grid.new 8).
Proof. apply (setCell_clearCell_total (Grid.new 8) (-1) 8 "#FFD700"), wf_new. Defined.

(* ===================================================================== *)
(** ** The catalogue and the random draw                                   *)
(* ===================================================================== *)

Lemma Qfloor_scaled_iff (n k : nat) (u : Q) :
  0 < n →
  Qfloor (u * inject_Z (Z.of_nat n)) = Z.of_nat k ↔ drawInterval n k u.
Proof.
  intros Hn. unfold drawInterval.
  assert (Hpos : (0 < inject_Z (Z.of_nat n))%Q).
  { change 0%Q with (inject_Z 0). rewrite <- Zlt_Qlt. lia. }
  set (N := inject_Z (Z.of_nat n)) in *.
  assert (HL : (inject_Z (Z.of_nat k) / N <= u)%Q ↔ (inject_Z (Z.of_nat k) <= u * N)%Q).
  { split; intros H.
    - apply (Qmult_le_r _ _ N Hpos) in H. revert H. unfold Qdiv.
      rewrite <- Qmult_assoc, (Qmult_comm (/ N)), Qmult_inv_r, Qmult_1_r; [done|].
      intros E. rewrite E in Hpos. by apply Qlt_irrefl in Hpos.
    - by apply Qle_shift_div_r. }
  assert (HR : (u < (inject_Z (Z.of_nat k) + 1) / N)%Q ↔ (u * N < inject_Z (Z.of_nat k) + 1)%Q).
  { split; intros H.
    - apply (Qmult_lt_r _ _ N Hpos) in H. revert H. unfold Qdiv.
      rewrite <- Qmult_assoc, (Qmult_comm (/ N)), Qmult_inv_r, Qmult_1_r; [done|].
      intros E. rewrite E in Hpos. by apply Qlt_irrefl in Hpos.
    - by apply Qlt_shift_div_l. }
  rewrite HL, HR. split.
  - intros <-. split; [apply Qfloor_le|].
    pose proof (Qlt_floor (u * N)) as H. by rewrite inject_Z_plus in H.
  - intros [Hlo Hhi]. apply Z.le_antisymm.
    + apply Z.lt_succ_r. rewrite Zlt_Qlt. eapply Qle_lt_trans; [apply Qfloor_le|].
      unfold Z.succ. by rewrite inject_Z_plus.
    + apply Qfloor_resp_le in Hlo. by rewrite Qfloor_Z in Hlo.
Qed.

Lemma new_type (ty : string) (p : Piece.t) : Piece.new ty = Some p → Piece.type p = ty.
Proof.
  unfold Piece.new. destruct (lookup_definition ty PIECE_DEFINITIONS) as [d|]; [|discriminate].
  destruct (def_shape d); [discriminate|]. by intros [= <-].
Qed.

Lemma PIECE_TYPES_NoDup : NoDup PIECE_TYPES.
Proof. apply (bool_decide_unpack _). by vm_compute. Qed.

Lemma cataloguePieces_lookup (k : nat) (p : Piece.t) :
  cataloguePieces !! k = Some (Some p) ↔
  ∃ ty, PIECE_TYPES !! k = Some ty ∧ Piece.new ty = Some p.
Proof.
  unfold cataloguePieces. rewrite list_lookup_fmap.
  destruct (PIECE_TYPES !! k) as [ty|]; simpl; split.
  - intros [= H]. eauto.
  - intros (ty' & [= <-] & H). by rewrite H.
  - discriminate.
  - intros (? & ? & ?). discriminate.
Qed.

(** Which draws produce the [k]-th piece of the table. *)
Lemma createRandom_interval (k : nat) (p : Piece.t) (u : Q) :
  cataloguePieces !! k = Some (Some p) →
  Piece.createRandom u = Some p ↔ drawInterval (length PIECE_TYPES) k u.
Proof.
  intros Hk. apply cataloguePieces_lookup in Hk as (ty & Hty & Hnew).
  rewrite <- Qfloor_scaled_iff by (vm_compute; lia).
  unfold Piece.createRandom.
  set (z := Qfloor (u * inject_Z (Z.of_nat (length PIECE_TYPES)))). split.
  - destruct (elemAt PIECE_TYPES z) as [ty'|] eqn:Hz; [|discriminate].
    intros Hnew'. apply elemAt_Some in Hz as [Hz0 Hz].
    apply new_type in Hnew, Hnew'. subst ty ty'.
    pose proof (NoDup_lookup _ _ _ _ PIECE_TYPES_NoDup Hz Hty). lia.
  - intros ->. by rewrite elemAt_of_nat, Hty.
Qed.

(** Every draw in [0, 1) yields a piece of the table. *)
Lemma createRandom_total (u : Q) :
  (0 <= u)%Q → (u < 1)%Q →
  ∃ k p, cataloguePieces !! k = Some (Some p) ∧ Piece.createRandom u = Some p.
Proof.
  intros H0 H1.
  set (N := inject_Z (Z.of_nat (length PIECE_TYPES))).
  set (z := Qfloor (u * N)).
  assert (Hz0 : (0 ≤ z)%Z).
  { change 0%Z with (Qfloor (inject_Z 0)). apply Qfloor_resp_le.
    apply Qmult_le_0_compat; [done|]. by vm_compute. }
  assert (Hz1 : (z < Z.of_nat (length PIECE_TYPES))%Z).
  { rewrite Zlt_Qlt. eapply Qle_lt_trans; [apply Qfloor_le|]. fold N.
    rewrite <- (Qmult_1_l N) at 2. apply Qmult_lt_r; [by vm_compute|done]. }
  destruct (lookup_lt_is_Some_2 cataloguePieces (Z.to_nat z)) as [op Hop].
  { unfold cataloguePieces. rewrite length_fmap. lia. }
  assert (Hall : Forall is_Some cataloguePieces).
  { apply (bool_decide_unpack _). by vm_compute. }
  rewrite Forall_lookup in Hall. destruct (Hall _ _ Hop) as [p ->].
  exists (Z.to_nat z), p. split; [done|].
  apply (createRandom_interval _ _ _ Hop). apply Qfloor_scaled_iff; [vm_compute; lia|].
  fold N z. lia.
Qed.

(** C3 as the claim has it: the table would hold 20 shapes. It holds 18. *)
Lemma catalogue_has_not_20_shapes : length PIECE_DEFINITIONS ≠ 20.
Proof. by vm_compute. Qed.

(** The draws of [drawCore] and [drawHull] against the interval of the
    exact product. *)
Lemma drawCore_interval (n k : nat) (u : Q) : drawCore n k u → drawInterval n k u.
Proof.
  unfold drawCore, drawInterval, roundingMargin. intros [Hlo Hhi]. split; [done|].
  eapply Qle_lt_trans; [exact Hhi|].
  rewrite <- (Qplus_0_r ((inject_Z (Z.of_nat k) + 1) / inject_Z (Z.of_nat n))) at 2.
  unfold Qminus. apply Qplus_lt_r. by vm_compute.
Qed.

Lemma drawInterval_hull (n k : nat) (u : Q) : drawInterval n k u → drawHull n k u.
Proof.
  unfold drawHull, drawInterval, roundingMargin. intros [Hlo Hhi]. split; [|done].
  eapply Qle_trans; [|exact Hlo].
  rewrite <- (Qplus_0_r (inject_Z (Z.of_nat k) / inject_Z (Z.of_nat n))) at 2.
  unfold Qminus. apply Qplus_le_r. by vm_compute.
Qed.

(** The middle of the interval of an entry is a draw of its core. *)
Lemma drawCore_valid (k : nat) :
  k < length cataloguePieces →
  let u := ((2 * inject_Z (Z.of_nat k) + 1) / 36)%Q in
  drawCore 18 k u ∧ (0 <= u)%Q ∧ (u < 1)%Q.
Proof.
  intros Hk. change (length cataloguePieces) with 18 in Hk.
  assert (Hc : k ∈ seq 0 18) by (apply elem_of_seq; lia).
  revert Hc. generalize k. apply Forall_forall.
  repeat constructor; unfold Qle, Qlt; simpl; lia.
Qed.

(** C3, amended. The catalogue holds exactly 18 shapes: the lines of 3 and
    4 cells lying and standing, the squares of side 2 and 3, the four
    quarter turns of the L and of the T, the two of the Z and of the S
    (a half turn maps these two onto themselves); all 18 differ.
    [createRandom] returns a piece of this table for every draw of
    [Math.random()], and every entry for some draw. The [k]-th entry is
    returned for every draw from [k/18] to [(k+1)/18 - 2^-50], and for no
    draw below [k/18 - 2^-50] or from [(k+1)/18] on: the 18 entries have
    intervals of one length, up to the rounding of the product, so a
    uniform draw selects uniformly up to that rounding. *)
Theorem catalogue_and_createRandom :
  length PIECE_DEFINITIONS = 18 ∧
  (let L := [[1; 0]; [1; 0]; [1; 1]] in
   let T := [[1; 1; 1]; [0; 1; 0]] in
   let Z := [[1; 1; 0]; [0; 1; 1]] in
   let S := [[0; 1; 1]; [1; 1; 0]] in
   catalogueShapes =
     [ lineShape 3; lineShape 4; quarterTurn (lineShape 3); quarterTurn (lineShape 4);
       squareShape 2; squareShape 3;
       L; quarterTurn L; quarterTurn (quarterTurn L);
       quarterTurn (quarterTurn (quarterTurn L));
       T; quarterTurn T; quarterTurn (quarterTurn T);
       quarterTurn (quarterTurn (quarterTurn T));
       Z; quarterTurn Z; S; quarterTurn S ] ∧
   quarterTurn (quarterTurn Z) = Z ∧ quarterTurn (quarterTurn S) = S) ∧
  NoDup catalogueShapes ∧
  (∀ u, (0 <= u)%Q → (u < 1)%Q →
        ∃ k p, cataloguePieces !! k = Some (Some p) ∧ Piece.createRandom u = Some p) ∧
  (∀ k p, cataloguePieces !! k = Some (Some p) →
          ∃ u, (0 <= u)%Q ∧ (u < 1)%Q ∧ Piece.createRandom u = Some p) ∧
  (∀ k p u, cataloguePieces !! k = Some (Some p) →
            (drawCore 18 k u → Piece.createRandom u = Some p) ∧
            (Piece.createRandom u = Some p → drawHull 18 k u)).
Proof.
  split; [done|]. split; [done|]. split.
  { apply (bool_decide_unpack _). by vm_compute. }
  split; [apply createRandom_total|]. split.
  - intros k p Hk. pose proof (drawCore_valid k (lookup_lt_Some _ _ _ Hk)) as (Hc & H0 & H1).
    eexists. split; [exact H0|]. split; [exact H1|].
    apply (createRandom_interval _ _ _ Hk). by apply drawCore_interval.
  - intros k p u Hk. split; intros H.
    + apply (createRandom_interval _ _ _ Hk). by apply drawCore_interval.
    + apply drawInterval_hull. by apply (createRandom_interval _ _ _ Hk).
Qed.

Lemma catalogue_and_createRandom_witness :
  cataloguePieces !! 9 = Some (Some piece_lShape4) ∧
  drawCore 18 9 (1 # 2) ∧
  Piece.createRandom (1 # 2) = Some piece_lShape4.
Proof.
  assert (Hk : cataloguePieces !! 9 = Some (Some piece_lShape4)) by reflexivity.
  assert (Hu : drawCore 18 9 (1 # 2)).
  { split; unfold Qle; simpl; lia. }
  split; [exact Hk|]. split; [exact Hu|].
  exact (proj1 (proj2 (proj2 (proj2 (proj2 (proj2 catalogue_and_createRandom))))
                  9 piece_lShape4 (1 # 2) Hk) Hu).
Defined.

(* ===================================================================== *)
(** ** Filling the cells of a piece                                        *)
(* ===================================================================== *)

Lemma elem_of_placedCells (r c i j : Z) (cells : list (nat * nat)) :
  (i, j) ∈ Game.placedCells r c cells ↔
  ∃ dr dc : nat, (dr, dc) ∈ cells ∧ i = (r + Z.of_nat dr)%Z ∧ j = (c + Z.of_nat dc)%Z.
Proof.
  unfold Game.placedCells. rewrite list_elem_of_fmap. split.
  - intros ([dr dc] & [= -> ->] & Hin). eauto.
  - intros (dr & dc & Hin & -> & ->). by exists (dr, dc).
Qed.

(** The loop on a well-formed grid: it completes whatever the anchor. *)
Lemma fillCells_wf (cells : list (nat * nat)) (g : Grid.t) (color : string) (r c : Z) :
  Grid.wf g →
  ∃ g', Game.fillCells g color r c cells = Some g' ∧ Grid.wf g' ∧ Grid.size g' = Grid.size g.
Proof.
  revert g. induction cells as [|cell rest IH]; intros g Hwf; simpl; [eauto|].
  destruct (setCell_wf g (r + Z.of_nat cell.1) (c + Z.of_nat cell.2) color Hwf)
    as (g1 & -> & Hwf1 & Hsz1).
  destruct (IH g1 Hwf1) as (g' & Hg' & Hwf' & Hsz'). exists g'. split; [done|].
  split; [done|congruence].
Qed.

(** The loop when every target cell exists and is inside the bounds. *)
Lemma fillCells_cellAt (cells : list (nat * nat)) (g : Grid.t) (color : string) (r c : Z) :
  (∀ i j, (i, j) ∈ Game.placedCells r c cells →
          Grid.isValidCell g i j = true ∧ is_Some (Grid.cellAt g i j)) →
  ∃ g', Game.fillCells g color r c cells = Some g' ∧
        Grid.size g' = Grid.size g ∧
        ∀ i j, Grid.cellAt g' i j =
               if bool_decide ((i, j) ∈ Game.placedCells r c cells)
               then Some (Some color) else Grid.cellAt g i j.
Proof.
  revert g. induction cells as [|cell rest IH]; intros g Hcells; cbn [Game.fillCells].
  { exists g. split; [done|]. split; [done|]. intros i j.
    rewrite bool_decide_false; [done|]. apply not_elem_of_nil. }
  set (tr := (r + Z.of_nat cell.1)%Z). set (tc := (c + Z.of_nat cell.2)%Z).
  destruct (Hcells tr tc) as [Hv Hex]; [by left|].
  unfold Grid.setCell. rewrite Hv.
  destruct (proj2 (assign_is_Some g tr tc (Some color)) Hex) as [g1 Hg1].
  rewrite Hg1. destruct (assign_cellAt _ _ _ _ _ Hg1) as [Hsz1 Hat1].
  destruct (IH g1) as (g' & Hg' & Hsz' & Hat').
  { intros i j Hin. destruct (Hcells i j) as [Hv' Hex']; [by right|]. split.
    - revert Hv'. unfold Grid.isValidCell. by rewrite Hsz1.
    - rewrite Hat1. case_bool_decide; eauto. }
  exists g'. split; [done|]. split; [congruence|]. intros i j.
  rewrite Hat', Hat1. fold tr tc.
  destruct (decide ((i, j) ∈ Game.placedCells r c rest)) as [Hin|Hnin].
  - rewrite !bool_decide_true; [done| |done]. by right.
  - rewrite (bool_decide_false _ Hnin). destruct (decide (i = tr ∧ j = tc)) as [[-> ->]|Hne].
    + rewrite !bool_decide_true; [done|by left|done].
    + rewrite !bool_decide_false; [done| |done].
      intros Hin. apply elem_of_cons in Hin as [[= -> ->]|Hin]; tauto.
Qed.

(** C8. When [canPlacePiece] holds, the filling loop of [placePiece]
    completes; afterwards exactly the cells [(r + dr, c + dc)] of the
    filled offsets hold the colour of the piece, and every other cell
    reads as before. *)
Theorem fillCells_exact (g : Grid.t) (p : Piece.t) (r c : Z) :
  Grid.canPlacePiece g p r c = true →
  ∃ g', Game.fillCells g (Piece.color p) r c (Piece.getFilledCells p) = Some g' ∧
        Grid.size g' = Grid.size g ∧
        (∀ dr dc : nat, (dr, dc) ∈ Piece.getFilledCells p →
           Grid.cellAt g' (r + Z.of_nat dr) (c + Z.of_nat dc) = Some (Some (Piece.color p))) ∧
        (∀ i j : Z,
           (∀ dr dc : nat, (dr, dc) ∈ Piece.getFilledCells p →
              ¬ (i = (r + Z.of_nat dr)%Z ∧ j = (c + Z.of_nat dc)%Z)) →
           Grid.cellAt g' i j = Grid.cellAt g i j).
Proof.
  intros Hcan.
  destruct (fillCells_cellAt (Piece.getFilledCells p) g (Piece.color p) r c)
    as (g' & Hg' & Hsz & Hat).
  { intros i j Hin. apply elem_of_placedCells in Hin as (dr & dc & Hin & -> & ->).
    destruct (canPlacePiece_cell g p r c dr dc Hcan Hin) as [Hv Hn]. split; [done|].
    rewrite Hn. eauto. }
  exists g'. split; [done|]. split; [done|]. split.
  - intros dr dc Hin. rewrite Hat, bool_decide_true; [done|].
    apply elem_of_placedCells. eauto.
  - intros i j Hout. rewrite Hat, bool_decide_false; [done|].
    intros Hin. apply elem_of_placedCells in Hin as (dr & dc & Hin & Hi & Hj).
    by apply (Hout dr dc).
Qed.

Lemma fillCells_exact_witness :
  Grid.canPlacePiece (Grid.new 8) piece_lShape4 3 5 = true ∧
  ∃ g', Game.fillCells (Grid.new 8) (Piece.color piece_lShape4) 3 5
          (Piece.getFilledCells piece_lShape4) = Some g' ∧
        Grid.size g' = Grid.size (Grid.new 8) ∧
        (∀ dr dc : nat, (dr, dc) ∈ Piece.getFilledCells piece_lShape4 →
           Grid.cellAt g' (3 + Z.of_nat dr) (5 + Z.of_nat dc)
           = Some (Some (Piece.color piece_lShape4))) ∧
        (∀ i j : Z,
           (∀ dr dc : nat, (dr, dc) ∈ Piece.getFilledCells piece_lShape4 →
              ¬ (i = (3 + Z.of_nat dr)%Z ∧ j = (5 + Z.of_nat dc)%Z)) →
           Grid.cellAt g' i j = Grid.cellAt (Grid.new 8) i j).
Proof.
  split; [reflexivity|].
  apply (fillCells_exact (Grid.new 8) piece_lShape4 3 5). reflexivity.
Defined.

(* ===================================================================== *)
(** ** Complete lines                                                      *)
(* ===================================================================== *)

Lemma elem_of_List_filter {A} (f : A → bool) (l : list A) (x : A) :
  x ∈ List.filter f l ↔ x ∈ l ∧ f x = true.
Proof. by rewrite !list_elem_of_In, filter_In. Qed.

Lemma StronglySorted_List_filter {A} (R : A → A → Prop) (f : A → bool) (l : list A) :
  StronglySorted R l → StronglySorted R (List.filter f l).
Proof.
  induction 1 as [|x l Hl IH Hx]; simpl; [constructor|].
  destruct (f x); [|done]. constructor; [done|].
  rewrite Forall_forall in Hx |- *. intros y Hy.
  apply elem_of_List_filter in Hy as [Hy _]. by apply Hx.
Qed.

Lemma StronglySorted_upto (n : nat) : StronglySorted lt (upto n).
Proof.
  unfold upto. generalize 0. induction n as [|n IH]; intros a; simpl; constructor.
  - apply IH.
  - apply Forall_forall. intros y Hy. apply elem_of_seq in Hy. lia.
Qed.

Lemma rowIsComplete_spec (g : Grid.t) (row : nat) :
  Grid.rowIsComplete g row = true ↔
  ∀ col, col < Grid.size g → Grid.isNull (Grid.cellAt g (Z.of_nat row) (Z.of_nat col)) = false.
Proof.
  unfold Grid.rowIsComplete. rewrite forallb_elem_of.
  split; intros H col Hcol.
  - apply negb_true_iff, H. by apply elem_of_upto.
  - apply negb_true_iff, H. by apply elem_of_upto.
Qed.

Lemma colIsComplete_spec (g : Grid.t) (col : nat) :
  Grid.colIsComplete g col = true ↔
  ∀ row, row < Grid.size g → Grid.isNull (Grid.cellAt g (Z.of_nat row) (Z.of_nat col)) = false.
Proof.
  unfold Grid.colIsComplete. rewrite forallb_elem_of.
  split; intros H row Hrow.
  - apply negb_true_iff, H. by apply elem_of_upto.
  - apply negb_true_iff, H. by apply elem_of_upto.
Qed.

Lemma elem_of_findCompleteRows (g : Grid.t) (row : nat) :
  row ∈ Grid.findCompleteRows g ↔
  row < Grid.size g ∧
  ∀ col, col < Grid.size g → Grid.isNull (Grid.cellAt g (Z.of_nat row) (Z.of_nat col)) = false.
Proof.
  unfold Grid.findCompleteRows.
  by rewrite elem_of_List_filter, elem_of_upto, rowIsComplete_spec.
Qed.

Lemma elem_of_findCompleteCols (g : Grid.t) (col : nat) :
  col ∈ Grid.findCompleteCols g ↔
  col < Grid.size g ∧
  ∀ row, row < Grid.size g → Grid.isNull (Grid.cellAt g (Z.of_nat row) (Z.of_nat col)) = false.
Proof.
  unfold Grid.findCompleteCols.
  by rewrite elem_of_List_filter, elem_of_upto, colIsComplete_spec.
Qed.

(** Inside a well-formed grid a cell that is not [null] holds a colour. *)
Lemma wf_not_null (g : Grid.t) (row col : nat) :
  Grid.wf g → row < Grid.size g → col < Grid.size g →
  Grid.isNull (Grid.cellAt g (Z.of_nat row) (Z.of_nat col)) = false ↔
  ∃ color, Grid.cellAt g (Z.of_nat row) (Z.of_nat col) = Some (Some color).
Proof.
  intros Hwf Hr Hc.
  destruct (wf_cellAt g (Z.of_nat row) (Z.of_nat col) Hwf) as [v Hv].
  { apply isValidCell_spec. lia. }
  rewrite Hv. destruct v as [color|]; simpl; split; eauto; try discriminate.
  intros [? ?]. discriminate.
Qed.

Lemma grid_row0_col0_wf : Grid.wf grid_row0_col0.
Proof. split; [reflexivity|]. repeat constructor. Qed.

Lemma forallb_pointwise {A} (f f' : A → bool) (l : list A) :
  (∀ x, f x = f' x) → forallb f l = forallb f' l.
Proof. intros H. induction l as [|x l IH]; simpl; [done|]. by rewrite H, IH. Qed.

(** The complete lines depend on which cells are [null] only. *)
Lemma findComplete_occupancy (g g' : Grid.t) :
  Grid.size g' = Grid.size g →
  (∀ i j, Grid.isNull (Grid.cellAt g' i j) = Grid.isNull (Grid.cellAt g i j)) →
  Grid.findCompleteRows g' = Grid.findCompleteRows g ∧
  Grid.findCompleteCols g' = Grid.findCompleteCols g.
Proof.
  intros Hsz Hocc.
  unfold Grid.findCompleteRows, Grid.findCompleteCols, Grid.rowIsComplete, Grid.colIsComplete.
  rewrite Hsz. split; apply List.filter_ext; intros k; apply forallb_pointwise; intros l;
    by rewrite Hocc.
Qed.

(** C9. On a well-formed grid [findCompleteRows] lists exactly the rows
    whose [size] cells all hold a colour, whichever colours these are,
    and [findCompleteCols] exactly the columns of that kind; both lists
    ascend, each answer is stated on the cells of its own lines alone, and
    neither depends on anything but which cells are [null]. *)
Theorem findComplete_spec (g : Grid.t) :
  Grid.wf g →
  (∀ row, row ∈ Grid.findCompleteRows g ↔
          row < Grid.size g ∧
          ∀ col, col < Grid.size g →
                 ∃ color, Grid.cellAt g (Z.of_nat row) (Z.of_nat col) = Some (Some color)) ∧
  (∀ col, col ∈ Grid.findCompleteCols g ↔
          col < Grid.size g ∧
          ∀ row, row < Grid.size g →
                 ∃ color, Grid.cellAt g (Z.of_nat row) (Z.of_nat col) = Some (Some color)) ∧
  StronglySorted lt (Grid.findCompleteRows g) ∧
  StronglySorted lt (Grid.findCompleteCols g) ∧
  (∀ g', Grid.size g' = Grid.size g →
         (∀ i j, Grid.isNull (Grid.cellAt g' i j) = Grid.isNull (Grid.cellAt g i j)) →
         Grid.findCompleteRows g' = Grid.findCompleteRows g ∧
         Grid.findCompleteCols g' = Grid.findCompleteCols g).
Proof.
  intros Hwf. split; [|split; [|split; [|split]]].
  - intros row. rewrite elem_of_findCompleteRows. split; intros [Hr H]; (split; [done|]);
      intros col Hc; by apply (wf_not_null g row col Hwf Hr Hc), H.
  - intros col. rewrite elem_of_findCompleteCols. split; intros [Hc H]; (split; [done|]);
      intros row Hr; by apply (wf_not_null g row col Hwf Hr Hc), H.
  - apply StronglySorted_List_filter, StronglySorted_upto.
  - apply StronglySorted_List_filter, StronglySorted_upto.
  - intros g'. apply findComplete_occupancy.
Qed.

Lemma findComplete_spec_witness :
  Grid.findCompleteRows grid_row0_col0 = [0] ∧
  Grid.findCompleteCols grid_row0_col0 = [0] ∧
  (0 ∈ Grid.findCompleteRows grid_row0_col0 ↔
   0 < Grid.size grid_row0_col0 ∧
   ∀ col, col < Grid.size grid_row0_col0 →
          ∃ color, Grid.cellAt grid_row0_col0 (Z.of_nat 0) (Z.of_nat col) = Some (Some color)).
Proof.
  split; [reflexivity|]. split; [reflexivity|].
  apply (proj1 (findComplete_spec grid_row0_col0 grid_row0_col0_wf) 0).
Defined.

(* ===================================================================== *)
(** ** Cells to clear                                                      *)
(* ===================================================================== *)

(** *** The keys: printing, splitting and reading back *)

Lemma split_comma_uint (d : Decimal.uint) :
  split_comma (NilEmpty.string_of_uint d) = [NilEmpty.string_of_uint d].
Proof. induction d; simpl; [done|by rewrite IHd..]. Qed.

Lemma split_comma_single (s : string) :
  split_comma s = [s] → ∀ s', split_comma (s +:+ String "," s') = s :: split_comma s'.
Proof.
  induction s as [|a s IH]; intros Hs s'; [done|].
  simpl in Hs |- *. destruct (Ascii.eqb a ","); [discriminate|].
  destruct (split_comma s) as [|hd tl] eqn:Hsp.
  - destruct s; [|discriminate]. simpl in Hsp. discriminate.
  - injection Hs as -> ->. by rewrite IH.
Qed.

Lemma Number_showNat (n : nat) : Number (showNat n) = Some n.
Proof.
  unfold Number, showNat. rewrite NilEmpty.usu. simpl.
  by rewrite DecimalNat.Unsigned.of_to.
Qed.

Lemma parseKey_cellKey (row col : nat) :
  Grid.parseKey (Grid.cellKey row col) = Some (row, col).
Proof.
  unfold Grid.parseKey, Grid.cellKey. change ("," +:+ showNat col) with (String "," (showNat col)).
  rewrite split_comma_single by apply split_comma_uint.
  unfold showNat at 2. rewrite split_comma_uint. fold (showNat col).
  simpl. by rewrite !Number_showNat.
Qed.

Lemma parseKey_keyOf (cell : nat * nat) : Grid.parseKey (keyOf cell) = Some cell.
Proof. destruct cell. apply parseKey_cellKey. Qed.

#[local] Instance keyOf_inj : Inj (=) (=) keyOf.
Proof.
  intros a b Hab. assert (H : Some a = Some b); [|by injection H].
  by rewrite <- !parseKey_keyOf, Hab.
Qed.

(** *** Insertion into a duplicate-free list *)

Section add_new.
Context `{EqDecision A}.
Implicit Types (x : A) (l acc : list A).

Lemma elem_of_addNew x y l : y ∈ addNew x l ↔ y ∈ l ∨ y = x.
Proof.
  unfold addNew. case_bool_decide as Hx.
  - split; [tauto|]. intros [?| ->]; done.
  - rewrite elem_of_app, list_elem_of_singleton. tauto.
Qed.

Lemma NoDup_addNew x l : NoDup l → NoDup (addNew x l).
Proof.
  intros Hl. unfold addNew. case_bool_decide as Hx; [done|].
  apply NoDup_app. split; [done|]. split; [|apply NoDup_singleton].
  intros y Hy Hyx. apply list_elem_of_singleton in Hyx. by subst.
Qed.

Lemma elem_of_foldl_addNew l acc y :
  y ∈ foldl (fun a x => addNew x a) acc l ↔ y ∈ acc ∨ y ∈ l.
Proof.
  revert acc. induction l as [|x l IH]; intros acc; simpl.
  - rewrite elem_of_nil. tauto.
  - rewrite IH, elem_of_addNew, elem_of_cons. tauto.
Qed.

Lemma NoDup_foldl_addNew l acc :
  NoDup acc → NoDup (foldl (fun a x => addNew x a) acc l).
Proof.
  revert acc. induction l as [|x l IH]; intros acc Hacc; simpl; [done|].
  by apply IH, NoDup_addNew.
Qed.

Lemma elem_of_dedupFirst l y : y ∈ dedupFirst l ↔ y ∈ l.
Proof. unfold dedupFirst. rewrite elem_of_foldl_addNew, elem_of_nil. tauto. Qed.

Lemma NoDup_dedupFirst l : NoDup (dedupFirst l).
Proof. apply NoDup_foldl_addNew, NoDup_nil_2. Qed.
End add_new.

Lemma foldl_addNew_fmap `{EqDecision A, EqDecision B} (f : A → B) `{!Inj (=) (=) f}
    (l acc : list A) :
  foldl (fun a k => addNew k a) (f <$> acc) (f <$> l)
  = f <$> foldl (fun a x => addNew x a) acc l.
Proof.
  revert acc. induction l as [|x l IH]; intros acc; simpl; [done|].
  rewrite <- IH. f_equal. unfold addNew.
  rewrite (bool_decide_ext _ _ (list_elem_of_fmap_inj f acc x)).
  case_bool_decide; [done|]. by rewrite fmap_app.
Qed.

(** *** The two filling loops *)

Lemma foldl_flat_map {A B C} (F : A → C → A) (h : B → list C) (l : list B) (a : A) :
  foldl (fun s x => foldl F s (h x)) a l = foldl F a (flat_map h l).
Proof.
  revert a. induction l as [|x l IH]; intros a; simpl; [done|].
  by rewrite IH, foldl_app.
Qed.

Lemma Set_add_addNew (k : string) (s : list string) : Set_add k s = addNew k s.
Proof. reflexivity. Qed.

Lemma addRowKeys_keys (n : nat) (rs : list nat) (s : list string) :
  Grid.addRowKeys n rs s =
  foldl (fun a k => addNew k a) s
        (keyOf <$> flat_map (fun row => (fun col => (row, col)) <$> upto n) rs).
Proof.
  unfold Grid.addRowKeys. rewrite foldl_fmap, <- foldl_flat_map.
  revert s. induction rs as [|row rs IH]; intros s; simpl; [done|].
  rewrite IH. f_equal. by rewrite foldl_fmap.
Qed.

Lemma addColKeys_keys (n : nat) (cs : list nat) (s : list string) :
  Grid.addColKeys n cs s =
  foldl (fun a k => addNew k a) s
        (keyOf <$> flat_map (fun col => (fun row => (row, col)) <$> upto n) cs).
Proof.
  unfold Grid.addColKeys. rewrite foldl_fmap, <- foldl_flat_map.
  revert s. induction cs as [|col cs IH]; intros s; simpl; [done|].
  rewrite IH. f_equal. by rewrite foldl_fmap.
Qed.

(** [getCellsToClear] never fails; it returns the visited cells with
    every repetition after the first dropped. *)
Lemma getCellsToClear_dedup (g : Grid.t) (rs cs : list nat) :
  Grid.getCellsToClear g rs cs = Some (dedupFirst (lineCells (Grid.size g) rs cs)).
Proof.
  unfold Grid.getCellsToClear. rewrite addColKeys_keys, addRowKeys_keys, <- foldl_app.
  rewrite <- fmap_app. fold (lineCells (Grid.size g) rs cs).
  change (@nil string) with (keyOf <$> @nil (nat * nat)).
  rewrite foldl_addNew_fmap by apply _. apply mapM_fmap_Some, parseKey_keyOf.
Qed.

Lemma elem_of_lineCells (n : nat) (rs cs : list nat) (row col : nat) :
  (row, col) ∈ lineCells n rs cs ↔ (row ∈ rs ∧ col < n) ∨ (col ∈ cs ∧ row < n).
Proof.
  unfold lineCells. rewrite elem_of_app, !elem_of_flat_map. split.
  - intros [(r & Hr & Hin)|(c & Hc & Hin)]; apply list_elem_of_fmap in Hin as (k & [= -> ->] & Hk);
      apply elem_of_upto in Hk; eauto.
  - intros [[Hr Hc]|[Hc Hr]]; [left; exists row|right; exists col]; (split; [done|]);
      apply list_elem_of_fmap; eexists; (split; [done|]); by apply elem_of_upto.
Qed.

(** The cells that [getCellsToClear] returns. *)
Lemma getCellsToClear_cells (g : Grid.t) (rs cs : list nat) :
  ∃ cells, Grid.getCellsToClear g rs cs = Some cells ∧
           ∀ row col, (row, col) ∈ cells ↔
                      (row ∈ rs ∧ col < Grid.size g) ∨ (col ∈ cs ∧ row < Grid.size g).
Proof.
  eexists. split; [apply getCellsToClear_dedup|]. intros row col.
  by rewrite elem_of_dedupFirst, elem_of_lineCells.
Qed.

(** One row and one column of the board share one cell. *)
Lemma lineCells_cross_length (n r c : nat) (cells : list (nat * nat)) :
  r < n → c < n → NoDup cells →
  (∀ row col, (row, col) ∈ cells ↔ (row ∈ [r] ∧ col < n) ∨ (col ∈ [c] ∧ row < n)) →
  length cells = 2 * n - 1.
Proof.
  intros Hr Hc Hnd Hin.
  set (others := (seq 0 r ++ seq (S r) (n - S r))%list).
  assert (Hothers : ∀ i, i ∈ others ↔ i < n ∧ i ≠ r).
  { intros i. unfold others. rewrite elem_of_app, !elem_of_seq. lia. }
  assert (Hnd_others : NoDup others).
  { unfold others. apply NoDup_app. split; [apply NoDup_seq|]. split; [|apply NoDup_seq].
    intros i. rewrite !elem_of_seq. lia. }
  set (L := (((fun col => (r, col)) <$> upto n) ++ ((fun row => (row, c)) <$> others))%list).
  assert (HL : cells ≡ₚ L).
  { apply NoDup_Permutation; [done| |].
    - unfold L. apply NoDup_app. split; [|split].
      + apply NoDup_fmap_2; [by intros ? ? [= ?]|apply NoDup_seq].
      + intros [row col] H1 H2.
        apply list_elem_of_fmap in H1 as (k & [= -> ->] & _).
        apply list_elem_of_fmap in H2 as (k' & [= -> _] & Hk'). apply Hothers in Hk'. lia.
      + apply NoDup_fmap_2; [by intros ? ? [= ?]|done].
    - intros [row col]. rewrite Hin. unfold L.
      rewrite elem_of_app, !list_elem_of_fmap, !list_elem_of_singleton. split.
      + intros [[-> Hcol]|[-> Hrow]].
        * left. exists col. split; [done|]. by apply elem_of_upto.
        * destruct (decide (row = r)) as [->|Hne].
          -- left. exists c. split; [done|]. by apply elem_of_upto.
          -- right. exists row. split; [done|]. by apply Hothers.
      + intros [(k & Heq & Hk)|(k & Heq & Hk)]; injection Heq as -> ->.
        * left. split; [done|]. by apply elem_of_upto in Hk.
        * right. split; [done|]. apply Hothers in Hk. lia. }
  rewrite HL. unfold L, others, upto.
  rewrite length_app, !length_fmap, length_app, !length_seq. lia.
Qed.

(** C5. [getCellsToClear] returns a list without repetition whose cells
    are exactly those of the listed rows (all [size] columns) and of the
    listed columns (all [size] rows): the cell where a listed row crosses
    a listed column occurs once. The list is the sequence of visited cells
    with later repetitions dropped. For one row and one column of the
    board it has [2 * size - 1] cells. *)
Theorem getCellsToClear_union (g : Grid.t) (rs cs : list nat) :
  ∃ cells,
    Grid.getCellsToClear g rs cs = Some cells ∧
    cells = dedupFirst (lineCells (Grid.size g) rs cs) ∧
    NoDup cells ∧
    (∀ row col, (row, col) ∈ cells ↔
                (row ∈ rs ∧ col < Grid.size g) ∨ (col ∈ cs ∧ row < Grid.size g)) ∧
    (∀ r c, rs = [r] → cs = [c] → r < Grid.size g → c < Grid.size g →
            length cells = 2 * Grid.size g - 1).
Proof.
  exists (dedupFirst (lineCells (Grid.size g) rs cs)).
  split; [apply getCellsToClear_dedup|]. split; [done|].
  split; [apply NoDup_dedupFirst|].
  assert (Hin : ∀ row col,
             (row, col) ∈ dedupFirst (lineCells (Grid.size g) rs cs) ↔
             (row ∈ rs ∧ col < Grid.size g) ∨ (col ∈ cs ∧ row < Grid.size g)).
  { intros row col. by rewrite elem_of_dedupFirst, elem_of_lineCells. }
  split; [done|]. intros r c -> -> Hr Hc.
  apply (lineCells_cross_length _ r c); [done|done|apply NoDup_dedupFirst|done].
Qed.

Lemma getCellsToClear_union_witness :
  ∃ cells,
    Grid.getCellsToClear (Grid.new 8) [2] [5] = Some cells ∧
    (2, 5) ∈ cells ∧ NoDup cells ∧ length cells = 15.
Proof.
  destruct (getCellsToClear_union (Grid.new 8) [2] [5]) as (cells & Heq & _ & Hnd & Hin & Hlen).
  exists cells. split; [exact Heq|]. split; [|split; [exact Hnd|]].
  - apply Hin. left. split; [apply list_elem_of_singleton; reflexivity|simpl; lia].
  - apply (Hlen 2 5); [reflexivity|reflexivity|simpl; lia|simpl; lia].
Defined.

(* ===================================================================== *)
(** ** Game over                                                           *)
(* ===================================================================== *)

Lemma canPieceFitAnywhere_spec (game : Game.t) (piece : Piece.t) :
  Game.canPieceFitAnywhere game piece = true ↔
  ∃ row col : Z,
    (0 ≤ row ≤ Z.of_nat (Grid.size (Game.grid game)) - Z.of_nat (Piece.rows piece))%Z ∧
    (0 ≤ col ≤ Z.of_nat (Grid.size (Game.grid game)) - Z.of_nat (Piece.cols piece))%Z ∧
    Grid.canPlacePiece (Game.grid game) piece row col = true.
Proof.
  unfold Game.canPieceFitAnywhere. rewrite existsb_elem_of. split.
  - intros (row & Hrow & Hex). apply existsb_elem_of in Hex as (col & Hcol & Hcan).
    apply elem_of_upto_incl in Hrow, Hcol. eauto.
  - intros (row & col & Hrow & Hcol & Hcan). exists row.
    split; [by apply elem_of_upto_incl|]. apply existsb_elem_of. exists col.
    split; [by apply elem_of_upto_incl|done].
Qed.

Lemma checkGameOver_false (game : Game.t) :
  Game.checkGameOver game = false ↔
  ∃ (i : nat) (piece : Piece.t),
    Game.trayPieces game !! i = Some (Some piece) ∧
    Game.canPieceFitAnywhere game piece = true.
Proof.
  unfold Game.checkGameOver. rewrite negb_false_iff, existsb_elem_of. split.
  - intros ([piece|] & Hin & Hfit); [|discriminate].
    apply list_elem_of_lookup in Hin as [i Hi]. eauto.
  - intros (i & piece & Hi & Hfit). exists (Some piece).
    split; [|done]. eapply list_elem_of_lookup_2; eauto.
Qed.

(** A piece that touches its box fits only at the anchors that
    [canPieceFitAnywhere] tries. *)
Lemma canPlacePiece_anchor_range (g : Grid.t) (p : Piece.t) (r c : Z) :
  touchesBox p = true →
  Grid.canPlacePiece g p r c = true →
  (0 ≤ r ≤ Z.of_nat (Grid.size g) - Z.of_nat (Piece.rows p))%Z ∧
  (0 ≤ c ≤ Z.of_nat (Grid.size g) - Z.of_nat (Piece.cols p))%Z.
Proof.
  unfold touchesBox. rewrite !andb_true_iff, !existsb_elem_of.
  intros [[[([a0 b0] & Hin0 & H0) ([a1 b1] & Hin1 & H1)] ([a2 b2] & Hin2 & H2)]
            ([a3 b3] & Hin3 & H3)] Hcan.
  cbn [fst snd] in *. apply Nat.eqb_eq in H0, H1, H2, H3.
  pose proof (fun dr dc Hin =>
                proj1 (isValidCell_spec g _ _) (proj1 (canPlacePiece_cell g p r c dr dc Hcan Hin)))
    as Hall.
  pose proof (Hall _ _ Hin0). pose proof (Hall _ _ Hin1).
  pose proof (Hall _ _ Hin2). pose proof (Hall _ _ Hin3). lia.
Qed.

Lemma cataloguePieces_touchBox (k : nat) (p : Piece.t) :
  cataloguePieces !! k = Some (Some p) → touchesBox p = true.
Proof.
  intros Hk.
  assert (Hall : Forall (fun op => match op with Some q => touchesBox q = true | None => True end)
                        cataloguePieces).
  { vm_compute. repeat constructor. }
  rewrite Forall_lookup in Hall. apply (Hall _ _ Hk).
Qed.

(** C6. [checkGameOver] answers [false] (a legal move exists) exactly
    when some slot of the tray holds a piece that [canPlacePiece] accepts
    at an anchor with [0 <= row <= size - rows] and
    [0 <= col <= size - cols]; it answers [true] (game over) exactly when
    no slot, at no such anchor, is accepted. *)
Theorem checkGameOver_iff (game : Game.t) :
  let legalMove (i : nat) (piece : Piece.t) (row col : Z) :=
    Game.trayPieces game !! i = Some (Some piece) ∧
    (0 ≤ row ≤ Z.of_nat (Grid.size (Game.grid game)) - Z.of_nat (Piece.rows piece))%Z ∧
    (0 ≤ col ≤ Z.of_nat (Grid.size (Game.grid game)) - Z.of_nat (Piece.cols piece))%Z ∧
    Grid.canPlacePiece (Game.grid game) piece row col = true in
  (Game.checkGameOver game = false ↔ ∃ i piece row col, legalMove i piece row col) ∧
  (Game.checkGameOver game = true ↔ ∀ i piece row col, ¬ legalMove i piece row col).
Proof.
  intros legalMove.
  assert (Hfalse : Game.checkGameOver game = false ↔ ∃ i piece row col, legalMove i piece row col).
  { rewrite checkGameOver_false. unfold legalMove. split.
    - intros (i & piece & Hi & Hfit).
      apply canPieceFitAnywhere_spec in Hfit as (row & col & Hr & Hc & Hcan).
      exists i, piece, row, col. tauto.
    - intros (i & piece & row & col & Hi & Hr & Hc & Hcan). exists i, piece.
      split; [done|]. apply canPieceFitAnywhere_spec. eauto. }
  split; [done|]. rewrite <- not_false_iff_true, Hfalse. split.
  - intros Hno i piece row col Hmove. apply Hno. eauto.
  - intros Hno (i & piece & row & col & Hmove). by apply (Hno i piece row col).
Qed.

(** X7. For the pieces of the catalogue the anchors tried are all the
    anchors there are: game over means that no piece of the tray fits at
    any integer anchor. *)
Lemma checkGameOver_any_anchor (game : Game.t) :
  (∀ i piece, Game.trayPieces game !! i = Some (Some piece) → touchesBox piece = true) →
  Game.checkGameOver game = true ↔
  ∀ (i : nat) (piece : Piece.t) (row col : Z),
    Game.trayPieces game !! i = Some (Some piece) →
    Grid.canPlacePiece (Game.grid game) piece row col = false.
Proof.
  intros Htight. rewrite <- not_false_iff_true, checkGameOver_false. split.
  - intros Hno i piece row col Hi.
    destruct (Grid.canPlacePiece (Game.grid game) piece row col) eqn:Hcan; [|done].
    destruct (canPlacePiece_anchor_range _ _ _ _ (Htight _ _ Hi) Hcan) as [Hr Hc].
    destruct Hno. exists i, piece. split; [done|]. apply canPieceFitAnywhere_spec. eauto.
  - intros Hno (i & piece & Hi & Hfit).
    apply canPieceFitAnywhere_spec in Hfit as (row & col & _ & _ & Hcan).
    rewrite (Hno _ _ _ _ Hi) in Hcan. discriminate.
Qed.

(* ===================================================================== *)
(** ** One placement, step by step                                         *)
(* ===================================================================== *)

(** [clearCells] on cells of the board: it completes, the listed cells
    become [null] and the others keep their value. *)
Lemma clearCells_spec (cells : list (nat * nat)) (g : Grid.t) :
  Grid.wf g →
  (∀ row col, (row, col) ∈ cells → row < Grid.size g ∧ col < Grid.size g) →
  ∃ g', Grid.clearCells g cells = Some g' ∧ Grid.wf g' ∧ Grid.size g' = Grid.size g ∧
        ∀ i j : nat, Grid.cellAt g' (Z.of_nat i) (Z.of_nat j) =
                     if bool_decide ((i, j) ∈ cells) then Some None
                     else Grid.cellAt g (Z.of_nat i) (Z.of_nat j).
Proof.
  revert g. induction cells as [|[row col] rest IH]; intros g Hwf Hin; cbn [Grid.clearCells].
  { exists g. repeat (split; [done|]). intros i j. rewrite bool_decide_false; [done|].
    apply not_elem_of_nil. }
  destruct (Hin row col) as [Hr Hc]; [by left|].
  destruct (proj2 (assign_is_Some g (Z.of_nat row) (Z.of_nat col) None)) as [g1 Hg1].
  { apply wf_cellAt; [done|]. apply isValidCell_spec. lia. }
  rewrite Hg1. pose proof (assign_wf _ _ _ _ _ Hwf Hg1) as Hwf1.
  destruct (assign_cellAt _ _ _ _ _ Hg1) as [Hsz1 Hat1].
  destruct (IH g1 Hwf1) as (g' & Hg' & Hwf' & Hsz' & Hat').
  { intros i j Hij. rewrite Hsz1. apply Hin. by right. }
  exists g'. split; [done|]. split; [done|]. split; [congruence|]. intros i j.
  rewrite Hat', Hat1. destruct (decide ((i, j) ∈ rest)) as [Hrest|Hrest].
  - rewrite !bool_decide_true; [done|by right|done].
  - rewrite (bool_decide_false _ Hrest). destruct (decide ((i, j) = (row, col))) as [[= -> ->]|Hne].
    + rewrite !bool_decide_true; [done|by left|done].
    + rewrite !bool_decide_false; [done| |].
      * intros Hcons. apply elem_of_cons in Hcons as [?|?]; tauto.
      * intros [? ?]. apply Hne. f_equal; lia.
Qed.

(** [checkAndClearLines] on a well-formed board: it completes, touches
    neither the tray nor the flags, and adds the bonus of the lines found,
    counted together. *)
Lemma checkAndClearLines_spec (game : Game.t) :
  Grid.wf (Game.grid game) →
  ∃ game',
    Game.checkAndClearLines game = Some game' ∧
    Grid.wf (Game.grid game') ∧
    Grid.size (Game.grid game') = Grid.size (Game.grid game) ∧
    Game.trayPieces game' = Game.trayPieces game ∧
    Game.isGameOver game' = Game.isGameOver game ∧
    Game.isAnimating game' = Game.isAnimating game ∧
    let total := Z.of_nat (length (Grid.findCompleteRows (Game.grid game)) +
                           length (Grid.findCompleteCols (Game.grid game))) in
    Game.score game' =
      (Game.score game + if (total =? 0)%Z then 0 else 500 * total * total)%Z.
Proof.
  intros Hwf. unfold Game.checkAndClearLines.
  set (rs := Grid.findCompleteRows (Game.grid game)).
  set (cs := Grid.findCompleteCols (Game.grid game)).
  destruct (Nat.eqb_spec (length rs + length cs) 0) as [H0|H0].
  - exists game. repeat (split; [done|]). cbv zeta. rewrite H0. simpl. lia.
  - destruct (getCellsToClear_cells (Game.grid game) rs cs) as (cells & -> & Hin).
    destruct (clearCells_spec cells (Game.grid game) Hwf) as (g' & Hg' & Hwf' & Hsz' & _).
    { intros row col Hrc. apply Hin in Hrc as [[Hr Hc]|[Hc Hr]].
      - apply elem_of_findCompleteRows in Hr. lia.
      - apply elem_of_findCompleteCols in Hc. lia. }
    simpl. rewrite Hg'. simpl. eexists. split; [done|]. repeat (split; [done|]).
    cbv zeta. simpl. unfold Game.calculateLineBonus.
    destruct (Z.eqb_spec (Z.of_nat (length rs + length cs)) 0); [lia|done].
Qed.

(** [checkAndRefillTray] with draws that [Math.random()] can return: it
    completes and touches the tray only; a tray without a piece is
    replaced by three new pieces, any other tray is kept. *)
Lemma checkAndRefillTray_spec (game : Game.t) (u : draws) :
  validDraws u →
  ∃ game',
    Game.checkAndRefillTray game u = Some game' ∧
    Game.grid game' = Game.grid game ∧
    Game.score game' = Game.score game ∧
    Game.isGameOver game' = Game.isGameOver game ∧
    Game.isAnimating game' = Game.isAnimating game ∧
    ((∀ i slot, Game.trayPieces game !! i = Some slot → slot = None) →
       ∃ p1 p2 p3,
         Piece.createRandom (draw1 u) = Some p1 ∧
         Piece.createRandom (draw2 u) = Some p2 ∧
         Piece.createRandom (draw3 u) = Some p3 ∧
         Game.trayPieces game' = [Some p1; Some p2; Some p3]) ∧
    ((∃ i piece, Game.trayPieces game !! i = Some (Some piece)) →
       Game.trayPieces game' = Game.trayPieces game).
Proof.
  intros ([H1 H1'] & [H2 H2'] & [H3 H3']). unfold Game.checkAndRefillTray.
  destruct (forallb _ (Game.trayPieces game)) eqn:Hall.
  - destruct (createRandom_total _ H1 H1') as (k1 & p1 & _ & Hp1).
    destruct (createRandom_total _ H2 H2') as (k2 & p2 & _ & Hp2).
    destruct (createRandom_total _ H3 H3') as (k3 & p3 & _ & Hp3).
    unfold Game.refillTray, Game.generateTrayPieces. rewrite Hp1, Hp2, Hp3. simpl.
    eexists. split; [done|]. repeat (split; [done|]). split.
    + intros _. exists p1, p2, p3. done.
    + intros (i & piece & Hi). rewrite forallb_elem_of in Hall.
      apply list_elem_of_lookup_2 in Hi. by apply Hall in Hi.
  - exists game. repeat (split; [done|]). split; [|done]. intros Hnone.
    assert (forallb (fun piece : option Piece.t =>
                       match piece with None => true | Some _ => false end)
                    (Game.trayPieces game) = true) as Htrue; [|congruence].
    apply forallb_elem_of. intros slot Hin. apply list_elem_of_lookup in Hin as [i Hi].
    by rewrite (Hnone _ _ Hi).
Qed.

(** [removePieceFromTray] inside the tray: the slot becomes [null], the
    others stay where they are. *)
Lemma removePieceFromTray_spec (game : Game.t) (index : nat) :
  index < length (Game.trayPieces game) →
  let tray' := Game.trayPieces (Game.removePieceFromTray game index) in
  length tray' = length (Game.trayPieces game) ∧
  tray' !! index = Some None ∧
  ∀ j, j ≠ index → tray' !! j = Game.trayPieces game !! j.
Proof.
  intros Hlt. unfold Game.removePieceFromTray. simpl. rewrite bool_decide_true by done.
  split; [by rewrite length_insert|]. split; [by apply list_lookup_insert_eq|].
  intros j Hj. by apply list_lookup_insert_ne.
Qed.

(** The whole of [placePiece] on a well-formed board. *)
Lemma placePiece_run (game : Game.t) (piece : Piece.t) (r c : Z) (trayIndex : nat) (u : draws) :
  Grid.wf (Game.grid game) → validDraws u →
  let cells := Piece.getFilledCells piece in
  ∃ g1 game1 game2 game',
    Game.fillCells (Game.grid game) (Piece.color piece) r c cells = Some g1 ∧
    Grid.wf g1 ∧
    Game.checkAndClearLines
      (Game.addScore
         (Game.removePieceFromTray (Game.with_grid (Game.with_isAnimating game true) g1) trayIndex)
         (Z.of_nat (length cells) * 10)) = Some game1 ∧
    Game.checkAndRefillTray game1 u = Some game2 ∧
    Game.placePiece game piece r c trayIndex u = Some game' ∧
    game' = (if Game.checkGameOver game2
             then Game.triggerGameOver (Game.with_isAnimating game2 false)
             else Game.with_isAnimating game2 false) ∧
    Grid.wf (Game.grid game').
Proof.
  intros Hwf Hu cells.
  destruct (fillCells_wf cells (Game.grid game) (Piece.color piece) r c Hwf)
    as (g1 & Hg1 & Hwf1 & Hsz1).
  set (game0 := Game.addScore
         (Game.removePieceFromTray (Game.with_grid (Game.with_isAnimating game true) g1) trayIndex)
         (Z.of_nat (length cells) * 10)).
  destruct (checkAndClearLines_spec game0 Hwf1) as (game1 & Hgame1 & Hwf2 & _).
  destruct (checkAndRefillTray_spec game1 u Hu) as (game2 & Hgame2 & Hgrid2 & _).
  eexists g1, game1, game2, _. split; [done|]. split; [done|]. split; [done|].
  split; [done|]. split; [|split; [reflexivity|]].
  - unfold Game.placePiece. cbn [Game.grid Game.with_isAnimating]. fold cells. rewrite Hg1.
    cbn [mbind option_bind]. fold game0. rewrite Hgame1. cbn [mbind option_bind].
    rewrite Hgame2. cbn [mbind option_bind]. by destruct (Game.checkGameOver game2).
  - destruct (Game.checkGameOver game2); simpl; by rewrite Hgrid2.
Qed.

Lemma checkGameOver_ext (a b : Game.t) :
  Game.grid a = Game.grid b → Game.trayPieces a = Game.trayPieces b →
  Game.checkGameOver a = Game.checkGameOver b.
Proof.
  intros Hg Ht. unfold Game.checkGameOver, Game.canPieceFitAnywhere. by rewrite Hg, Ht.
Qed.

Lemma grid_cross_open_wf : Grid.wf grid_cross_open.
Proof. split; [reflexivity|]. repeat constructor. Qed.

Lemma grid_corner_wf : Grid.wf grid_corner.
Proof. split; [reflexivity|]. repeat constructor. Qed.

Lemma draws_sample_valid : validDraws draws_sample.
Proof. repeat split; unfold Qle, Qlt; simpl; lia. Qed.

(* ===================================================================== *)
(** ** Scoring                                                             *)
(* ===================================================================== *)

(** C4. A placement always completes on a well-formed board. With
    [total] the number of complete rows plus the number of complete
    columns found once the piece is on the board, the score grows by
    10 per filled cell of the piece plus, when [total] is at least 1, one
    bonus of [500 * total * total]: rows and columns are counted into one
    [total]. So a piece of 5 cells that completes no line is worth 50,
    and two lines completed together bring a bonus of 2000. *)
Theorem placePiece_score (game : Game.t) (piece : Piece.t) (r c : Z)
    (trayIndex : nat) (u : draws) :
  Grid.wf (Game.grid game) → validDraws u →
  ∃ g1 game',
    Game.fillCells (Game.grid game) (Piece.color piece) r c (Piece.getFilledCells piece)
      = Some g1 ∧
    Game.placePiece game piece r c trayIndex u = Some game' ∧
    let cellCount := Z.of_nat (length (Piece.getFilledCells piece)) in
    let total := Z.of_nat (length (Grid.findCompleteRows g1) +
                           length (Grid.findCompleteCols g1)) in
    Game.score game' =
      (Game.score game + 10 * cellCount + if (1 <=? total)%Z then 500 * total * total else 0)%Z ∧
    (cellCount = 5%Z → total = 0%Z → Game.score game' = (Game.score game + 50)%Z) ∧
    (total = 2%Z → Game.score game' = (Game.score game + 10 * cellCount + 2000)%Z).
Proof.
  intros Hwf Hu.
  destruct (placePiece_run game piece r c trayIndex u Hwf Hu)
    as (g1 & game1 & game2 & game' & Hfill & Hwf1 & Hclear & Hrefill & Hplace & Hfinal & _).
  exists g1, game'. split; [done|]. split; [done|]. cbv zeta.
  set (game0 := Game.addScore
         (Game.removePieceFromTray (Game.with_grid (Game.with_isAnimating game true) g1) trayIndex)
         (Z.of_nat (length (Piece.getFilledCells piece)) * 10)) in Hclear.
  destruct (checkAndClearLines_spec game0 Hwf1)
    as (game1' & Hclear' & _ & _ & _ & _ & _ & Hscore1).
  rewrite Hclear in Hclear'. injection Hclear' as <-.
  change (Game.grid game0) with g1 in Hscore1.
  change (Game.score game0)
    with (Game.score game + Z.of_nat (length (Piece.getFilledCells piece)) * 10)%Z in Hscore1.
  destruct (checkAndRefillTray_spec game1 u Hu) as (game2' & Hrefill' & _ & Hscore2 & _).
  rewrite Hrefill in Hrefill'. injection Hrefill' as <-.
  assert (Hscore : Game.score game' = Game.score game2).
  { rewrite Hfinal. by destruct (Game.checkGameOver game2). }
  rewrite Hscore, Hscore2, Hscore1.
  set (total := Z.of_nat (length (Grid.findCompleteRows g1) + length (Grid.findCompleteCols g1))).
  assert (0 ≤ total)%Z by (unfold total; lia).
  destruct (Z.eqb_spec total 0), (Z.leb_spec 1 total); lia.
Qed.

Lemma placePiece_score_witness :
  ∃ game',
    Game.placePiece game_cross piece_line3v 0 0 1 draws_sample = Some game' ∧
    Game.score game' = 2030%Z.
Proof.
  destruct (placePiece_score game_cross piece_line3v 0 0 1 draws_sample
              grid_cross_open_wf draws_sample_valid)
    as (g1 & game' & Hfill & Hplace & Hscore & _ & Htwo).
  exists game'. split; [exact Hplace|].
  vm_compute in Hfill. injection Hfill as <-. apply Htwo. reflexivity.
Defined.

(* ===================================================================== *)
(** ** Tray refill and the game-over check                                 *)
(* ===================================================================== *)

(** C7. In every placement the tray that results is the tray after the
    removal when that still holds a piece, and three new pieces when it
    holds none; the game-over flag is then set from [checkGameOver] on the
    resulting tray and board, that is, on what the player faces next.
    Removing a piece puts [null] in its slot and leaves the other slots at
    their indices. *)
Theorem placePiece_refill_before_gameOver (game : Game.t) (piece : Piece.t) (r c : Z)
    (trayIndex : nat) (u : draws) :
  Grid.wf (Game.grid game) → validDraws u →
  ∃ game',
    Game.placePiece game piece r c trayIndex u = Some game' ∧
    let removed := Game.trayPieces (Game.removePieceFromTray game trayIndex) in
    ((∀ i slot, removed !! i = Some slot → slot = None) →
       ∃ p1 p2 p3,
         Piece.createRandom (draw1 u) = Some p1 ∧
         Piece.createRandom (draw2 u) = Some p2 ∧
         Piece.createRandom (draw3 u) = Some p3 ∧
         Game.trayPieces game' = [Some p1; Some p2; Some p3]) ∧
    ((∃ i q, removed !! i = Some (Some q)) → Game.trayPieces game' = removed) ∧
    Game.isGameOver game' = Game.isGameOver game || Game.checkGameOver game' ∧
    (trayIndex < length (Game.trayPieces game) →
       length removed = length (Game.trayPieces game) ∧
       removed !! trayIndex = Some None ∧
       ∀ j, j ≠ trayIndex → removed !! j = Game.trayPieces game !! j).
Proof.
  intros Hwf Hu.
  destruct (placePiece_run game piece r c trayIndex u Hwf Hu)
    as (g1 & game1 & game2 & game' & Hfill & Hwf1 & Hclear & Hrefill & Hplace & Hfinal & _).
  exists game'. split; [done|]. cbv zeta.
  set (game0 := Game.addScore
         (Game.removePieceFromTray (Game.with_grid (Game.with_isAnimating game true) g1) trayIndex)
         (Z.of_nat (length (Piece.getFilledCells piece)) * 10)) in Hclear.
  destruct (checkAndClearLines_spec game0 Hwf1)
    as (game1' & Hclear' & _ & _ & Htray1 & Hover1 & _).
  rewrite Hclear in Hclear'. injection Hclear' as <-.
  change (Game.trayPieces game0)
    with (Game.trayPieces (Game.removePieceFromTray game trayIndex)) in Htray1.
  change (Game.isGameOver game0) with (Game.isGameOver game) in Hover1.
  destruct (checkAndRefillTray_spec game1 u Hu)
    as (game2' & Hrefill' & _ & _ & Hover2 & _ & Hnew & Hkeep).
  rewrite Hrefill in Hrefill'. injection Hrefill' as <-.
  assert (Htray : Game.trayPieces game' = Game.trayPieces game2).
  { rewrite Hfinal. by destruct (Game.checkGameOver game2). }
  assert (Hgrid : Game.grid game' = Game.grid game2).
  { rewrite Hfinal. by destruct (Game.checkGameOver game2). }
  rewrite Htray1 in Hnew, Hkeep. rewrite Htray. split; [done|].
  split; [done|]. split.
  - rewrite (checkGameOver_ext game' game2 Hgrid Htray), Hfinal.
    destruct (Game.checkGameOver game2); simpl; [by rewrite orb_true_r|].
    rewrite Hover2, Hover1. by rewrite orb_false_r.
  - apply (removePieceFromTray_spec game trayIndex).
Qed.

Lemma placePiece_refill_before_gameOver_witness :
  Game.checkGameOver (Game.removePieceFromTray game_cross 1) = true ∧
  ∃ game',
    Game.placePiece game_cross piece_line3v 0 0 1 draws_sample = Some game' ∧
    length (Game.trayPieces game') = 3 ∧
    Game.isGameOver game' = Game.checkGameOver game' ∧
    Game.isGameOver game' = false.
Proof.
  split; [reflexivity|].
  destruct (placePiece_refill_before_gameOver game_cross piece_line3v 0 0 1 draws_sample
              grid_cross_open_wf draws_sample_valid)
    as (game' & Hplace & Hnew & _ & Hover & _).
  exists game'. split; [exact Hplace|].
  destruct Hnew as (p1 & p2 & p3 & _ & _ & _ & Htray).
  { intros [|[|[|i]]] slot; simpl; intros [= <-]; reflexivity. }
  split; [rewrite Htray; reflexivity|]. split; [exact Hover|].
  vm_compute in Hplace. injection Hplace as <-. reflexivity.
Defined.

(* ===================================================================== *)
(** ** Who checks a placement                                              *)
(* ===================================================================== *)

(** C2 as the claim has it: the engine would refuse a placement that
    [canPlacePiece] rejects. [placePiece] makes no such check: on a board
    whose cell (0, 0) is taken it puts the three-cell line at (0, 0) all
    the same, overwriting the cell, emptying the tray slot and adding 30
    points. *)
Lemma placePiece_does_not_recheck :
  Grid.canPlacePiece (Game.grid game_corner) piece_line3h 0 0 = false ∧
  ∃ game',
    Game.placePiece game_corner piece_line3h 0 0 0 draws_sample = Some game' ∧
    Grid.cellAt (Game.grid game_corner) 0 0 = Some (Some "#FFD700") ∧
    Grid.cellAt (Game.grid game') 0 0 = Some (Some "#00D4FF") ∧
    Game.trayPieces game_corner !! 0 = Some (Some piece_line3h) ∧
    Game.trayPieces game' !! 0 = Some None ∧
    Game.score game_corner = 0%Z ∧
    Game.score game' = 30%Z.
Proof.
  split; [reflexivity|]. eexists. split; [by vm_compute|]. by repeat split.
Qed.

(** C2, amended. A drop changes the game only when [canPlacePiece] holds
    at the drop cell. The check is made by [handlePointerUp]: when it
    fails, or when the pointer is released off the grid, the drag ends
    and board, tray, score and flags are those of before; when the game
    does change, the drop cell passed the check and the change is that
    of [placePiece]. *)
Theorem handlePointerUp_guard (dc : DragController.t) (game : Game.t)
    (gridPos : option (Z * Z)) (u : draws) :
  (∀ piece row col,
     DragController.isDragging dc = true →
     DragController.draggedPiece dc = Some piece →
     gridPos = Some (row, col) →
     Grid.canPlacePiece (Game.grid game) piece row col = false →
     DragController.handlePointerUp dc game gridPos u
     = Some (DragController.endDrag dc, game)) ∧
  (DragController.isDragging dc = true → gridPos = None →
     DragController.handlePointerUp dc game gridPos u
     = Some (DragController.endDrag dc, game)) ∧
  (∀ dc' game',
     DragController.handlePointerUp dc game gridPos u = Some (dc', game') →
     game' ≠ game →
     ∃ piece row col trayIndex,
       DragController.isDragging dc = true ∧
       DragController.draggedPiece dc = Some piece ∧
       DragController.draggedPieceIndex dc = Some trayIndex ∧
       gridPos = Some (row, col) ∧
       Grid.canPlacePiece (Game.grid game) piece row col = true ∧
       Game.placePiece game piece row col trayIndex u = Some game').
Proof.
  unfold DragController.handlePointerUp. split; [|split].
  - intros piece row col -> -> -> Hcan. simpl. by rewrite Hcan.
  - by intros -> ->.
  - intros dc' game'. destruct (DragController.isDragging dc); simpl; [|congruence].
    destruct gridPos as [[row col]|]; [|congruence].
    destruct (DragController.draggedPiece dc) as [piece|]; [|discriminate].
    destruct (Grid.canPlacePiece (Game.grid game) piece row col) eqn:Hcan; [|congruence].
    destruct (DragController.draggedPieceIndex dc) as [trayIndex|]; [|discriminate].
    destruct (Game.placePiece game piece row col trayIndex u) as [game''|] eqn:Hplace;
      [|discriminate].
    simpl. intros [= <- <-] _. exists piece, row, col, trayIndex. done.
Qed.

Lemma handlePointerUp_guard_witness :
  DragController.isDragging drag_corner = true ∧
  Grid.canPlacePiece (Game.grid game_corner) piece_line3h 0 0 = false ∧
  DragController.handlePointerUp drag_corner game_corner (Some (0, 0)%Z) draws_sample
  = Some (DragController.endDrag drag_corner, game_corner).
Proof.
  split; [reflexivity|]. split; [reflexivity|].
  apply (proj1 (handlePointerUp_guard drag_corner game_corner (Some (0, 0)%Z) draws_sample)
               piece_line3h 0%Z 0%Z); reflexivity.
Defined.

(* ===================================================================== *)
(** ** Further properties of the engine                                    *)
(* ===================================================================== *)

Lemma isCellEmpty_spec (g : Grid.t) (row col : Z) :
  Grid.isCellEmpty g row col = true ↔
  (0 ≤ row < Z.of_nat (Grid.size g))%Z ∧ (0 ≤ col < Z.of_nat (Grid.size g))%Z ∧
  Grid.cellAt g row col = Some None.
Proof.
  unfold Grid.isCellEmpty. rewrite andb_true_iff, isValidCell_spec, isNull_spec. tauto.
Qed.

(** [canPlacePiece] asks of every target cell what [isCellEmpty] asks. *)
Lemma canPlacePiece_isCellEmpty (g : Grid.t) (p : Piece.t) (r c : Z) :
  Grid.canPlacePiece g p r c =
  forallb (fun cell : Z * Z => Grid.isCellEmpty g cell.1 cell.2)
          (Game.placedCells r c (Piece.getFilledCells p)).
Proof.
  unfold Grid.canPlacePiece, Game.placedCells.
  induction (Piece.getFilledCells p) as [|cell rest IH]; simpl; [done|]. by rewrite IH.
Qed.

Lemma forallb_false_elem_of {A} (f : A → bool) (l : list A) :
  forallb f l = false ↔ ∃ x, x ∈ l ∧ f x = false.
Proof.
  induction l as [|a l IH]; simpl.
  - split; [discriminate|]. intros (x & Hx & _). by apply elem_of_nil in Hx.
  - rewrite andb_false_iff, IH. split.
    + intros [Ha|(x & Hx & Hf)]; [exists a; split; [by left|done]|].
      exists x. split; [by right|done].
    + intros (x & Hx & Hf). apply elem_of_cons in Hx as [->|Hx]; eauto.
Qed.

(** A line that is not complete has a [null] cell. *)
Lemma rowIsComplete_false (g : Grid.t) (row : nat) :
  Grid.rowIsComplete g row = false ↔
  ∃ col, col < Grid.size g ∧ Grid.cellAt g (Z.of_nat row) (Z.of_nat col) = Some None.
Proof.
  unfold Grid.rowIsComplete. rewrite forallb_false_elem_of.
  split; intros (col & Hcol & H); exists col.
  - apply elem_of_upto in Hcol. apply negb_false_iff, isNull_spec in H. done.
  - split; [by apply elem_of_upto|]. by apply negb_false_iff, isNull_spec.
Qed.

Lemma colIsComplete_false (g : Grid.t) (col : nat) :
  Grid.colIsComplete g col = false ↔
  ∃ row, row < Grid.size g ∧ Grid.cellAt g (Z.of_nat row) (Z.of_nat col) = Some None.
Proof.
  unfold Grid.colIsComplete. rewrite forallb_false_elem_of.
  split; intros (row & Hrow & H); exists row.
  - apply elem_of_upto in Hrow. apply negb_false_iff, isNull_spec in H. done.
  - split; [by apply elem_of_upto|]. by apply negb_false_iff, isNull_spec.
Qed.

(** Once [checkAndClearLines] has run, no line of the board is complete:
    a cleared line is reported not complete at once, and clearing
    completes no other line. *)
Lemma checkAndClearLines_leaves_no_line (game game' : Game.t) :
  Grid.wf (Game.grid game) → 0 < Grid.size (Game.grid game) →
  Game.checkAndClearLines game = Some game' →
  Grid.findCompleteRows (Game.grid game') = [] ∧
  Grid.findCompleteCols (Game.grid game') = [].
Proof.
  intros Hwf Hpos. unfold Game.checkAndClearLines.
  set (rs := Grid.findCompleteRows (Game.grid game)).
  set (cs := Grid.findCompleteCols (Game.grid game)).
  destruct (Nat.eqb_spec (length rs + length cs) 0) as [H0|H0].
  { intros [= <-]. fold rs cs. split; apply nil_length_inv; lia. }
  destruct (getCellsToClear_cells (Game.grid game) rs cs) as (cells & -> & Hin).
  destruct (clearCells_spec cells (Game.grid game) Hwf) as (g' & Hg' & Hwf' & Hsz' & Hat).
  { intros row col Hrc. apply Hin in Hrc as [[Hr Hc]|[Hc Hr]].
    - apply elem_of_findCompleteRows in Hr. lia.
    - apply elem_of_findCompleteCols in Hc. lia. }
  simpl. rewrite Hg'. simpl. intros [= <-]. simpl. split; apply elem_of_nil_inv.
  - intros row Hrow. apply elem_of_findCompleteRows in Hrow as [Hr Hall]. rewrite Hsz' in *.
    assert (Hnull : ∃ col, col < Grid.size (Game.grid game) ∧
                          Grid.cellAt g' (Z.of_nat row) (Z.of_nat col) = Some None).
    { destruct (decide (row ∈ rs)) as [Hrs|Hrs].
      - exists 0. split; [done|]. rewrite Hat, bool_decide_true; [done|]. apply Hin. by left.
      - destruct (Grid.rowIsComplete (Game.grid game) row) eqn:Hcomplete.
        + destruct Hrs. apply elem_of_List_filter. split; [by apply elem_of_upto|done].
        + apply rowIsComplete_false in Hcomplete as (col & Hcol & Hcell). exists col.
          split; [done|]. rewrite Hat, Hcell. by case_bool_decide. }
    destruct Hnull as (col & Hcol & Hcell). specialize (Hall col Hcol).
    rewrite Hcell in Hall. discriminate.
  - intros col Hcol. apply elem_of_findCompleteCols in Hcol as [Hc Hall]. rewrite Hsz' in *.
    assert (Hnull : ∃ row, row < Grid.size (Game.grid game) ∧
                          Grid.cellAt g' (Z.of_nat row) (Z.of_nat col) = Some None).
    { destruct (decide (col ∈ cs)) as [Hcs|Hcs].
      - exists 0. split; [done|]. rewrite Hat, bool_decide_true; [done|]. apply Hin. by right.
      - destruct (Grid.colIsComplete (Game.grid game) col) eqn:Hcomplete.
        + destruct Hcs. apply elem_of_List_filter. split; [by apply elem_of_upto|done].
        + apply colIsComplete_false in Hcomplete as (row & Hrow & Hcell). exists row.
          split; [done|]. rewrite Hat, Hcell. by case_bool_decide. }
    destruct Hnull as (row & Hrow & Hcell). specialize (Hall row Hrow).
    rewrite Hcell in Hall. discriminate.
Qed.

(** A new game starts on a well-formed, empty board with a full tray. *)
Lemma startNewGame_spec (game : Game.t) (u : draws) :
  validDraws u →
  ∃ game', Game.startNewGame game u = Some game' ∧
           Grid.wf (Game.grid game') ∧
           Game.grid game' = Grid.reset (Game.grid game) ∧
           Game.score game' = 0%Z ∧
           Game.isGameOver game' = false ∧
           length (Game.trayPieces game') = 3.
Proof.
  intros ([H1 H1'] & [H2 H2'] & [H3 H3']). unfold Game.startNewGame, Game.generateTrayPieces.
  destruct (createRandom_total _ H1 H1') as (k1 & p1 & _ & ->).
  destruct (createRandom_total _ H2 H2') as (k2 & p2 & _ & ->).
  destruct (createRandom_total _ H3 H3') as (k3 & p3 & _ & ->).
  simpl. eexists. split; [done|]. simpl. split; [apply wf_reset|done].
Qed.

(** *** The scenarios of the specification *)

(** On the empty board the lying line of 4 at (0, 0) scores 40, completes
    no line and does not end the game. *)
Example scenario_first_move :
  ∃ game', Game.placePiece game_start piece_line4h 0 0 0 draws_sample = Some game' ∧
           Game.score game' = 40%Z ∧
           Grid.findCompleteRows (Game.grid game') = [] ∧
           Grid.findCompleteCols (Game.grid game') = [] ∧
           (∀ c, c < 4 → Grid.cellAt (Game.grid game') 0 (Z.of_nat c) = Some (Some "#00D4FF")) ∧
           Game.isGameOver game' = false.
Proof.
  eexists. split; [by vm_compute|]. repeat split.
  intros [|[|[|[|c]]]] Hc; (reflexivity || lia).
Qed.

(** A standing line dropped on the open cell of row 0 completes the row:
    30 points for the piece, 500 for the line, the 8 cells of the row
    cleared, the two cells below left in place. *)
Example scenario_row_cleared :
  ∃ game', Game.placePiece game_row0_open piece_line3v 0 7 0 draws_sample = Some game' ∧
           Game.score game' = 530%Z ∧
           Grid.getCellsToClear (Game.grid game_row0_open) [0] []
           = Some [(0, 0); (0, 1); (0, 2); (0, 3); (0, 4); (0, 5); (0, 6); (0, 7)] ∧
           Grid.state (Game.grid game') =
             replicate 8 None
             :: replicate 2 (replicate 7 None ++ [Some "#00D4FF"])%list
             ++ replicate 5 (replicate 8 None) ∧
           Game.isGameOver game' = false.
Proof. eexists. split; [by vm_compute|]. by repeat split. Qed.

(** An empty tray alone is a lost position for [checkGameOver]: the
    refill has to come first. *)
Example empty_tray_is_game_over :
  Game.checkGameOver (Game.with_trayPieces game_start [None; None; None]) = true.
Proof. reflexivity. Qed.

(* ===================================================================== *)
(** ** More of class Piece and class Grid                                  *)
(* ===================================================================== *)

Lemma elem_of_row_cells (f : nat → bool) (row a n : nat) (x : nat * nat) :
  x ∈ flat_map (fun col => if f col then [(row, col)] else []) (seq a n) ↔
  x.1 = row ∧ a ≤ x.2 < a + n ∧ f x.2 = true.
Proof.
  rewrite elem_of_flat_map. split.
  - intros (col & Hcol & Hx). apply elem_of_seq in Hcol.
    destruct (f col) eqn:Hf; [|by apply elem_of_nil in Hx].
    apply list_elem_of_singleton in Hx as ->. simpl. tauto.
  - intros (H1 & H2 & Hf). exists x.2. split; [by apply elem_of_seq|].
    rewrite Hf. apply list_elem_of_singleton. destruct x; simpl in *. by subst.
Qed.

Lemma row_cells_sorted (f : nat → bool) (row a n : nat) :
  StronglySorted cellBefore
    (flat_map (fun col => if f col then [(row, col)] else []) (seq a n)).
Proof.
  revert a. induction n as [|n IH]; intros a; simpl; [constructor|].
  destruct (f a); simpl; [|apply IH]. constructor; [apply IH|].
  apply Forall_forall. intros x Hx. apply elem_of_row_cells in Hx as (H1 & H2 & _).
  right. simpl. lia.
Qed.

Lemma StronglySorted_append {A} (R : A → A → Prop) (l1 l2 : list A) :
  StronglySorted R l1 → StronglySorted R l2 →
  (∀ x y, x ∈ l1 → y ∈ l2 → R x y) → StronglySorted R (l1 ++ l2).
Proof.
  intros H1 H2 Hcross. induction H1 as [|x l Hl IH Hx]; simpl; [done|].
  constructor.
  - apply IH. intros a b Ha Hb. apply Hcross; [by right|done].
  - apply Forall_app. split; [done|]. apply Forall_forall. intros y Hy.
    apply Hcross; [by left|done].
Qed.

(** X1. The filled cells of a piece come in row-major order, each once. *)
Theorem getFilledCells_row_major (p : Piece.t) :
  StronglySorted cellBefore (Piece.getFilledCells p) ∧
  NoDup (Piece.getFilledCells p) ∧
  ∀ dr dc, (dr, dc) ∈ Piece.getFilledCells p ↔
           dr < Piece.rows p ∧ dc < Piece.cols p ∧
           Piece.shape p !! dr ≫= (.!! dc) = Some 1.
Proof.
  assert (Hsorted : StronglySorted cellBefore (Piece.getFilledCells p)).
  { unfold Piece.getFilledCells, upto. generalize 0 at 2 as a.
    induction (Piece.rows p) as [|n IH]; intros a; simpl; [constructor|].
    apply StronglySorted_append; [apply row_cells_sorted|apply IH|].
    intros x y Hx Hy. apply elem_of_row_cells in Hx as (Hx & _).
    apply elem_of_flat_map in Hy as (row & Hrow & Hy). apply elem_of_seq in Hrow.
    apply elem_of_row_cells in Hy as (Hy & _). left. lia. }
  split; [done|]. split.
  - clear -Hsorted. induction Hsorted as [|x l Hl IH Hx]; constructor; [|done].
    intros Hin. rewrite Forall_forall in Hx. specialize (Hx _ Hin).
    unfold cellBefore in Hx. lia.
  - intros dr dc. rewrite getFilledCells_spec. unfold Piece.isOn.
    by rewrite bool_decide_eq_true.
Qed.

(** X2. The key of a cell reads back as the cell, so two cells never share
    a key. *)
Theorem cellKey_round_trip (row col row' col' : nat) :
  Grid.parseKey (Grid.cellKey row col) = Some (row, col) ∧
  (Grid.cellKey row col = Grid.cellKey row' col' → row = row' ∧ col = col').
Proof.
  split; [apply parseKey_cellKey|]. intros Heq.
  pose proof (parseKey_cellKey row col) as H1. rewrite Heq, parseKey_cellKey in H1.
  by injection H1.
Qed.

(** An unguarded assignment outside a well-formed grid fails. *)
Lemma assign_outside (g : Grid.t) (row col : Z) (v : option string) :
  Grid.wf g → Grid.isValidCell g row col = false → Grid.assign g row col v = None.
Proof.
  intros Hwf Hout. destruct (Grid.assign g row col v) as [g'|] eqn:Hg'; [|done].
  assert (His : is_Some (Grid.cellAt g row col)).
  { apply (proj1 (assign_is_Some g row col v)). rewrite Hg'. eauto. }
  destruct His as [x Hx]. apply cellAt_Some in Hx as (Hr & Hc & line & Hl & Hv).
  pose proof (wf_line _ _ _ Hwf Hl) as Hlen. apply lookup_lt_Some in Hl, Hv.
  destruct Hwf as [Hn _]. assert (Grid.isValidCell g row col = true); [|congruence].
  apply isValidCell_spec. lia.
Qed.

(** X3. [clearCells] writes without asking [isValidCell]: on a well-formed
    grid it completes exactly when every listed cell is on the board, and
    then the listed cells are [null], the others as before. *)
Theorem clearCells_on_board (g : Grid.t) (cells : list (nat * nat)) :
  Grid.wf g →
  (is_Some (Grid.clearCells g cells) ↔
   ∀ row col, (row, col) ∈ cells → row < Grid.size g ∧ col < Grid.size g) ∧
  ∀ g', Grid.clearCells g cells = Some g' →
        Grid.wf g' ∧ Grid.size g' = Grid.size g ∧
        ∀ i j : nat, Grid.cellAt g' (Z.of_nat i) (Z.of_nat j) =
                     if bool_decide ((i, j) ∈ cells) then Some None
                     else Grid.cellAt g (Z.of_nat i) (Z.of_nat j).
Proof.
  intros Hwf.
  assert (Hfail : ∀ cells g, Grid.wf g → is_Some (Grid.clearCells g cells) →
            ∀ row col, (row, col) ∈ cells → row < Grid.size g ∧ col < Grid.size g).
  { clear. induction cells as [|[r c] rest IH]; intros g Hwf Hsome row col Hin.
    { by apply elem_of_nil in Hin. }
    simpl in Hsome. destruct (Grid.assign g (Z.of_nat r) (Z.of_nat c) None) as [g1|] eqn:Hg1.
    - assert (Hv : Grid.isValidCell g (Z.of_nat r) (Z.of_nat c) = true).
      { destruct (Grid.isValidCell g (Z.of_nat r) (Z.of_nat c)) eqn:Hv; [done|].
        by rewrite (assign_outside _ _ _ _ Hwf Hv) in Hg1. }
      apply isValidCell_spec in Hv. apply elem_of_cons in Hin as [[= -> ->]|Hin]; [lia|].
      rewrite <- (proj1 (assign_cellAt _ _ _ _ _ Hg1)).
      apply (IH g1); [by eapply assign_wf|done|done].
    - by destruct Hsome. }
  split; [split|].
  - by apply Hfail.
  - intros Hin. destruct (clearCells_spec cells g Hwf Hin) as (g' & -> & _). eauto.
  - intros g' Hg'.
    destruct (clearCells_spec cells g Hwf) as (g'' & Hg'' & Hwf' & Hsz & Hat).
    { apply Hfail; [done|]. rewrite Hg'. eauto. }
    rewrite Hg' in Hg''. injection Hg'' as <-. done.
Qed.

Lemma clearCells_on_board_witness :
  is_Some (Grid.clearCells grid_row0_col0 [(0, 0); (0, 7); (7, 0)]) ∧
  ¬ is_Some (Grid.clearCells grid_row0_col0 [(0, 0); (0, 8)]).
Proof.
  destruct (clearCells_on_board grid_row0_col0 [(0, 0); (0, 7); (7, 0)] grid_row0_col0_wf)
    as [Hyes _].
  destruct (clearCells_on_board grid_row0_col0 [(0, 0); (0, 8)] grid_row0_col0_wf)
    as [Hno _].
  split.
  - apply Hyes. intros row col Hin. simpl.
    repeat (apply elem_of_cons in Hin as [[= -> ->]|Hin]; [lia|]).
    by apply elem_of_nil in Hin.
  - intros Hsome. destruct (proj1 Hno Hsome 0 8) as [_ Hc]; [|simpl in Hc; lia].
    right. left.
Defined.

(* ===================================================================== *)
(** ** More of one placement                                               *)
(* ===================================================================== *)

(** The filling loop at any anchor of a well-formed board, cell by
    cell. *)
Lemma fillCells_general (cells : list (nat * nat)) (g : Grid.t) (color : string) (r c : Z) :
  Grid.wf g →
  ∃ g', Game.fillCells g color r c cells = Some g' ∧ Grid.wf g' ∧
        Grid.size g' = Grid.size g ∧
        ∀ i j, Grid.cellAt g' i j =
               if bool_decide ((i, j) ∈ Game.placedCells r c cells) && Grid.isValidCell g i j
               then Some (Some color) else Grid.cellAt g i j.
Proof.
  revert g. induction cells as [|cell rest IH]; intros g Hwf; cbn [Game.fillCells].
  { exists g. repeat (split; [done|]). intros i j. rewrite bool_decide_false; [done|].
    apply not_elem_of_nil. }
  set (tr := (r + Z.of_nat cell.1)%Z). set (tc := (c + Z.of_nat cell.2)%Z).
  assert (Hstep : ∃ g1, Grid.setCell g tr tc color = Some g1 ∧ Grid.wf g1 ∧
            Grid.size g1 = Grid.size g ∧
            ∀ i j, Grid.cellAt g1 i j =
                   if bool_decide (i = tr ∧ j = tc) && Grid.isValidCell g i j
                   then Some (Some color) else Grid.cellAt g i j).
  { unfold Grid.setCell. destruct (Grid.isValidCell g tr tc) eqn:Hv.
    - destruct (proj2 (assign_is_Some g tr tc (Some color)) (wf_cellAt _ _ _ Hwf Hv))
        as [g1 Hg1].
      destruct (assign_cellAt _ _ _ _ _ Hg1) as [Hsz Hat].
      exists g1. split; [done|]. split; [by eapply assign_wf|]. split; [done|].
      intros i j. rewrite Hat. case_bool_decide as Hij; [|done].
      destruct Hij as [-> ->]. by rewrite Hv.
    - exists g. repeat (split; [done|]). intros i j. case_bool_decide as Hij; [|done].
      destruct Hij as [-> ->]. by rewrite Hv. }
  destruct Hstep as (g1 & -> & Hwf1 & Hsz1 & Hat1).
  destruct (IH g1 Hwf1) as (g' & Hg' & Hwf' & Hsz' & Hat').
  exists g'. split; [done|]. split; [done|]. split; [congruence|]. intros i j.
  rewrite Hat', Hat1.
  assert (Hvalid : Grid.isValidCell g1 i j = Grid.isValidCell g i j).
  { unfold Grid.isValidCell. by rewrite Hsz1. }
  rewrite Hvalid. fold tr tc.
  destruct (Grid.isValidCell g i j); [|by rewrite !andb_false_r].
  rewrite !andb_true_r.
  destruct (decide ((i, j) ∈ Game.placedCells r c rest)) as [Hin|Hnin].
  - rewrite !bool_decide_true; [done|by right|done].
  - rewrite (bool_decide_false _ Hnin). destruct (decide (i = tr ∧ j = tc)) as [[-> ->]|Hne].
    + rewrite !bool_decide_true; [done|by left|done].
    + rewrite !bool_decide_false; [done| |done].
      intros Hin. apply elem_of_cons in Hin as [[= -> ->]|Hin]; tauto.
Qed.

(** X4. [placePiece] does not ask whether the piece fits. Its filling loop
    completes at every anchor of a well-formed board: a target cell on
    the board takes the colour of the piece whatever it held, a target
    cell off the board is skipped, and no other cell changes. *)
Theorem fillCells_overwrites_and_clips (g : Grid.t) (p : Piece.t) (r c : Z) :
  Grid.wf g →
  ∃ g', Game.fillCells g (Piece.color p) r c (Piece.getFilledCells p) = Some g' ∧
        Grid.wf g' ∧ Grid.size g' = Grid.size g ∧
        (∀ dr dc : nat, (dr, dc) ∈ Piece.getFilledCells p →
           Grid.isValidCell g (r + Z.of_nat dr) (c + Z.of_nat dc) = true →
           Grid.cellAt g' (r + Z.of_nat dr) (c + Z.of_nat dc) = Some (Some (Piece.color p))) ∧
        (∀ i j : Z, Grid.isValidCell g i j = false → Grid.cellAt g' i j = Grid.cellAt g i j) ∧
        (∀ i j : Z,
           (∀ dr dc : nat, (dr, dc) ∈ Piece.getFilledCells p →
              ¬ (i = (r + Z.of_nat dr)%Z ∧ j = (c + Z.of_nat dc)%Z)) →
           Grid.cellAt g' i j = Grid.cellAt g i j).
Proof.
  intros Hwf.
  destruct (fillCells_general (Piece.getFilledCells p) g (Piece.color p) r c Hwf)
    as (g' & Hg' & Hwf' & Hsz & Hat).
  exists g'. repeat (split; [done|]). split; [|split].
  - intros dr dc Hin Hv. rewrite Hat, Hv, bool_decide_true; [done|].
    apply elem_of_placedCells. eauto.
  - intros i j Hout. by rewrite Hat, Hout, andb_false_r.
  - intros i j Hout. rewrite Hat, bool_decide_false; [done|].
    intros Hin. apply elem_of_placedCells in Hin as (dr & dc & Hin & ? & ?).
    by apply (Hout dr dc).
Qed.

Lemma fillCells_overwrites_and_clips_witness :
  ∃ g', Game.fillCells grid_corner (Piece.color piece_line3h) 0 0
          (Piece.getFilledCells piece_line3h) = Some g' ∧
        Grid.cellAt grid_corner 0 0 = Some (Some "#FFD700") ∧
        Grid.cellAt g' 0 0 = Some (Some "#00D4FF").
Proof.
  destruct (fillCells_overwrites_and_clips grid_corner piece_line3h 0 0 grid_corner_wf)
    as (g' & Hg' & _ & _ & Hset & _).
  exists g'. split; [exact Hg'|]. split; [reflexivity|].
  apply (Hset 0 0); [|reflexivity]. left.
Defined.

(** A line that a placement completes runs through the piece. *)
Lemma completed_row_through_piece (g g1 : Grid.t) (color : string) (r c : Z)
    (cells : list (nat * nat)) (row : nat) :
  Grid.wf g → Game.fillCells g color r c cells = Some g1 →
  Grid.rowIsComplete g row = false → row ∈ Grid.findCompleteRows g1 →
  ∃ dr dc, (dr, dc) ∈ cells ∧ Z.of_nat row = (r + Z.of_nat dr)%Z.
Proof.
  intros Hwf Hfill Hbefore Hafter.
  destruct (fillCells_general cells g color r c Hwf) as (g' & Hg' & _ & Hsz & Hat).
  rewrite Hfill in Hg'. injection Hg' as <-.
  apply rowIsComplete_false in Hbefore as (col & Hcol & Hnull).
  apply elem_of_findCompleteRows in Hafter as [Hrow Hall]. rewrite Hsz in *.
  specialize (Hall col Hcol). rewrite Hat in Hall.
  destruct (decide ((Z.of_nat row, Z.of_nat col) ∈ Game.placedCells r c cells)) as [Hin|Hnin].
  - apply elem_of_placedCells in Hin as (dr & dc & Hin & Hr & _). eauto.
  - rewrite (bool_decide_false _ Hnin), Hnull in Hall. discriminate.
Qed.

Lemma completed_col_through_piece (g g1 : Grid.t) (color : string) (r c : Z)
    (cells : list (nat * nat)) (col : nat) :
  Grid.wf g → Game.fillCells g color r c cells = Some g1 →
  Grid.colIsComplete g col = false → col ∈ Grid.findCompleteCols g1 →
  ∃ dr dc, (dr, dc) ∈ cells ∧ Z.of_nat col = (c + Z.of_nat dc)%Z.
Proof.
  intros Hwf Hfill Hbefore Hafter.
  destruct (fillCells_general cells g color r c Hwf) as (g' & Hg' & _ & Hsz & Hat).
  rewrite Hfill in Hg'. injection Hg' as <-.
  apply colIsComplete_false in Hbefore as (row & Hrow & Hnull).
  apply elem_of_findCompleteCols in Hafter as [Hcol Hall]. rewrite Hsz in *.
  specialize (Hall row Hrow). rewrite Hat in Hall.
  destruct (decide ((Z.of_nat row, Z.of_nat col) ∈ Game.placedCells r c cells)) as [Hin|Hnin].
  - apply elem_of_placedCells in Hin as (dr & dc & Hin & _ & Hc). eauto.
  - rewrite (bool_decide_false _ Hnin), Hnull in Hall. discriminate.
Qed.

Lemma findCompleteRows_NoDup (g : Grid.t) : NoDup (Grid.findCompleteRows g).
Proof.
  apply NoDup_ListNoDup, List.NoDup_filter, NoDup_ListNoDup, NoDup_seq.
Qed.

Lemma findCompleteCols_NoDup (g : Grid.t) : NoDup (Grid.findCompleteCols g).
Proof.
  apply NoDup_ListNoDup, List.NoDup_filter, NoDup_ListNoDup, NoDup_seq.
Qed.

Lemma not_complete_of_nil (l : list nat) (f : nat → bool) (n k : nat) :
  List.filter f (upto n) = [] → k < n → f k = false.
Proof.
  intros Hnil Hk. destruct (f k) eqn:Hf; [|done].
  assert (k ∈ List.filter f (upto n)) as Hin.
  { apply elem_of_List_filter. split; [by apply elem_of_upto|done]. }
  rewrite Hnil in Hin. by apply elem_of_nil in Hin.
Qed.

(** X5. On a board without a complete line, the lines that a placement
    completes are rows and columns of the piece: no more rows than the
    piece has, no more columns than it has. *)
Theorem completed_lines_bounded (g g1 : Grid.t) (p : Piece.t) (r c : Z) :
  Grid.wf g →
  Grid.findCompleteRows g = [] → Grid.findCompleteCols g = [] →
  Game.fillCells g (Piece.color p) r c (Piece.getFilledCells p) = Some g1 →
  (∀ row, row ∈ Grid.findCompleteRows g1 →
          ∃ dr, dr < Piece.rows p ∧ Z.of_nat row = (r + Z.of_nat dr)%Z) ∧
  (∀ col, col ∈ Grid.findCompleteCols g1 →
          ∃ dc, dc < Piece.cols p ∧ Z.of_nat col = (c + Z.of_nat dc)%Z) ∧
  (length (Grid.findCompleteRows g1) ≤ Piece.rows p)%nat ∧
  (length (Grid.findCompleteCols g1) ≤ Piece.cols p)%nat.
Proof.
  intros Hwf Hrows Hcols Hfill.
  destruct (fillCells_general (Piece.getFilledCells p) g (Piece.color p) r c Hwf)
    as (g' & Hg' & _ & Hsz & _).
  rewrite Hfill in Hg'. injection Hg' as <-.
  assert (Hr : ∀ row, row ∈ Grid.findCompleteRows g1 →
                      ∃ dr, dr < Piece.rows p ∧ Z.of_nat row = (r + Z.of_nat dr)%Z).
  { intros row Hrow.
    destruct (completed_row_through_piece g g1 _ r c _ row Hwf Hfill) as (dr & dc & Hin & Heq);
      [|done|].
    - apply (not_complete_of_nil [] _ (Grid.size g)); [done|].
      apply elem_of_findCompleteRows in Hrow. lia.
    - apply getFilledCells_spec in Hin. exists dr. tauto. }
  assert (Hc : ∀ col, col ∈ Grid.findCompleteCols g1 →
                      ∃ dc, dc < Piece.cols p ∧ Z.of_nat col = (c + Z.of_nat dc)%Z).
  { intros col Hcol.
    destruct (completed_col_through_piece g g1 _ r c _ col Hwf Hfill) as (dr & dc & Hin & Heq);
      [|done|].
    - apply (not_complete_of_nil [] _ (Grid.size g)); [done|].
      apply elem_of_findCompleteCols in Hcol. lia.
    - apply getFilledCells_spec in Hin. exists dc. tauto. }
  split; [done|]. split; [done|]. split.
  - etrans; [|apply Nat.eq_le_incl;
                exact (eq_trans (length_fmap (fun dr => Z.to_nat (r + Z.of_nat dr))
                                   (seq 0 (Piece.rows p)))
                                (length_seq _ _))].
    apply submseteq_length, NoDup_submseteq; [apply findCompleteRows_NoDup|].
    intros row Hrow. destruct (Hr row Hrow) as (dr & Hdr & Heq).
    apply list_elem_of_fmap. exists dr. split; [lia|]. apply elem_of_seq. lia.
  - etrans; [|apply Nat.eq_le_incl;
                exact (eq_trans (length_fmap (fun dc => Z.to_nat (c + Z.of_nat dc))
                                   (seq 0 (Piece.cols p)))
                                (length_seq _ _))].
    apply submseteq_length, NoDup_submseteq; [apply findCompleteCols_NoDup|].
    intros col Hcol. destruct (Hc col Hcol) as (dc & Hdc & Heq).
    apply list_elem_of_fmap. exists dc. split; [lia|]. apply elem_of_seq. lia.
Qed.

Lemma completed_lines_bounded_witness :
  ∃ g1, Game.fillCells grid_cross_open (Piece.color piece_line3v) 0 0
          (Piece.getFilledCells piece_line3v) = Some g1 ∧
        (length (Grid.findCompleteRows g1) ≤ Piece.rows piece_line3v)%nat ∧
        (length (Grid.findCompleteCols g1) ≤ Piece.cols piece_line3v)%nat.
Proof.
  destruct (Game.fillCells grid_cross_open (Piece.color piece_line3v) 0 0
              (Piece.getFilledCells piece_line3v)) as [g1|] eqn:Hfill;
    [|vm_compute in Hfill; discriminate].
  exists g1. split; [reflexivity|].
  apply (completed_lines_bounded grid_cross_open g1 piece_line3v 0 0 grid_cross_open_wf);
    [reflexivity|reflexivity|exact Hfill].
Defined.

(** X6. After [placePiece] no line of the board is complete, whatever was
    placed and wherever. *)
Theorem placePiece_leaves_no_line (game game' : Game.t) (piece : Piece.t) (r c : Z)
    (trayIndex : nat) (u : draws) :
  Grid.wf (Game.grid game) → 0 < Grid.size (Game.grid game) →
  Game.placePiece game piece r c trayIndex u = Some game' →
  Grid.wf (Game.grid game') ∧
  Grid.size (Game.grid game') = Grid.size (Game.grid game) ∧
  Grid.findCompleteRows (Game.grid game') = [] ∧
  Grid.findCompleteCols (Game.grid game') = [].
Proof.
  intros Hwf Hpos. unfold Game.placePiece.
  destruct (fillCells_wf (Piece.getFilledCells piece) (Game.grid game) (Piece.color piece)
              r c Hwf) as (g1 & Hg1 & Hwf1 & Hsz1).
  cbn [Game.grid Game.with_isAnimating]. rewrite Hg1. cbn [mbind option_bind].
  set (game0 := Game.addScore _ _).
  destruct (checkAndClearLines_spec game0 Hwf1) as (game1 & Hclear & Hwf2 & Hsz2 & _).
  rewrite Hclear. cbn [mbind option_bind].
  destruct (checkAndClearLines_leaves_no_line game0 game1 Hwf1) as [Hrows Hcols];
    [change (0 < Grid.size g1); by rewrite Hsz1|done|].
  destruct (Game.checkAndRefillTray game1 u) as [game2|] eqn:Hrefill; [|discriminate].
  cbn [mbind option_bind].
  assert (Hgrid : Game.grid game2 = Game.grid game1).
  { unfold Game.checkAndRefillTray, Game.refillTray, Game.generateTrayPieces in Hrefill.
    destruct (forallb _ _); [|by injection Hrefill as <-].
    destruct (Piece.createRandom (draw1 u)); [|discriminate].
    destruct (Piece.createRandom (draw2 u)); [|discriminate].
    destruct (Piece.createRandom (draw3 u)); [|discriminate].
    by injection Hrefill as <-. }
  change (Game.grid game0) with g1 in Hsz2.
  destruct (Game.checkGameOver game2); intros [= <-]; simpl; rewrite Hgrid;
    (split; [done|]); (split; [congruence|done]).
Qed.

Lemma placePiece_leaves_no_line_witness :
  ∃ game', Game.placePiece game_cross piece_line3v 0 0 1 draws_sample = Some game' ∧
           Grid.findCompleteRows (Game.grid game') = [] ∧
           Grid.findCompleteCols (Game.grid game') = [].
Proof.
  destruct (Game.placePiece game_cross piece_line3v 0 0 1 draws_sample) as [game'|] eqn:Hplace;
    [|vm_compute in Hplace; discriminate].
  exists game'. split; [reflexivity|].
  apply (placePiece_leaves_no_line game_cross game' piece_line3v 0 0 1 draws_sample
           grid_cross_open_wf); [simpl; lia|exact Hplace].
Defined.

(* ===================================================================== *)
(** ** The game as the player drives it                                    *)
(* ===================================================================== *)

Lemma checkGameOver_any_anchor_witness :
  Game.checkGameOver game_stuck = true ∧
  ∀ (i : nat) (piece : Piece.t) (row col : Z),
    Game.trayPieces game_stuck !! i = Some (Some piece) →
    Grid.canPlacePiece (Game.grid game_stuck) piece row col = false.
Proof.
  assert (Htight : ∀ i piece, Game.trayPieces game_stuck !! i = Some (Some piece) →
                              touchesBox piece = true).
  { intros [|[|[|i]]] piece H; simpl in H; try discriminate.
    injection H as <-. reflexivity. }
  split; [reflexivity|].
  apply (proj1 (checkGameOver_any_anchor game_stuck Htight)). reflexivity.
Defined.

(** *** A drag from the tray *)

(** What pointer down, then pointer up, on a controller at rest can
    do. *)
Lemma drag_cycle_inv (game game' : Game.t) (target : option nat) (gridPos : option (Z * Z))
    (u : draws) (dc' : DragController.t) :
  DragController.handlePointerUp
    (DragController.handlePointerDown new_DragController game target) game gridPos u
  = Some (dc', game') →
  dc' = new_DragController ∧
  (game' = game ∨
   ∃ index piece row col,
     Game.canInteract game = true ∧ target = Some index ∧
     Game.trayPieces game !! index = Some (Some piece) ∧
     gridPos = Some (row, col) ∧
     Grid.canPlacePiece (Game.grid game) piece row col = true ∧
     Game.placePiece game piece row col index u = Some game').
Proof.
  unfold DragController.handlePointerDown.
  destruct (Game.canInteract game) eqn:Hcan; simpl; [|by intros [= <- <-]; auto].
  destruct target as [index|]; [|by intros [= <- <-]; auto].
  destruct (Game.trayPieces game !! index) as [[piece|]|] eqn:Hslot;
    [|by intros [= <- <-]; auto..].
  unfold DragController.handlePointerUp. simpl.
  destruct gridPos as [[row col]|]; [|by intros [= <- <-]; auto].
  destruct (Grid.canPlacePiece (Game.grid game) piece row col) eqn:Hfit;
    [|by intros [= <- <-]; auto].
  destruct (Game.placePiece game piece row col index u) as [game''|] eqn:Hplace;
    [|discriminate].
  simpl. intros [= <- <-]. split; [done|]. right. exists index, piece, row, col. done.
Qed.

(** X8. A drag never throws and ends with the controller at rest. It
    changes the game only when the game accepts input (not over, not
    animating), the pointer went down on a tray slot that holds a piece,
    and came up at a cell where [canPlacePiece] accepts that piece; the
    change is then [placePiece] of that piece, with the index of its
    slot. *)
Theorem drag_cycle (game : Game.t) (target : option nat) (gridPos : option (Z * Z))
    (u : draws) :
  Grid.wf (Game.grid game) → validDraws u →
  ∃ game',
    DragController.handlePointerUp
      (DragController.handlePointerDown new_DragController game target) game gridPos u
    = Some (new_DragController, game') ∧
    (game' = game ∨
     ∃ index piece row col,
       Game.canInteract game = true ∧ target = Some index ∧
       Game.trayPieces game !! index = Some (Some piece) ∧
       gridPos = Some (row, col) ∧
       Grid.canPlacePiece (Game.grid game) piece row col = true ∧
       Game.placePiece game piece row col index u = Some game').
Proof.
  intros Hwf Hu.
  destruct (DragController.handlePointerUp
              (DragController.handlePointerDown new_DragController game target) game gridPos u)
    as [[dc' game']|] eqn:Hup.
  - destruct (drag_cycle_inv _ _ _ _ _ _ Hup) as [-> Hgame]. eauto.
  - exfalso. revert Hup. unfold DragController.handlePointerDown.
    destruct (Game.canInteract game); simpl; [|discriminate].
    destruct target as [index|]; [|discriminate].
    destruct (Game.trayPieces game !! index) as [[piece|]|]; [|discriminate..].
    unfold DragController.handlePointerUp. simpl.
    destruct gridPos as [[row col]|]; [|discriminate].
    destruct (Grid.canPlacePiece (Game.grid game) piece row col); [|discriminate].
    destruct (placePiece_run game piece row col index u Hwf Hu)
      as (? & ? & ? & game' & _ & _ & _ & _ & -> & _).
    discriminate.
Qed.

Lemma drag_cycle_witness :
  Game.canInteract game_cross = true ∧
  ∃ game',
    DragController.handlePointerUp
      (DragController.handlePointerDown new_DragController game_cross (Some 1)) game_cross
      (Some (0, 0)%Z) draws_sample
    = Some (new_DragController, game') ∧
    Game.placePiece game_cross piece_line3v 0 0 1 draws_sample = Some game' ∧
    Game.score game' = 2030%Z.
Proof.
  split; [reflexivity|].
  destruct (drag_cycle game_cross (Some 1) (Some (0, 0)%Z) draws_sample
              grid_cross_open_wf draws_sample_valid) as (game' & Hrun & Hcase).
  exists game'. split; [exact Hrun|].
  assert (Hplace : Game.placePiece game_cross piece_line3v 0 0 1 draws_sample = Some game').
  { destruct Hcase as [->|(index & piece & row & col & _ & Hi & Hp & Hg & _ & Hplace)].
    - vm_compute in Hrun. discriminate Hrun.
    - injection Hi as <-. injection Hg as <- <-. injection Hp as <-. exact Hplace. }
  split; [exact Hplace|].
  vm_compute in Hplace. injection Hplace as <-. reflexivity.
Defined.

(** *** New games *)

Lemma canPieceFitAnywhere_grid (a b : Game.t) (p : Piece.t) :
  Game.grid a = Game.grid b → Game.canPieceFitAnywhere a p = Game.canPieceFitAnywhere b p.
Proof. intros Hg. unfold Game.canPieceFitAnywhere. by rewrite Hg. Qed.

Lemma createRandom_inCatalogue (u : Q) (p : Piece.t) :
  Piece.createRandom u = Some p → inCatalogue p.
Proof.
  unfold Piece.createRandom.
  set (z := Qfloor (u * inject_Z (Z.of_nat (length PIECE_TYPES)))).
  destruct (elemAt PIECE_TYPES z) as [ty|] eqn:Hz; [|discriminate].
  intros Hnew. apply elemAt_Some in Hz as [_ Hz]. exists (Z.to_nat z).
  apply cataloguePieces_lookup. eauto.
Qed.

(** Every piece of the catalogue fits on the empty 8 x 8 board. *)
Lemma catalogue_fits_empty_board (game : Game.t) (p : Piece.t) :
  Game.grid game = Grid.new 8 → inCatalogue p → Game.canPieceFitAnywhere game p = true.
Proof.
  intros Hgrid [k Hk].
  rewrite (canPieceFitAnywhere_grid game game_start p Hgrid).
  assert (Hall : Forall (fun op => match op with
                                   | Some q => Game.canPieceFitAnywhere game_start q = true
                                   | None => True
                                   end) cataloguePieces).
  { vm_compute. repeat constructor. }
  rewrite Forall_lookup in Hall. apply (Hall _ _ Hk).
Qed.

Lemma generateTrayPieces_inv (game game' : Game.t) (u : draws) :
  Game.generateTrayPieces game u = Some game' →
  ∃ p1 p2 p3, inCatalogue p1 ∧ inCatalogue p2 ∧ inCatalogue p3 ∧
              game' = Game.with_trayPieces game [Some p1; Some p2; Some p3].
Proof.
  unfold Game.generateTrayPieces.
  destruct (Piece.createRandom (draw1 u)) as [p1|] eqn:H1; [|discriminate].
  destruct (Piece.createRandom (draw2 u)) as [p2|] eqn:H2; [|discriminate].
  destruct (Piece.createRandom (draw3 u)) as [p3|] eqn:H3; [|discriminate].
  simpl. intros [= <-]. exists p1, p2, p3.
  repeat split; by eapply createRandom_inCatalogue.
Qed.

(** The state in which a game on the empty 8 x 8 board begins. *)
Lemma fresh_game_invariant (p1 p2 p3 : Piece.t) :
  inCatalogue p1 → inCatalogue p2 → inCatalogue p3 →
  gameInvariant {| Game.grid := Grid.new 8; Game.score := 0;
                   Game.trayPieces := [Some p1; Some p2; Some p3];
                   Game.isAnimating := false; Game.isGameOver := false |}.
Proof.
  intros H1 H2 H3. split; simpl; try done.
  - apply wf_new.
  - intros [|[|[|i]]] p; simpl; intros [= <-]; done.
  - by exists 0, p1.
  - symmetry. apply checkGameOver_false. exists 0, p1. split; [done|].
    by apply catalogue_fits_empty_board.
Qed.

Lemma new_Game_invariant (u : draws) (game : Game.t) :
  new_Game u = Some game → gameInvariant game.
Proof.
  intros Hnew. apply generateTrayPieces_inv in Hnew as (p1 & p2 & p3 & H1 & H2 & H3 & ->).
  exact (fresh_game_invariant p1 p2 p3 H1 H2 H3).
Qed.

Lemma startNewGame_invariant (game game' : Game.t) (u : draws) :
  Grid.size (Game.grid game) = 8 →
  Game.startNewGame game u = Some game' → gameInvariant game'.
Proof.
  intros Hsz Hnew. apply generateTrayPieces_inv in Hnew as (p1 & p2 & p3 & H1 & H2 & H3 & ->).
  unfold Game.with_trayPieces, Grid.reset. simpl. rewrite Hsz.
  exact (fresh_game_invariant p1 p2 p3 H1 H2 H3).
Qed.

(** Every cell of a new grid is [null]. *)
Lemma new_cellAt (n : nat) (row col : Z) :
  Grid.isValidCell (Grid.new n) row col = true → Grid.cellAt (Grid.new n) row col = Some None.
Proof.
  intros Hv. apply isValidCell_spec in Hv. cbn [Grid.size Grid.new] in Hv.
  apply cellAt_Some. split; [lia|]. split; [lia|]. exists (replicate n None).
  unfold Grid.new, Grid.createEmptyState. cbn [Grid.state].
  split; apply lookup_replicate_2; lia.
Qed.

(** X9. [startNewGame] in any state of a game on the 8 x 8 board, even over
    or in the middle of an animation: the board is empty, the score 0,
    the tray holds three pieces of the catalogue, and the new game is not
    over: a piece of the tray fits. *)
Theorem startNewGame_fresh (game : Game.t) (u : draws) :
  Grid.size (Game.grid game) = 8 → validDraws u →
  ∃ game' p1 p2 p3,
    Game.startNewGame game u = Some game' ∧
    Game.grid game' = Grid.new 8 ∧
    (∀ row col, Grid.isValidCell (Game.grid game') row col = true →
                Grid.cellAt (Game.grid game') row col = Some None) ∧
    Game.score game' = 0%Z ∧
    Game.trayPieces game' = [Some p1; Some p2; Some p3] ∧
    inCatalogue p1 ∧ inCatalogue p2 ∧ inCatalogue p3 ∧
    Game.isAnimating game' = false ∧
    Game.isGameOver game' = false ∧
    Game.checkGameOver game' = false.
Proof.
  intros Hsz Hu.
  destruct (startNewGame_spec game u Hu) as (game' & Hnew & _).
  pose proof (startNewGame_invariant _ _ _ Hsz Hnew) as Hinv.
  pose proof Hnew as Hnew'.
  apply generateTrayPieces_inv in Hnew' as (p1 & p2 & p3 & H1 & H2 & H3 & Heq).
  exists game', p1, p2, p3. split; [done|].
  assert (Hgrid : Game.grid game' = Grid.new 8).
  { rewrite Heq. unfold Grid.reset. simpl. by rewrite Hsz. }
  split; [done|]. split.
  { intros row col Hv. rewrite Hgrid in Hv |- *. by apply new_cellAt. }
  assert (Hover : Game.isGameOver game' = false) by by rewrite Heq.
  rewrite Heq at 1 2 3. simpl. repeat (split; [done|]).
  by rewrite <- (inv_isGameOver _ Hinv).
Qed.

Lemma startNewGame_fresh_witness :
  ∃ game', Game.startNewGame game_stuck draws_sample = Some game' ∧
           Game.grid game' = Grid.new 8 ∧
           Game.score game' = 0%Z ∧
           Game.checkGameOver game' = false.
Proof.
  destruct (startNewGame_fresh game_stuck draws_sample eq_refl draws_sample_valid)
    as (game' & p1 & p2 & p3 & Hnew & Hgrid & _ & Hscore & _ & _ & _ & _ & _ & _ & Hover).
  exists game'. split; [exact Hnew|]. split; [exact Hgrid|]. split; [exact Hscore|exact Hover].
Defined.

(** *** The invariant *)

Lemma checkAndRefillTray_inv (game game' : Game.t) (u : draws) :
  Game.checkAndRefillTray game u = Some game' →
  Game.grid game' = Game.grid game ∧
  Game.score game' = Game.score game ∧
  Game.isGameOver game' = Game.isGameOver game ∧
  Game.isAnimating game' = Game.isAnimating game ∧
  ((Game.trayPieces game' = Game.trayPieces game ∧
    ∃ i p, Game.trayPieces game !! i = Some (Some p)) ∨
   ∃ p1 p2 p3, inCatalogue p1 ∧ inCatalogue p2 ∧ inCatalogue p3 ∧
               Game.trayPieces game' = [Some p1; Some p2; Some p3]).
Proof.
  unfold Game.checkAndRefillTray, Game.refillTray.
  destruct (forallb _ (Game.trayPieces game)) eqn:Hall.
  - intros Hgen. apply generateTrayPieces_inv in Hgen as (p1 & p2 & p3 & H1 & H2 & H3 & ->).
    repeat (split; [done|]). right. exists p1, p2, p3. done.
  - intros [= <-]. repeat (split; [done|]). left. split; [done|].
    apply forallb_false_elem_of in Hall as ([p|] & Hin & Hp); [|discriminate].
    apply list_elem_of_lookup in Hin as [i Hi]. eauto.
Qed.

Lemma placePiece_inv (game game' : Game.t) (piece : Piece.t) (r c : Z)
    (trayIndex : nat) (u : draws) :
  Grid.wf (Game.grid game) →
  Game.placePiece game piece r c trayIndex u = Some game' →
  ∃ g1 game1 game2,
    Game.fillCells (Game.grid game) (Piece.color piece) r c (Piece.getFilledCells piece)
      = Some g1 ∧
    Grid.wf g1 ∧ Grid.size g1 = Grid.size (Game.grid game) ∧
    Game.checkAndClearLines
      (Game.addScore
         (Game.removePieceFromTray (Game.with_grid (Game.with_isAnimating game true) g1) trayIndex)
         (Z.of_nat (length (Piece.getFilledCells piece)) * 10)) = Some game1 ∧
    Game.checkAndRefillTray game1 u = Some game2 ∧
    game' = (if Game.checkGameOver game2
             then Game.triggerGameOver (Game.with_isAnimating game2 false)
             else Game.with_isAnimating game2 false).
Proof.
  intros Hwf. unfold Game.placePiece.
  destruct (fillCells_wf (Piece.getFilledCells piece) (Game.grid game) (Piece.color piece)
              r c Hwf) as (g1 & Hg1 & Hwf1 & Hsz1).
  cbn [Game.grid Game.with_isAnimating]. rewrite Hg1. cbn [mbind option_bind].
  set (game0 := Game.addScore _ _).
  destruct (Game.checkAndClearLines game0) as [game1|] eqn:Hclear; [|discriminate].
  cbn [mbind option_bind].
  destruct (Game.checkAndRefillTray game1 u) as [game2|] eqn:Hrefill; [|discriminate].
  cbn [mbind option_bind]. intros Hfinal. exists g1, game1, game2.
  repeat (split; [done|]). by destruct (Game.checkGameOver game2); injection Hfinal as <-.
Qed.

(** A placement with an index of the tray, in a game that is not over,
    keeps the invariant. *)
Lemma placePiece_invariant (game game' : Game.t) (piece : Piece.t) (r c : Z)
    (trayIndex : nat) (u : draws) :
  gameInvariant game → Game.isGameOver game = false →
  trayIndex < length (Game.trayPieces game) →
  Game.placePiece game piece r c trayIndex u = Some game' →
  gameInvariant game'.
Proof.
  intros Hinv Hover Hidx Hplace.
  destruct (placePiece_inv _ _ _ _ _ _ _ (inv_wf _ Hinv) Hplace)
    as (g1 & game1 & game2 & Hfill & Hwf1 & Hsz1 & Hclear & Hrefill & Hfinal).
  set (game0 := Game.addScore _ _) in Hclear.
  destruct (checkAndClearLines_spec game0 Hwf1)
    as (game1' & Hclear' & Hwf2 & Hsz2 & Htray1 & Hover1 & _ & Hscore1).
  rewrite Hclear in Hclear'. injection Hclear' as <-.
  change (Game.grid game0) with g1 in Hsz2, Hscore1.
  change (Game.score game0)
    with (Game.score game + Z.of_nat (length (Piece.getFilledCells piece)) * 10)%Z in Hscore1.
  change (Game.isGameOver game0) with (Game.isGameOver game) in Hover1.
  assert (Htray0 : Game.trayPieces game0 = <[trayIndex := None]> (Game.trayPieces game)).
  { unfold game0. simpl. by rewrite bool_decide_true. }
  rewrite Htray0 in Htray1.
  destruct (checkAndClearLines_leaves_no_line game0 game1 Hwf1) as [Hrows Hcols];
    [change (0 < Grid.size g1); rewrite Hsz1, (inv_size _ Hinv); lia|done|].
  destruct (checkAndRefillTray_inv _ _ _ Hrefill) as (Hgrid2 & Hscore2 & Hover2 & _ & Htray2).
  assert (Hg : Game.grid game' = Game.grid game1).
  { rewrite Hfinal. destruct (Game.checkGameOver game2); simpl; done. }
  assert (Ht : Game.trayPieces game' = Game.trayPieces game2).
  { rewrite Hfinal. by destruct (Game.checkGameOver game2). }
  split.
  - by rewrite Hg.
  - rewrite Hg, Hsz2, Hsz1. apply (inv_size _ Hinv).
  - rewrite Ht. destruct Htray2 as [[-> _]|(p1 & p2 & p3 & _ & _ & _ & ->)]; [|done].
    rewrite Htray1, length_insert. apply (inv_tray_length _ Hinv).
  - intros i p. rewrite Ht.
    destruct Htray2 as [[-> _]|(p1 & p2 & p3 & H1 & H2 & H3 & ->)].
    + rewrite Htray1. destruct (decide (i = trayIndex)) as [->|Hne].
      * rewrite list_lookup_insert_eq by done. discriminate.
      * rewrite list_lookup_insert_ne by done. apply (inv_tray_catalogue _ Hinv).
    + destruct i as [|[|[|i]]]; simpl; intros [= <-]; done.
  - rewrite Ht. destruct Htray2 as [[-> Hp]|(p1 & p2 & p3 & _ & _ & _ & ->)]; [done|].
    by exists 0, p1.
  - by rewrite Hg.
  - by rewrite Hg.
  - assert (Hs : Game.score game' = Game.score game2).
    { rewrite Hfinal. by destruct (Game.checkGameOver game2). }
    rewrite Hs, Hscore2, Hscore1. pose proof (inv_score _ Hinv).
    set (total := Z.of_nat (length (Grid.findCompleteRows g1) +
                            length (Grid.findCompleteCols g1))).
    assert (0 ≤ total)%Z by (unfold total; lia).
    destruct (total =? 0)%Z; nia.
  - rewrite Hfinal. by destruct (Game.checkGameOver game2).
  - assert (Hc : Game.checkGameOver game' = Game.checkGameOver game2).
    { apply checkGameOver_ext; [by rewrite Hg|done]. }
    rewrite Hc, Hfinal. destruct (Game.checkGameOver game2); simpl; [done|].
    by rewrite Hover2, Hover1.
Qed.

(** *** The turns of a placement *)

Lemma placePiece_begin_spec (game : Game.t) (piece : Piece.t) (r c : Z) (trayIndex : nat) :
  Grid.wf (Game.grid game) →
  ∃ g1,
    Game.fillCells (Game.grid game) (Piece.color piece) r c (Piece.getFilledCells piece)
    = Some g1 ∧ Grid.wf g1 ∧ Grid.size g1 = Grid.size (Game.grid game) ∧
    Async.placePiece_begin game piece r c trayIndex
    = Some (Game.addScore
              (Game.removePieceFromTray
                 (Game.with_grid (Game.with_isAnimating game true) g1) trayIndex)
              (Z.of_nat (length (Piece.getFilledCells piece)) * 10)).
Proof.
  intros Hwf.
  destruct (fillCells_wf (Piece.getFilledCells piece) (Game.grid game) (Piece.color piece)
              r c Hwf) as (g1 & Hg1 & Hwf1 & Hsz1).
  exists g1. repeat (split; [done|]). unfold Async.placePiece_begin.
  cbn [Game.grid Game.with_isAnimating]. by rewrite Hg1.
Qed.

Lemma checkAndClearLines_begin_spec (game : Game.t) :
  ∃ found, Async.checkAndClearLines_begin game = Some found ∧
    match found with
    | None => Grid.findCompleteRows (Game.grid game) = [] ∧
              Grid.findCompleteCols (Game.grid game) = []
    | Some (cells, total) =>
        total = length (Grid.findCompleteRows (Game.grid game)) +
                length (Grid.findCompleteCols (Game.grid game)) ∧
        0 < total ∧
        Grid.getCellsToClear (Game.grid game) (Grid.findCompleteRows (Game.grid game))
          (Grid.findCompleteCols (Game.grid game)) = Some cells
    end.
Proof.
  unfold Async.checkAndClearLines_begin. cbv zeta.
  destruct (Nat.eqb_spec (length (Grid.findCompleteRows (Game.grid game)) +
                          length (Grid.findCompleteCols (Game.grid game))) 0) as [Hz|Hnz].
  - exists None. split; [done|].
    destruct (Grid.findCompleteRows (Game.grid game)); [|simpl in Hz; lia].
    destruct (Grid.findCompleteCols (Game.grid game)); [done|simpl in Hz; lia].
  - destruct (getCellsToClear_cells (Game.grid game) (Grid.findCompleteRows (Game.grid game))
                (Grid.findCompleteCols (Game.grid game))) as (cells & Hcells & _).
    rewrite Hcells. eexists. split; [done|]. cbn. split; [done|]. split; [lia|done].
Qed.

(** The turns of [placePiece], run one after the other, are
    [Game.placePiece]. *)
Lemma placePiece_in_turns (game : Game.t) (piece : Piece.t) (r c : Z) (trayIndex : nat)
    (u : draws) :
  Game.placePiece game piece r c trayIndex u
  = (game1 ← Async.placePiece_begin game piece r c trayIndex;
     '(game2, next) ← Async.resume game1 Async.AtPlaceDelay u;
     match next with
     | None => Some game2
     | Some sus => '(game3, _) ← Async.resume game2 sus u; Some game3
     end).
Proof.
  unfold Game.placePiece, Async.placePiece_begin. cbv zeta.
  destruct (Game.fillCells _ _ _ _ _) as [g1|]; [|reflexivity]. cbn [mbind option_bind].
  set (game1 := Game.addScore _ _).
  unfold Game.checkAndClearLines. cbv zeta.
  change (Async.resume game1 Async.AtPlaceDelay u)
    with (found ← Async.checkAndClearLines_begin game1;
          match found with
          | Some (cellsToClear, totalLines) =>
              Some (game1, Some (Async.AtClearDelay cellsToClear totalLines))
          | None => game' ← Async.placePiece_end game1 u; Some (game', None)
          end).
  unfold Async.checkAndClearLines_begin. cbv zeta.
  destruct (Nat.eqb _ 0).
  - cbn [mbind option_bind]. unfold Async.placePiece_end.
    destruct (Game.checkAndRefillTray game1 u) as [game2|]; [|reflexivity].
    cbn [mbind option_bind]. destruct (Game.checkGameOver game2); reflexivity.
  - destruct (Grid.getCellsToClear _ _ _) as [cells|]; [|reflexivity].
    cbn [mbind option_bind].
    change (Async.resume game1 (Async.AtClearDelay cells ?n) u)
      with (game ← Async.checkAndClearLines_end game1 cells n;
            game' ← Async.placePiece_end game u;
            Some (game', @None Async.suspension)).
    unfold Async.checkAndClearLines_end. cbv zeta.
    destruct (Grid.clearCells (Game.grid game1) cells) as [g2|]; [|reflexivity].
    cbn [mbind option_bind]. unfold Async.placePiece_end.
    destruct (Game.checkAndRefillTray _ u) as [game2|]; [|reflexivity].
    cbn [mbind option_bind]. destruct (Game.checkGameOver game2); reflexivity.
Qed.

Lemma placePiece_end_inv (game game' : Game.t) (u : draws) :
  Async.placePiece_end game u = Some game' →
  Game.grid game' = Game.grid game ∧
  Game.score game' = Game.score game ∧
  Game.isAnimating game' = false ∧
  Game.isGameOver game' = Game.checkGameOver game' || Game.isGameOver game ∧
  ((Game.trayPieces game' = Game.trayPieces game ∧
    ∃ i p, Game.trayPieces game !! i = Some (Some p)) ∨
   ∃ p1 p2 p3, inCatalogue p1 ∧ inCatalogue p2 ∧ inCatalogue p3 ∧
               Game.trayPieces game' = [Some p1; Some p2; Some p3]).
Proof.
  unfold Async.placePiece_end.
  destruct (Game.checkAndRefillTray game u) as [game2|] eqn:Hrefill; [|discriminate].
  cbn [mbind option_bind].
  destruct (checkAndRefillTray_inv _ _ _ Hrefill) as (Hgrid & Hscore & Hover & _ & Htray).
  assert (Hc : ∀ g, Game.grid g = Game.grid game2 → Game.trayPieces g = Game.trayPieces game2 →
                    Game.checkGameOver g = Game.checkGameOver game2).
  { intros g Hg Ht. by apply checkGameOver_ext. }
  destruct (Game.checkGameOver game2) eqn:Hcheck; intros [= <-];
    (split; [done|]); (split; [done|]); (split; [done|]); (split; [|done]);
    rewrite Hc by done; cbn; [done|by rewrite Hover].
Qed.

Lemma placePiece_end_total (game : Game.t) (u : draws) :
  validDraws u → is_Some (Async.placePiece_end game u).
Proof.
  intros Hu. unfold Async.placePiece_end.
  destruct (checkAndRefillTray_spec game u Hu) as (game2 & -> & _).
  cbn [mbind option_bind]. by destruct (Game.checkGameOver game2).
Qed.

Lemma checkAndClearLines_end_spec (game : Game.t) (cells : list (nat * nat)) (total : nat) :
  Grid.wf (Game.grid game) →
  (∀ row col, (row, col) ∈ cells →
              row < Grid.size (Game.grid game) ∧ col < Grid.size (Game.grid game)) →
  ∃ game', Async.checkAndClearLines_end game cells total = Some game' ∧
           Grid.wf (Game.grid game') ∧
           Grid.size (Game.grid game') = Grid.size (Game.grid game) ∧
           Game.trayPieces game' = Game.trayPieces game ∧
           Game.isGameOver game' = Game.isGameOver game ∧
           Game.isAnimating game' = Game.isAnimating game ∧
           Game.score game' = (Game.score game + 500 * Z.of_nat total * Z.of_nat total)%Z.
Proof.
  intros Hwf Hcells. unfold Async.checkAndClearLines_end.
  destruct (clearCells_spec cells (Game.grid game) Hwf Hcells) as (g' & -> & Hwf' & Hsz & _).
  cbn [mbind option_bind]. eexists. split; [done|]. done.
Qed.

(** The tray and the flags after the first turn. *)
Lemma placePiece_begin_inv (game game' : Game.t) (piece : Piece.t) (r c : Z)
    (trayIndex : nat) :
  Grid.wf (Game.grid game) → trayIndex < length (Game.trayPieces game) →
  Async.placePiece_begin game piece r c trayIndex = Some game' →
  Grid.wf (Game.grid game') ∧
  Grid.size (Game.grid game') = Grid.size (Game.grid game) ∧
  Game.trayPieces game' = <[trayIndex := None]> (Game.trayPieces game) ∧
  Game.score game'
  = (Game.score game + Z.of_nat (length (Piece.getFilledCells piece)) * 10)%Z ∧
  Game.isAnimating game' = true ∧
  Game.isGameOver game' = Game.isGameOver game.
Proof.
  intros Hwf Hidx.
  destruct (placePiece_begin_spec game piece r c trayIndex Hwf) as (g1 & _ & Hwf1 & Hsz & ->).
  intros [= <-]. cbn. by rewrite bool_decide_true.
Qed.

(** *** The invariant of the page *)

Lemma initial_invariant (u : draws) (game : Game.t) :
  new_Game u = Some game → pageInvariant (Async.initial game).
Proof.
  intros Hnew. pose proof (new_Game_invariant _ _ Hnew) as Hinv.
  split; cbn [Async.initial Async.game Async.controller Async.suspended].
  - apply Hinv.
  - apply Hinv.
  - apply Hinv.
  - apply Hinv.
  - apply Hinv.
  - intros _. apply Hinv.
  - intros _. rewrite <- (inv_isGameOver _ Hinv).
    apply generateTrayPieces_inv in Hnew as (? & ? & ? & _ & _ & _ & ->). done.
  - by rewrite (inv_isAnimating _ Hinv).
  - discriminate.
  - constructor.
Qed.

Lemma step_invariant (s s' : Async.t) (e : Async.event) :
  pageInvariant s → Async.step s e = Some s' → pageInvariant s'.
Proof.
  intros Hinv. destruct e as [target|gridPos|gridPos|u|k u]; cbn [Async.step].
  2:{ (* pointer move *)
      intros [= <-]. split; cbn [Async.game Async.controller Async.suspended]; try apply Hinv.
      unfold Async.handlePointerMove.
      destruct (DragController.isDragging (Async.controller s)) eqn:Hdrag; cbn [negb];
        [|by rewrite Hdrag].
      intros _. apply (page_dragged _ Hinv Hdrag). }
  - (* pointer down *)
    intros [= <-]. split; cbn [Async.game Async.controller Async.suspended]; try apply Hinv.
    unfold DragController.handlePointerDown.
    destruct (negb (Game.canInteract (Async.game s))); [apply Hinv|].
    destruct target as [index|]; [|apply Hinv].
    destruct (Game.trayPieces (Async.game s) !! index) as [[piece|]|] eqn:Hslot;
      [|apply Hinv..].
    intros _. exists piece, index. repeat (split; [done|]). split.
    + rewrite <- (page_tray_length _ Hinv). by eapply lookup_lt_Some.
    + by eapply (page_tray_catalogue _ Hinv).
  - (* pointer up *)
    unfold Async.handlePointerUp. cbv zeta.
    destruct (DragController.isDragging (Async.controller s)) eqn:Hdrag; cbn [negb];
      [|by intros [= <-]].
    destruct (page_dragged _ Hinv Hdrag) as (piece & index & -> & -> & Hidx & Hcat).
    assert (Hkept : pageInvariant {| Async.game := Async.game s;
                                     Async.controller :=
                                       DragController.endDrag (Async.controller s);
                                     Async.suspended := Async.suspended s |}).
    { split; cbn [Async.game Async.controller Async.suspended]; try apply Hinv.
      discriminate. }
    destruct gridPos as [[row col]|]; [|by intros [= <-]].
    destruct (Grid.canPlacePiece _ piece row col); [|by intros [= <-]].
    destruct (Async.placePiece_begin (Async.game s) piece row col index) as [game'|] eqn:Hbegin;
      [|discriminate].
    cbn [mbind option_bind]. intros [= <-].
    rewrite <- (page_tray_length _ Hinv) in Hidx.
    destruct (placePiece_begin_inv _ _ _ _ _ _ (page_wf _ Hinv) Hidx Hbegin)
      as (Hwf' & Hsz' & Htray' & Hscore' & Hanim' & Hover').
    split; cbn [Async.game Async.controller Async.suspended].
    + done.
    + rewrite Hsz'. apply Hinv.
    + rewrite Htray', length_insert. apply Hinv.
    + intros i p. rewrite Htray'. destruct (decide (i = index)) as [->|Hne].
      * rewrite list_lookup_insert_eq by done. discriminate.
      * rewrite list_lookup_insert_ne by done. apply Hinv.
    + rewrite Hscore'. pose proof (page_score _ Hinv). lia.
    + rewrite Hanim'. discriminate.
    + unfold Game.canInteract. rewrite Hanim'. by rewrite andb_false_r.
    + intros _. by destruct (Async.suspended s).
    + discriminate.
    + apply Forall_app. split; [apply Hinv|]. by repeat constructor.
  - (* startNewGame *)
    destruct (Game.startNewGame (Async.game s) u) as [game'|] eqn:Hnew; [|discriminate].
    cbn [mbind option_bind]. intros [= <-].
    pose proof (startNewGame_invariant _ _ _ (page_size _ Hinv) Hnew) as Hfresh.
    split; cbn [Async.game Async.controller Async.suspended]; try apply Hfresh;
      try apply Hinv.
    + intros _. apply Hfresh.
    + intros Hcan. rewrite <- (inv_isGameOver _ Hfresh).
      unfold Game.canInteract in Hcan. apply andb_true_iff in Hcan as [Hover _].
      by apply negb_true_iff in Hover.
    + by rewrite (inv_isAnimating _ Hfresh).
  - (* a timeout *)
    destruct (Async.suspended s !! k) as [sus|] eqn:Hk; [|discriminate].
    cbn [mbind option_bind].
    destruct (Async.resume (Async.game s) sus u) as [[game' next]|] eqn:Hresume;
      [|discriminate].
    cbn [mbind option_bind]. intros [= <-].
    assert (Hend : ∀ game1,
              Grid.wf (Game.grid game1) → Grid.size (Game.grid game1) = 8 →
              Game.trayPieces game1 = Game.trayPieces (Async.game s) →
              (0 ≤ Game.score game1)%Z →
              Async.placePiece_end game1 u = Some game' →
              pageInvariant {| Async.game := game'; Async.controller := Async.controller s;
                               Async.suspended := delete k (Async.suspended s) |}).
    { intros game1 Hwf1 Hsz1 Htray1 Hscore1 Hfin.
      destruct (placePiece_end_inv _ _ _ Hfin) as (Hg & Hs & Ha & Ho & Ht).
      assert (Htray : length (Game.trayPieces game') = 3 ∧
                (∀ i p, Game.trayPieces game' !! i = Some (Some p) → inCatalogue p) ∧
                ∃ i p, Game.trayPieces game' !! i = Some (Some p)).
      { destruct Ht as [[-> Hp]|(p1 & p2 & p3 & H1 & H2 & H3 & ->)].
        - rewrite Htray1 in Hp |- *. split; [apply Hinv|]. split; [apply Hinv|done].
        - split; [done|]. split; [|by exists 0, p1].
          intros [|[|[|i]]] p; simpl; intros [= <-]; done. }
      destruct Htray as (Hlen & Hcat & Hpiece).
      split; cbn [Async.game Async.controller Async.suspended]; try done.
      - by rewrite Hg.
      - by rewrite Hg.
      - by rewrite Hs.
      - unfold Game.canInteract. rewrite Ho, Ha.
        destruct (Game.checkGameOver game'); [|done]. discriminate.
      - by rewrite Ha.
      - apply Hinv.
      - apply Forall_delete, Hinv. }
    destruct sus as [|cells total].
    + (* after delay(150) *)
      revert Hresume. cbn [Async.resume].
      destruct (checkAndClearLines_begin_spec (Async.game s)) as (found & -> & Hfound).
      cbn [mbind option_bind]. destruct found as [[cells total]|].
      * intros [= <- <-]. destruct Hfound as (_ & Htotal & Hcells).
        split; cbn [Async.game Async.controller Async.suspended]; try apply Hinv.
        -- intros Hanim Hnil. apply (f_equal length) in Hnil.
           rewrite length_insert in Hnil. apply lookup_lt_Some in Hk. simpl in Hnil. lia.
        -- apply Forall_insert; [apply Hinv|]. cbn. split; [done|]. intros row col Hin.
           destruct (getCellsToClear_cells (Game.grid (Async.game s))
                       (Grid.findCompleteRows (Game.grid (Async.game s)))
                       (Grid.findCompleteCols (Game.grid (Async.game s))))
             as (cells' & Hcells' & Hspec).
           rewrite Hcells in Hcells'. injection Hcells' as <-.
           apply Hspec in Hin. destruct Hin as [[Hrow Hcol]|[Hcol Hrow]].
           ++ apply elem_of_findCompleteRows in Hrow as [Hrow _].
              rewrite (page_size _ Hinv) in Hrow, Hcol. done.
           ++ apply elem_of_findCompleteCols in Hcol as [Hcol _].
              rewrite (page_size _ Hinv) in Hrow, Hcol. done.
      * destruct (Async.placePiece_end (Async.game s) u) as [game1|] eqn:Hfin; [|discriminate].
        cbn [mbind option_bind]. intros [= <- <-].
        apply (Hend (Async.game s)); try done; apply Hinv.
    + (* after delay(300) *)
      revert Hresume. cbn [Async.resume].
      assert (Hboard : suspensionOnBoard (Async.AtClearDelay cells total)).
      { pose proof (page_suspended _ Hinv) as Hall. rewrite Forall_lookup in Hall.
        by apply (Hall k). }
      cbn in Hboard. destruct Hboard as [_ Hboard].
      destruct (checkAndClearLines_end_spec (Async.game s) cells total (page_wf _ Hinv))
        as (game1 & -> & Hwf1 & Hsz1 & Htray1 & _ & _ & Hscore1).
      { by rewrite (page_size _ Hinv). }
      cbn [mbind option_bind].
      destruct (Async.placePiece_end game1 u) as [game2|] eqn:Hfin; [|discriminate].
      cbn [mbind option_bind]. intros [= <- <-].
      apply (Hend game1); try done.
      * rewrite Hsz1. apply Hinv.
      * rewrite Hscore1. pose proof (page_score _ Hinv). nia.
Qed.

Lemma step_total (s : Async.t) (e : Async.event) :
  pageInvariant s → enabled s e → is_Some (Async.step s e).
Proof.
  intros Hinv. destruct e as [target|gridPos|gridPos|u|k u]; cbn [Async.step enabled].
  - done.
  - done.
  - intros _. unfold Async.handlePointerUp. cbv zeta.
    destruct (DragController.isDragging (Async.controller s)) eqn:Hdrag; cbn [negb]; [|done].
    destruct (page_dragged _ Hinv Hdrag) as (piece & index & -> & -> & Hidx & Hcat).
    destruct gridPos as [[row col]|]; [|done].
    destruct (Grid.canPlacePiece _ piece row col); [|done].
    destruct (placePiece_begin_spec (Async.game s) piece row col index (page_wf _ Hinv))
      as (g1 & _ & _ & _ & ->). done.
  - intros Hu. destruct (startNewGame_spec (Async.game s) u Hu) as (game' & -> & _). done.
  - intros [Hk Hu]. destruct (lookup_lt_is_Some_2 _ _ Hk) as [sus Hsus]. rewrite Hsus.
    cbn [mbind option_bind].
    assert (Hres : is_Some (Async.resume (Async.game s) sus u)).
    { destruct sus as [|cells total]; cbn [Async.resume].
      - destruct (checkAndClearLines_begin_spec (Async.game s)) as (found & -> & _).
        cbn [mbind option_bind]. destruct found as [[cells total]|]; [done|].
        destruct (placePiece_end_total (Async.game s) u Hu) as [game' ->]. done.
      - assert (Hboard : suspensionOnBoard (Async.AtClearDelay cells total)).
        { pose proof (page_suspended _ Hinv) as Hall. rewrite Forall_lookup in Hall.
          by apply (Hall k). }
        cbn in Hboard. destruct Hboard as [_ Hboard].
        destruct (checkAndClearLines_end_spec (Async.game s) cells total (page_wf _ Hinv))
          as (game1 & -> & _).
        { by rewrite (page_size _ Hinv). }
        cbn [mbind option_bind].
        destruct (placePiece_end_total game1 u Hu) as [game' ->]. done. }
    destruct Hres as [[game' next] ->]. done.
Qed.

(** X10. In every state that the page can reach, whatever happened
    between the turns of a placement: the board is a well-formed 8 x 8
    grid; the tray has three slots and holds pieces of the catalogue;
    the score is not negative; whenever no animation is flagged the tray
    holds a piece, and whenever the game accepts input a piece of the
    tray fits; while an animation is flagged a call of [placePiece] is
    suspended whose timeout will end it; the piece being dragged is one
    of the catalogue with an index of the tray; and the cells that a
    suspended call will clear are cells of the board. *)
Theorem reachable_invariant (s : Async.t) : reachable s → pageInvariant s.
Proof.
  induction 1 as [u game Hnew|s s' e _ IH Hstep].
  - by eapply initial_invariant.
  - by eapply step_invariant.
Qed.

(** X21. No turn of the event loop throws: in every reachable state a
    pointer going down or up, [startNewGame] and the timeout of any
    suspended call of [placePiece] run to their end, and lead to a
    reachable state. *)
Theorem reachable_step (s : Async.t) (e : Async.event) :
  reachable s → enabled s e → ∃ s', Async.step s e = Some s' ∧ reachable s'.
Proof.
  intros Hreach Hen.
  assert (Hinv : pageInvariant s).
  { clear Hen. induction Hreach as [u game Hnew|s s' e' _ IH Hstep].
    - by eapply initial_invariant.
    - by eapply step_invariant. }
  destruct (step_total s e Hinv Hen) as [s' Hstep]. exists s'. split; [done|].
  by eapply reach_step.
Qed.

(** *** A placement from the drop to its last turn *)

(** X22. A drop that starts a placement, followed by the timeouts of
    that placement (one when no line is complete, two when lines are
    cleared) with nothing in between, amounts to [Game.placePiece]: the
    game after the last turn is the one that [placePiece] run in one go
    yields, and no call is suspended any more. *)
Theorem placement_settles (s s1 : Async.t) (gridPos : option (Z * Z)) (u : draws) :
  Grid.wf (Game.grid (Async.game s)) → validDraws u →
  Async.suspended s = [] →
  Async.step s (Async.PointerUp gridPos) = Some s1 →
  Async.suspended s1 ≠ [] →
  ∃ piece row col trayIndex events s2,
    DragController.draggedPiece (Async.controller s) = Some piece ∧
    DragController.draggedPieceIndex (Async.controller s) = Some trayIndex ∧
    gridPos = Some (row, col) ∧
    Grid.canPlacePiece (Game.grid (Async.game s)) piece row col = true ∧
    (events = [Async.Timeout 0 u] ∨ events = [Async.Timeout 0 u; Async.Timeout 0 u]) ∧
    Async.run s1 events = Some s2 ∧
    Async.suspended s2 = [] ∧
    Game.placePiece (Async.game s) piece row col trayIndex u = Some (Async.game s2).
Proof.
  intros Hwf Hu Hnone. cbn [Async.step]. unfold Async.handlePointerUp. cbv zeta.
  rewrite Hnone.
  destruct (DragController.isDragging (Async.controller s)); cbn [negb];
    [|by intros [= <-] Hne; rewrite Hnone in Hne].
  destruct gridPos as [[row col]|]; [|by intros [= <-] Hne].
  destruct (DragController.draggedPiece (Async.controller s)) as [piece|]; [|discriminate].
  destruct (Grid.canPlacePiece _ piece row col) eqn:Hfit; [|by intros [= <-] Hne].
  destruct (DragController.draggedPieceIndex (Async.controller s)) as [trayIndex|];
    [|discriminate].
  destruct (Async.placePiece_begin (Async.game s) piece row col trayIndex) as [game1|]
    eqn:Hbegin; [|discriminate].
  cbn [mbind option_bind app]. intros [= <-] _.
  pose proof (placePiece_in_turns (Async.game s) piece row col trayIndex u) as Hturns.
  rewrite Hbegin in Hturns. cbn [mbind option_bind] in Hturns.
  destruct (placePiece_run (Async.game s) piece row col trayIndex u Hwf Hu)
    as (_ & _ & _ & game' & _ & _ & _ & _ & Hplace & _).
  rewrite Hplace in Hturns.
  destruct (Async.resume game1 Async.AtPlaceDelay u) as [[game2 [sus|]]|] eqn:Hres1;
    cbn [mbind option_bind] in Hturns; [| |discriminate].
  - destruct (Async.resume game2 sus u) as [[game3 next]|] eqn:Hres2;
      cbn [mbind option_bind] in Hturns; [|discriminate].
    injection Hturns as ->.
    assert (Hnext : next = None).
    { revert Hres1 Hres2. cbn [Async.resume].
      destruct (Async.checkAndClearLines_begin game1) as [[[cells total]|]|];
        cbn [mbind option_bind]; [|by destruct (Async.placePiece_end game1 u)|discriminate].
      intros [= <- <-]. cbn [Async.resume].
      destruct (Async.checkAndClearLines_end game1 cells total) as [g|];
        cbn [mbind option_bind]; [|discriminate].
      destruct (Async.placePiece_end g u); cbn [mbind option_bind]; [|discriminate].
      by intros [= _ <-]. }
    subst next.
    exists piece, row, col, trayIndex, [Async.Timeout 0 u; Async.Timeout 0 u].
    eexists. repeat (split; [done|]). split; [by right|].
    cbn [Async.run Async.step Async.game Async.controller Async.suspended lookup
         list_lookup mbind option_bind].
    rewrite Hres1. cbn [mbind option_bind Async.game Async.controller Async.suspended
                        lookup list_lookup insert list_insert].
    rewrite Hres2. cbn [mbind option_bind]. done.
  - injection Hturns as ->.
    exists piece, row, col, trayIndex, [Async.Timeout 0 u].
    eexists. repeat (split; [done|]). split; [by left|].
    cbn [Async.run Async.step Async.game Async.controller Async.suspended lookup
         list_lookup mbind option_bind].
    rewrite Hres1. cbn [mbind option_bind]. done.
Qed.

(** *** Runs in which [startNewGame] waits for the animations *)

Lemma calm_step_invariant (s s' : Async.t) (e : Async.event) :
  calmInvariant s → calm s e → Async.step s e = Some s' → calmInvariant s'.
Proof.
  unfold calmInvariant. destruct s as [game dc suspended].
  cbn [Async.game Async.controller Async.suspended].
  destruct suspended as [|sus [|sus' rest]]; [| |done].
  - (* no suspended call *)
    intros [Hinv Hdc]. destruct e as [target|gridPos|gridPos|u|k u];
      cbn [Async.step calm Async.game Async.controller Async.suspended].
    2:{ intros _ [= <-]. cbn [Async.game Async.controller Async.suspended]. split; [done|].
        unfold Async.handlePointerMove.
        destruct (DragController.isDragging dc) eqn:Hdrag; cbn [negb]; [|by rewrite Hdrag].
        intros _. by apply Hdc. }
    + intros _ [= <-]. cbn [Async.game Async.controller Async.suspended]. split; [done|].
      unfold DragController.handlePointerDown.
      destruct (Game.canInteract game) eqn:Hcan; cbn [negb]; [|done].
      destruct target as [index|]; [|done].
      destruct (Game.trayPieces game !! index) as [[piece|]|] eqn:Hslot; [|done..].
      intros _. cbn. unfold Game.canInteract in Hcan. apply andb_true_iff in Hcan as [Hover _].
      apply negb_true_iff in Hover. split; [done|]. exists piece, index.
      repeat (split; [done|]). rewrite <- (inv_tray_length _ Hinv). by eapply lookup_lt_Some.
    + intros _. unfold Async.handlePointerUp. cbv zeta.
      cbn [Async.game Async.controller Async.suspended].
      assert (Hend : gameInvariant game ∧
                (DragController.isDragging (DragController.endDrag dc) = true →
                 Game.isGameOver game = false ∧
                 ∃ piece index,
                   DragController.draggedPiece (DragController.endDrag dc) = Some piece ∧
                   DragController.draggedPieceIndex (DragController.endDrag dc) = Some index ∧
                   index < 3)) by done.
      destruct (DragController.isDragging dc) eqn:Hdrag; cbn [negb];
        [|intros [= <-]; cbn [Async.game Async.controller Async.suspended];
          split; [done|]; by rewrite Hdrag].
      destruct (Hdc eq_refl) as (Hover & piece & index & Hp & Hi & Hidx).
      rewrite Hp, Hi.
      destruct gridPos as [[row col]|]; [|by intros [= <-]].
      destruct (Grid.canPlacePiece _ piece row col); [|by intros [= <-]].
      destruct (Async.placePiece_begin game piece row col index) as [game1|] eqn:Hbegin;
        [|discriminate].
      cbn [mbind option_bind app]. intros [= <-].
      cbn [Async.game Async.controller Async.suspended]. split; [done|].
      exists game, piece, row, col, index. done.
    + intros _. destruct (Game.startNewGame game u) as [game'|] eqn:Hnew; [|discriminate].
      cbn [mbind option_bind]. intros [= <-].
      cbn [Async.game Async.controller Async.suspended].
      pose proof (startNewGame_invariant _ _ _ (inv_size _ Hinv) Hnew) as Hfresh.
      split; [done|]. intros Hdrag. destruct (Hdc Hdrag) as (_ & Hrest).
      split; [|done].
      apply generateTrayPieces_inv in Hnew as (? & ? & ? & _ & _ & _ & ->). done.
    + intros _. cbn [Async.suspended]. by destruct k.
  - (* one suspended call *)
    intros (Hrest & game0 & piece & row & col & index & Hinv0 & Hover0 & Hidx & Hbegin & Hsus).
    pose proof (placePiece_in_turns game0 piece row col index) as Hturns.
    rewrite Hbegin in Hturns. cbn [mbind option_bind] in Hturns.
    assert (Hanim : Game.isAnimating game = true).
    { pose proof Hidx as Hidx'. rewrite <- (inv_tray_length _ Hinv0) in Hidx'.
      by destruct (placePiece_begin_inv _ _ _ _ _ _ (inv_wf _ Hinv0) Hidx' Hbegin)
        as (_ & _ & _ & _ & ? & _). }
    destruct e as [target|gridPos|gridPos|u|k u];
      cbn [Async.step calm Async.game Async.controller Async.suspended].
    2:{ intros _ [= <-]. cbn [Async.game Async.controller Async.suspended].
        unfold Async.handlePointerMove. rewrite Hrest. cbn [negb]. split; [done|].
        exists game0, piece, row, col, index. done. }
    + intros _ [= <-]. cbn [Async.game Async.controller Async.suspended].
      unfold DragController.handlePointerDown, Game.canInteract.
      rewrite Hanim, andb_false_r. cbn [negb]. split; [done|].
      exists game0, piece, row, col, index. done.
    + intros _. unfold Async.handlePointerUp. cbv zeta.
      cbn [Async.game Async.controller Async.suspended]. rewrite Hrest. cbn [negb].
      intros [= <-]. cbn [Async.game Async.controller Async.suspended]. split; [done|].
      exists game0, piece, row, col, index. done.
    + done.
    + intros _. cbn [Async.suspended Async.game Async.controller].
      destruct k as [|k]; [|done]. cbn [lookup list_lookup mbind option_bind].
      specialize (Hturns u).
      destruct (Async.resume game sus u) as [[game' next]|] eqn:Hres; [|discriminate].
      cbn [mbind option_bind]. intros [= <-].
      cbn [Async.game Async.controller Async.suspended].
      pose proof Hidx as Hidx'. rewrite <- (inv_tray_length _ Hinv0) in Hidx'.
      destruct sus as [|cells total].
      * rewrite Hres in Hturns. cbn [mbind option_bind] in Hturns.
        destruct next as [sus|].
        -- cbn [insert list_insert]. split; [done|].
           exists game0, piece, row, col, index.
           revert Hres. cbn [Async.resume].
           destruct (Async.checkAndClearLines_begin game) as [[[cells total]|]|] eqn:Hfound;
             cbn [mbind option_bind];
             [|by destruct (Async.placePiece_end game u)|discriminate].
           intros [= <- <-]. done.
        -- cbn [delete list_delete]. split; [|by rewrite Hrest].
           by eapply (placePiece_invariant game0 game' piece row col index u).
      * assert (Hnext : next = None).
        { revert Hres. cbn [Async.resume].
          destruct (Async.checkAndClearLines_end game cells total) as [g|];
            cbn [mbind option_bind]; [|discriminate].
          destruct (Async.placePiece_end g u); cbn [mbind option_bind]; [|discriminate].
          by intros [= _ <-]. }
        subst next. cbn [delete list_delete]. split; [|by rewrite Hrest].
        assert (Hfirst : Async.resume game Async.AtPlaceDelay u
                         = Some (game, Some (Async.AtClearDelay cells total))).
        { cbn [Async.resume]. by rewrite Hsus. }
        rewrite Hfirst in Hturns. cbn [mbind option_bind] in Hturns.
        rewrite Hres in Hturns. cbn [mbind option_bind] in Hturns.
        by eapply (placePiece_invariant game0 game' piece row col index u).
Qed.

(** X23. In a run in which [startNewGame] is not called while a call of
    [placePiece] is suspended, at most one call is suspended at a time,
    [isAnimating] is set exactly while one is, and no drag is on then;
    whenever none is suspended the board is a well-formed 8 x 8 grid
    without a complete row or column, the tray has three slots, holds
    pieces of the catalogue and at least one of them, the score is not
    negative, and [isGameOver] is set exactly when no piece of the tray
    fits. *)
Theorem calm_run_settled (s : Async.t) :
  calmlyReachable s →
  (length (Async.suspended s) ≤ 1)%nat ∧
  (Game.isAnimating (Async.game s) = true ↔ Async.suspended s ≠ []) ∧
  (Async.suspended s ≠ [] → DragController.isDragging (Async.controller s) = false) ∧
  (Async.suspended s = [] → gameInvariant (Async.game s)).
Proof.
  intros Hreach.
  assert (Hinv : calmInvariant s).
  { induction Hreach as [u game Hnew|s s' e _ IH Hcalm Hstep].
    - split; [by eapply new_Game_invariant|discriminate].
    - by eapply calm_step_invariant. }
  clear Hreach. unfold calmInvariant in Hinv.
  destruct (Async.suspended s) as [|sus [|sus' rest]]; [| |done].
  - destruct Hinv as [Hinv _]. split; [simpl; lia|]. split; [|done].
    rewrite (inv_isAnimating _ Hinv). done.
  - destruct Hinv as (Hrest & game0 & piece & row & col & index & Hinv0 & _ & Hidx & Hbegin & _).
    split; [simpl; lia|]. split; [|done].
    rewrite <- (inv_tray_length _ Hinv0) in Hidx.
    destruct (placePiece_begin_inv _ _ _ _ _ _ (inv_wf _ Hinv0) Hidx Hbegin)
      as (_ & _ & _ & _ & -> & _). done.
Qed.

(** *** New Game during an animation *)

(** Clearing cells of an empty board leaves it as it is. *)
Lemma clearCells_new (n : nat) (cells : list (nat * nat)) :
  (∀ row col, (row, col) ∈ cells → row < n ∧ col < n) →
  Grid.clearCells (Grid.new n) cells = Some (Grid.new n).
Proof.
  induction cells as [|[row col] cells IH]; intros Hcells; [done|].
  destruct (Hcells row col) as [Hrow Hcol]; [apply list_elem_of_here|].
  cbn [Grid.clearCells]. unfold Grid.assign, Grid.new, Grid.createEmptyState.
  cbn [Grid.state Grid.size]. rewrite elemAt_of_nat, lookup_replicate_2 by done.
  rewrite length_replicate, bool_decide_true by lia. rewrite !Nat2Z.id.
  rewrite (list_insert_id (replicate n None) col None) by (by apply lookup_replicate_2).
  rewrite list_insert_id by (by apply lookup_replicate_2).
  apply IH. intros r c Hin. apply Hcells. by apply list_elem_of_further.
Qed.

(** X24. [startNewGame] does not cancel a call of [placePiece] that waits
    to clear lines. When the timeout of that call fires in the new game,
    the call clears its cells on the new, empty board, and adds the
    bonus for its lines to the new score: the new game, with an empty
    board and its three new pieces, has [500 * totalLines^2] points. *)
Theorem restart_keeps_bonus (s : Async.t) (k : nat) (cells : list (nat * nat))
    (total : nat) (u u' : draws) :
  reachable s → validDraws u → validDraws u' →
  Async.suspended s !! k = Some (Async.AtClearDelay cells total) →
  ∃ s1 s2,
    Async.step s (Async.NewGame u) = Some s1 ∧
    Async.step s1 (Async.Timeout k u') = Some s2 ∧
    Game.score (Async.game s1) = 0%Z ∧
    Game.grid (Async.game s2) = Grid.new 8 ∧
    Game.trayPieces (Async.game s2) = Game.trayPieces (Async.game s1) ∧
    Game.score (Async.game s2) = (500 * Z.of_nat total * Z.of_nat total)%Z ∧
    (500 ≤ Game.score (Async.game s2))%Z ∧
    Game.canInteract (Async.game s2) = true.
Proof.
  intros Hreach Hu Hu' Hk.
  assert (Hinv : pageInvariant s).
  { clear Hk. induction Hreach as [u0 game Hnew|s s' e' _ IH Hstep].
    - by eapply initial_invariant.
    - by eapply step_invariant. }
  assert (Hboard : suspensionOnBoard (Async.AtClearDelay cells total)).
  { pose proof (page_suspended _ Hinv) as Hall. rewrite Forall_lookup in Hall.
    by apply (Hall k). }
  destruct Hboard as [Htotal Hboard].
  destruct (startNewGame_spec (Async.game s) u Hu)
    as (game1 & Hnew & _ & Hgrid1 & Hscore1 & Hover1 & _).
  pose proof (startNewGame_invariant _ _ _ (page_size _ Hinv) Hnew) as Hfresh.
  assert (Hgrid1' : Game.grid game1 = Grid.new 8).
  { rewrite Hgrid1. unfold Grid.reset, Grid.new. by rewrite (page_size _ Hinv). }
  set (game2 := Game.addScore (Game.with_grid game1 (Grid.new 8))
                  (Game.calculateLineBonus (Z.of_nat total))).
  assert (Hclear : Async.checkAndClearLines_end game1 cells total = Some game2).
  { unfold Async.checkAndClearLines_end. rewrite Hgrid1', (clearCells_new 8 cells Hboard).
    done. }
  assert (Hend : Async.placePiece_end game2 u' = Some (Game.with_isAnimating game2 false)).
  { unfold Async.placePiece_end.
    destruct (checkAndRefillTray_spec game2 u' Hu')
      as (game3 & Hrefill & Hg3 & Hs3 & Ho3 & Ha3 & _ & Hkeep).
    specialize (Hkeep (inv_tray_piece _ Hfresh)).
    assert (Heq : game3 = game2).
    { destruct game3, game2. cbn in *. congruence. }
    subst game3. rewrite Hrefill. cbn [mbind option_bind].
    assert (Hcheck : Game.checkGameOver game2 = false).
    { rewrite (checkGameOver_ext game2 game1) by done.
      by rewrite <- (inv_isGameOver _ Hfresh). }
    by rewrite Hcheck. }
  eexists _, _. split.
  { cbn [Async.step]. rewrite Hnew. done. }
  split.
  { cbn [Async.step Async.suspended Async.game]. rewrite Hk. cbn [mbind option_bind Async.resume].
    rewrite Hclear. cbn [mbind option_bind]. rewrite Hend. done. }
  cbn [Async.game]. split; [done|]. split; [done|]. split; [done|].
  assert (Hscore : Game.score (Game.with_isAnimating game2 false)
                   = (500 * Z.of_nat total * Z.of_nat total)%Z).
  { cbn. rewrite Hscore1. unfold Game.calculateLineBonus. lia. }
  split; [done|]. split; [rewrite Hscore; nia|].
  unfold Game.canInteract. cbn. by rewrite Hover1.
Qed.

(** *** Sample runs *)

Lemma reachable_run (s s' : Async.t) (events : list Async.event) :
  reachable s → Async.run s events = Some s' → reachable s'.
Proof.
  revert s. induction events as [|e events IH]; intros s Hreach; cbn [Async.run].
  - by intros [= <-].
  - destruct (Async.step s e) as [s1|] eqn:Hstep; [|discriminate]. cbn [mbind option_bind].
    apply IH. by eapply reach_step.
Qed.

Lemma calmlyReachable_run (s s' : Async.t) (events : list Async.event) :
  calmlyReachable s →
  Forall (fun e => match e with Async.NewGame _ => False | _ => True end) events →
  Async.run s events = Some s' → calmlyReachable s'.
Proof.
  revert s. induction events as [|e events IH]; intros s Hreach Hall; cbn [Async.run].
  - by intros [= <-].
  - destruct (Async.step s e) as [s1|] eqn:Hstep; [|discriminate]. cbn [mbind option_bind].
    inversion Hall as [|? ? He Hrest]; subst. apply IH; [|done].
    eapply calm_step; [done| |done]. by destruct e.
Qed.

Lemma new_Game_lines : new_Game draws_line4h = Some game_lines.
Proof. reflexivity. Qed.

Lemma reachable_invariant_witness :
  ∃ s, Async.run (Async.initial game_lines) events_restart_midway = Some s ∧
       Game.grid (Async.game s) = Grid.new 8 ∧
       Game.score (Async.game s) = 500%Z ∧
       pageInvariant s.
Proof.
  destruct (Async.run (Async.initial game_lines) events_restart_midway) as [s|] eqn:Hrun;
    [|vm_compute in Hrun; discriminate].
  exists s. split; [reflexivity|].
  assert (Hfacts : Game.grid (Async.game s) = Grid.new 8 ∧
                   Game.score (Async.game s) = 500%Z).
  { vm_compute in Hrun. injection Hrun as <-. split; reflexivity. }
  split; [exact (proj1 Hfacts)|]. split; [exact (proj2 Hfacts)|].
  apply reachable_invariant.
  exact (reachable_run _ _ _ (reach_new _ _ new_Game_lines) Hrun).
Defined.

Lemma reachable_step_witness :
  ∃ s s',
    Async.run (Async.initial game_lines)
      [Async.PointerDown (Some 0); Async.PointerUp (Some (0, 0)%Z)] = Some s ∧
    Async.suspended s = [Async.AtPlaceDelay] ∧
    Async.step s (Async.Timeout 0 draws_sample) = Some s' ∧ reachable s'.
Proof.
  destruct (Async.run (Async.initial game_lines)
              [Async.PointerDown (Some 0); Async.PointerUp (Some (0, 0)%Z)])
    as [s|] eqn:Hrun; [|vm_compute in Hrun; discriminate].
  assert (Hsus : Async.suspended s = [Async.AtPlaceDelay]).
  { vm_compute in Hrun. injection Hrun as <-. reflexivity. }
  destruct (reachable_step s (Async.Timeout 0 draws_sample))
    as (s' & Hstep & Hreach).
  - exact (reachable_run _ _ _ (reach_new _ _ new_Game_lines) Hrun).
  - split; [rewrite Hsus; simpl; lia|exact draws_sample_valid].
  - exists s, s'. split; [reflexivity|]. split; [exact Hsus|].
    split; [exact Hstep|exact Hreach].
Defined.

Lemma placement_settles_witness :
  ∃ s s1 s2,
    Async.run (Async.initial game_lines) events_first_line = Some s ∧
    Async.step s (Async.PointerUp (Some (0, 4)%Z)) = Some s1 ∧
    Async.run s1 [Async.Timeout 0 draws_sample; Async.Timeout 0 draws_sample] = Some s2 ∧
    Game.placePiece (Async.game s) piece_line4h 0 4 1 draws_sample = Some (Async.game s2) ∧
    Game.score (Async.game s2) = 580%Z.
Proof.
  destruct (Async.run (Async.initial game_lines) events_first_line) as [s|] eqn:Hrun;
    [|vm_compute in Hrun; discriminate].
  destruct (Async.step s (Async.PointerUp (Some (0, 4)%Z))) as [s1|] eqn:Hup;
    [|vm_compute in Hrun; injection Hrun as <-; vm_compute in Hup; discriminate].
  assert (Hs : Grid.wf (Game.grid (Async.game s)) ∧ Async.suspended s = [] ∧
               DragController.draggedPiece (Async.controller s) = Some piece_line4h ∧
               DragController.draggedPieceIndex (Async.controller s) = Some 1).
  { vm_compute in Hrun. injection Hrun as <-. split; [|by repeat split].
    split; [reflexivity|]. repeat constructor. }
  destruct Hs as (Hwf & Hnone & Hpiece & Hindex).
  assert (Hs1 : Async.suspended s1 ≠ []).
  { vm_compute in Hrun. injection Hrun as <-. vm_compute in Hup. injection Hup as <-.
    discriminate. }
  destruct (placement_settles s s1 (Some (0, 4)%Z) draws_sample Hwf draws_sample_valid
              Hnone Hup Hs1)
    as (piece & row & col & trayIndex & events & s2 & Hp & Hi & Hpos & _ & Hev & Hrun2
        & Hsus2 & Hplace).
  rewrite Hpiece in Hp. injection Hp as <-. rewrite Hindex in Hi. injection Hi as <-.
  injection Hpos as <- <-.
  assert (Hscore : Game.score (Async.game s2) = 580%Z).
  { remember (Async.game s2) as game2 eqn:Hgame2. clear Hgame2 Hrun2 Hsus2.
    vm_compute in Hrun. injection Hrun as <-. vm_compute in Hplace.
    injection Hplace as <-. reflexivity. }
  exists s, s1, s2. split; [reflexivity|]. split; [exact Hup|].
  split; [|split; [exact Hplace|exact Hscore]].
  destruct Hev as [->| ->]; [|exact Hrun2].
  exfalso. clear Hplace Hscore. vm_compute in Hrun. injection Hrun as <-.
  vm_compute in Hup. injection Hup as <-. vm_compute in Hrun2. injection Hrun2 as <-.
  discriminate Hsus2.
Defined.

Lemma calm_run_settled_witness :
  ∃ s, Async.run (Async.initial game_lines) events_line_cleared = Some s ∧
       Async.suspended s = [] ∧ Game.score (Async.game s) = 580%Z ∧
       gameInvariant (Async.game s).
Proof.
  destruct (Async.run (Async.initial game_lines) events_line_cleared) as [s|] eqn:Hrun;
    [|vm_compute in Hrun; discriminate].
  assert (Hfacts : Async.suspended s = [] ∧ Game.score (Async.game s) = 580%Z).
  { vm_compute in Hrun. injection Hrun as <-. split; reflexivity. }
  exists s. split; [reflexivity|]. split; [exact (proj1 Hfacts)|].
  split; [exact (proj2 Hfacts)|].
  refine (proj2 (proj2 (proj2 (calm_run_settled s _))) (proj1 Hfacts)).
  refine (calmlyReachable_run _ _ _ (calm_new _ _ new_Game_lines) _ Hrun).
  repeat constructor.
Defined.

Lemma restart_keeps_bonus_witness :
  ∃ s s1 s2,
    Async.run (Async.initial game_lines)
      (events_first_line ++ [Async.PointerUp (Some (0, 4)%Z); Async.Timeout 0 draws_sample])
    = Some s ∧
    Async.step s (Async.NewGame draws_sample) = Some s1 ∧
    Async.step s1 (Async.Timeout 0 draws_sample) = Some s2 ∧
    Game.score (Async.game s1) = 0%Z ∧ Game.score (Async.game s2) = 500%Z.
Proof.
  destruct (Async.run (Async.initial game_lines)
              (events_first_line ++
               [Async.PointerUp (Some (0, 4)%Z); Async.Timeout 0 draws_sample]))
    as [s|] eqn:Hrun; [|vm_compute in Hrun; discriminate].
  assert (Hsus : ∃ cells, Async.suspended s !! 0 = Some (Async.AtClearDelay cells 1)).
  { vm_compute in Hrun. injection Hrun as <-. eexists. reflexivity. }
  destruct Hsus as [cells Hsus].
  destruct (restart_keeps_bonus s 0 cells 1 draws_sample draws_sample
              (reachable_run _ _ _ (reach_new _ _ new_Game_lines) Hrun)
              draws_sample_valid draws_sample_valid Hsus)
    as (s1 & s2 & Hnew & Htimeout & Hscore1 & _ & _ & Hscore2 & _).
  exists s, s1, s2. split; [reflexivity|]. split; [exact Hnew|]. split; [exact Htimeout|].
  split; [exact Hscore1|exact Hscore2].
Defined.

(* ===================================================================== *)
(** ** Pointer positions                                                   *)
(* ===================================================================== *)

Lemma Qlt_bool_iff (a b : Q) : Qlt_bool a b = true ↔ (a < b)%Q.
Proof.
  unfold Qlt_bool. rewrite negb_true_iff, <- not_true_iff_false, Qle_bool_iff.
  split; [apply Qnot_le_lt|apply Qlt_not_le].
Qed.

Lemma Qlt_bool_false (a b : Q) : Qlt_bool a b = false ↔ (b <= a)%Q.
Proof. unfold Qlt_bool. by rewrite negb_false_iff, Qle_bool_iff. Qed.

(** The position is [null] exactly outside the rectangle of the grid,
    borders included in the inside. *)
Lemma pageToGrid_None (g : Grid.t) (gridRect : DOMRect.t) (pageX pageY : Q) :
  Pointer.pageToGrid g gridRect pageX pageY = None ↔
  ¬ ((DOMRect.left gridRect <= pageX)%Q ∧ (pageX <= DOMRect.right gridRect)%Q ∧
     (DOMRect.top gridRect <= pageY)%Q ∧ (pageY <= DOMRect.bottom gridRect)%Q).
Proof.
  unfold Pointer.pageToGrid.
  destruct (Qlt_bool pageX (DOMRect.left gridRect)) eqn:H1; simpl.
  { apply Qlt_bool_iff in H1. split; [|done]. intros _ (H & _). by apply Qlt_not_le in H1. }
  destruct (Qlt_bool (DOMRect.right gridRect) pageX) eqn:H2; simpl.
  { apply Qlt_bool_iff in H2. split; [|done]. intros _ (_ & H & _). by apply Qlt_not_le in H2. }
  destruct (Qlt_bool pageY (DOMRect.top gridRect)) eqn:H3; simpl.
  { apply Qlt_bool_iff in H3. split; [|done]. intros _ (_ & _ & H & _).
    by apply Qlt_not_le in H3. }
  destruct (Qlt_bool (DOMRect.bottom gridRect) pageY) eqn:H4; simpl.
  { apply Qlt_bool_iff in H4. split; [|done]. intros _ (_ & _ & _ & H).
    by apply Qlt_not_le in H4. }
  apply Qlt_bool_false in H1, H2, H3, H4. split; [discriminate|]. intros H. by destruct H.
Qed.

(** X11. [pageToGrid] answers with a cell of the board or with [null]: the
    clamping keeps the border of the rectangle on the board. The width of
    the rectangle has to be positive for the division to yield a
    number. *)
Theorem pageToGrid_on_board (g : Grid.t) (gridRect : DOMRect.t) (pageX pageY : Q)
    (row col : Z) :
  0 < Grid.size g → (0 < DOMRect.width gridRect)%Q →
  Pointer.pageToGrid g gridRect pageX pageY = Some (row, col) →
  Grid.isValidCell g row col = true ∧
  (DOMRect.left gridRect <= pageX)%Q ∧ (pageX <= DOMRect.right gridRect)%Q ∧
  (DOMRect.top gridRect <= pageY)%Q ∧ (pageY <= DOMRect.bottom gridRect)%Q.
Proof.
  intros Hsize _ Hpos.
  assert (Hin : Pointer.pageToGrid g gridRect pageX pageY ≠ None) by congruence.
  split.
  - unfold Pointer.pageToGrid in Hpos. destruct (_ || _); [discriminate|].
    injection Hpos as <- <-. apply isValidCell_spec. lia.
  - destruct (Qlt_le_dec pageX (DOMRect.left gridRect)) as [H1|H1].
    { destruct Hin. apply pageToGrid_None. intros (H & _). by apply Qlt_not_le in H1. }
    destruct (Qlt_le_dec (DOMRect.right gridRect) pageX) as [H2|H2].
    { destruct Hin. apply pageToGrid_None. intros (_ & H & _). by apply Qlt_not_le in H2. }
    destruct (Qlt_le_dec pageY (DOMRect.top gridRect)) as [H3|H3].
    { destruct Hin. apply pageToGrid_None. intros (_ & _ & H & _).
      by apply Qlt_not_le in H3. }
    destruct (Qlt_le_dec (DOMRect.bottom gridRect) pageY) as [H4|H4].
    { destruct Hin. apply pageToGrid_None. intros (_ & _ & _ & H).
      by apply Qlt_not_le in H4. }
    done.
Qed.

Lemma Qfloor_between (t : Q) (k : Z) :
  (inject_Z k <= t)%Q → (t < inject_Z k + 1)%Q → Qfloor t = k.
Proof.
  intros Hlo Hhi. apply Z.le_antisymm.
  - apply Z.lt_succ_r. rewrite Zlt_Qlt. eapply Qle_lt_trans; [apply Qfloor_le|].
    unfold Z.succ. by rewrite inject_Z_plus.
  - apply Qfloor_resp_le in Hlo. by rewrite Qfloor_Z in Hlo.
Qed.

(** The cell of a coordinate: [k] when the coordinate lies in the
    [k]-th of the [n] equal parts of the side. *)
Lemma Qfloor_part (w a x : Q) (n k : Z) :
  (0 < w)%Q → (0 < n)%Z →
  (a + inject_Z k * (w / inject_Z n) <= x)%Q →
  (x < a + (inject_Z k + 1) * (w / inject_Z n))%Q →
  Qfloor ((x - a) / (w / inject_Z n)) = k.
Proof.
  intros Hw Hn Hlo Hhi.
  assert (Hcs : (0 < w / inject_Z n)%Q).
  { apply Qlt_shift_div_l; [change 0%Q with (inject_Z 0); by rewrite <- Zlt_Qlt|].
    by rewrite Qmult_0_l. }
  set (cs := (w / inject_Z n)%Q) in *.
  apply Qfloor_between.
  - apply Qle_shift_div_l; [done|]. lra.
  - apply Qlt_shift_div_r; [done|]. lra.
Qed.

(** With exact arithmetic a pointer inside the square of cell [(r, c)]
    is mapped to [(r, c)], and the far corner of the grid to the last
    cell: the rectangle is the square [width] wide that starts at
    [(left, top)], cut into [size] x [size] equal cells. *)
Lemma pageToGrid_cell_exact (g : Grid.t) (gridRect : DOMRect.t) (pageX pageY : Q) (r c : nat) :
  let cellSize := (DOMRect.width gridRect / inject_Z (Z.of_nat (Grid.size g)))%Q in
  (0 < DOMRect.width gridRect)%Q →
  (DOMRect.right gridRect == DOMRect.left gridRect + DOMRect.width gridRect)%Q →
  (DOMRect.bottom gridRect == DOMRect.top gridRect + DOMRect.width gridRect)%Q →
  r < Grid.size g → c < Grid.size g →
  ((DOMRect.left gridRect + inject_Z (Z.of_nat c) * cellSize <= pageX)%Q →
   (pageX < DOMRect.left gridRect + (inject_Z (Z.of_nat c) + 1) * cellSize)%Q →
   (DOMRect.top gridRect + inject_Z (Z.of_nat r) * cellSize <= pageY)%Q →
   (pageY < DOMRect.top gridRect + (inject_Z (Z.of_nat r) + 1) * cellSize)%Q →
   Pointer.pageToGrid g gridRect pageX pageY = Some (Z.of_nat r, Z.of_nat c)) ∧
  Pointer.pageToGrid g gridRect (DOMRect.right gridRect) (DOMRect.bottom gridRect)
  = Some (Z.of_nat (Grid.size g) - 1, Z.of_nat (Grid.size g) - 1)%Z.
Proof.
  intros cellSize Hw Hright Hbottom Hr Hc.
  set (n := Z.of_nat (Grid.size g)) in *.
  assert (Hn : (0 < n)%Z) by (unfold n; lia).
  assert (HnQ : (0 < inject_Z n)%Q).
  { change 0%Q with (inject_Z 0). by rewrite <- Zlt_Qlt. }
  assert (Hcs : (0 < cellSize)%Q).
  { apply Qlt_shift_div_l; [done|]. by rewrite Qmult_0_l. }
  assert (Hside : (inject_Z n * cellSize == DOMRect.width gridRect)%Q).
  { unfold cellSize. field. intros E. rewrite E in HnQ. by apply Qlt_irrefl in HnQ. }
  assert (Hpart : ∀ k : nat, k < Grid.size g →
            (0 <= inject_Z (Z.of_nat k) * cellSize)%Q ∧
            ((inject_Z (Z.of_nat k) + 1) * cellSize <= DOMRect.width gridRect)%Q).
  { intros k Hk. split.
    - apply Qmult_le_0_compat; [|lra]. change 0%Q with (inject_Z 0). rewrite <- Zle_Qle. lia.
    - rewrite <- Hside. apply Qmult_le_compat_r; [|lra].
      change 1%Q with (inject_Z 1). rewrite <- inject_Z_plus, <- Zle_Qle. unfold n. lia. }
  split.
  - intros Hx1 Hx2 Hy1 Hy2.
    destruct (Hpart r Hr) as [Hr0 Hr1]. destruct (Hpart c Hc) as [Hc0 Hc1].
    unfold Pointer.pageToGrid.
    rewrite (proj2 (Qlt_bool_false pageX (DOMRect.left gridRect))) by lra.
    rewrite (proj2 (Qlt_bool_false (DOMRect.right gridRect) pageX)) by lra.
    rewrite (proj2 (Qlt_bool_false pageY (DOMRect.top gridRect))) by lra.
    rewrite (proj2 (Qlt_bool_false (DOMRect.bottom gridRect) pageY)) by lra.
    cbn [orb]. cbv zeta. fold n.
    assert (Hcol : Qfloor ((pageX - DOMRect.left gridRect) /
                           (DOMRect.width gridRect / inject_Z n)) = Z.of_nat c)
      by (by apply Qfloor_part).
    assert (Hrow : Qfloor ((pageY - DOMRect.top gridRect) /
                           (DOMRect.width gridRect / inject_Z n)) = Z.of_nat r)
      by (by apply Qfloor_part).
    rewrite Hcol, Hrow. f_equal. f_equal; unfold n; lia.
  - unfold Pointer.pageToGrid.
    rewrite (proj2 (Qlt_bool_false (DOMRect.right gridRect) (DOMRect.left gridRect))) by lra.
    rewrite (proj2 (Qlt_bool_false (DOMRect.right gridRect) (DOMRect.right gridRect))) by lra.
    rewrite (proj2 (Qlt_bool_false (DOMRect.bottom gridRect) (DOMRect.top gridRect))) by lra.
    rewrite (proj2 (Qlt_bool_false (DOMRect.bottom gridRect) (DOMRect.bottom gridRect))) by lra.
    cbn [orb]. cbv zeta. fold n.
    assert (Hfar : ∀ a b : Q, (b == a + DOMRect.width gridRect)%Q →
              Qfloor ((b - a) / (DOMRect.width gridRect / inject_Z n)) = n).
    { intros a b Hb. apply Qfloor_between.
      - apply Qle_shift_div_l; [done|]. fold cellSize. lra.
      - apply Qlt_shift_div_r; [done|]. fold cellSize. lra. }
    rewrite (Hfar _ _ Hright), (Hfar _ _ Hbottom). f_equal. f_equal; lia.
Qed.

(** X12. On a layout in whole pixels, where the grid is a square
    [width] wide at [(left, top)] and the width is a multiple of the
    number of cells, a pointer at a whole pixel inside the square of cell
    [(r, c)] is mapped to [(r, c)], and the far corner of the grid to the
    last cell. On these inputs JavaScript's numbers make no difference:
    the subtractions and the cell size are exact, and the rounding of a
    quotient of two such integers never reaches the next integer. *)
Theorem pageToGrid_cell (g : Grid.t) (left top width pageX pageY : Z) (r c : nat) :
  let n := Z.of_nat (Grid.size g) in
  let cell := (width / n)%Z in
  pixel left → pixel top → pixel (left + width) → pixel (top + width) →
  (0 < width)%Z → (n | width)%Z →
  r < Grid.size g → c < Grid.size g →
  ((left + Z.of_nat c * cell ≤ pageX < left + (Z.of_nat c + 1) * cell)%Z →
   (top + Z.of_nat r * cell ≤ pageY < top + (Z.of_nat r + 1) * cell)%Z →
   Pointer.pageToGrid g (pixelRect left top width) (inject_Z pageX) (inject_Z pageY)
   = Some (Z.of_nat r, Z.of_nat c)) ∧
  Pointer.pageToGrid g (pixelRect left top width)
    (inject_Z (left + width)) (inject_Z (top + width))
  = Some (n - 1, n - 1)%Z.
Proof.
  intros n cell _ _ _ _ Hw [q Hq] Hr Hc.
  assert (Hn : (0 < n)%Z) by (unfold n; lia).
  assert (Hcell : cell = q).
  { unfold cell. rewrite Hq. by apply Z.div_mul; lia. }
  assert (HcellQ : (inject_Z width / inject_Z n == inject_Z cell)%Q).
  { rewrite Hcell, Hq, inject_Z_mult. field.
    change 0%Q with (inject_Z 0). rewrite inject_Z_injective. lia. }
  destruct (pageToGrid_cell_exact g (pixelRect left top width)
              (inject_Z pageX) (inject_Z pageY) r c) as [Hin Hfar].
  - cbn. change 0%Q with (inject_Z 0). by rewrite <- Zlt_Qlt.
  - cbn. by rewrite inject_Z_plus.
  - cbn. by rewrite inject_Z_plus.
  - done.
  - done.
  - split; [|exact Hfar]. intros [Hx1 Hx2] [Hy1 Hy2]. cbn in Hin. fold n in Hin.
    apply Hin; rewrite HcellQ; change 1%Q with (inject_Z 1);
      rewrite <- ?inject_Z_plus, <- ?inject_Z_mult, <- ?inject_Z_plus;
      [rewrite <- Zle_Qle|rewrite <- Zlt_Qlt|rewrite <- Zle_Qle|rewrite <- Zlt_Qlt]; lia.
Qed.

Lemma pageToGrid_cell_witness :
  Pointer.pageToGrid (Grid.new 8) (pixelRect 10 20 400) (inject_Z 175) (inject_Z 69)
  = Some (0, 3)%Z ∧
  Pointer.pageToGrid (Grid.new 8) (pixelRect 10 20 400) (inject_Z 410) (inject_Z 420)
  = Some (7, 7)%Z.
Proof.
  destruct (pageToGrid_cell (Grid.new 8) 10 20 400 175 69 0 3) as [Hcell Hfar];
    try (unfold pixel; simpl; lia).
  { exists 50%Z. reflexivity. }
  split; [|exact Hfar].
  apply Hcell; (split; [by vm_compute|reflexivity]).
Defined.

Lemma pageToGrid_on_board_witness :
  Pointer.pageToGrid (Grid.new 8) (DOMRect.mk 10 20 410 420 400) 410 20 = Some (0, 7)%Z ∧
  Grid.isValidCell (Grid.new 8) 0 7 = true.
Proof.
  assert (Hpos : Pointer.pageToGrid (Grid.new 8) (DOMRect.mk 10 20 410 420 400) 410 20
                 = Some (0, 7)%Z) by reflexivity.
  split; [exact Hpos|].
  apply (pageToGrid_on_board (Grid.new 8) (DOMRect.mk 10 20 410 420 400) 410 20 0 7);
    [simpl; lia|reflexivity|exact Hpos].
Defined.

(** The controller part of the handlers with the drag element is the
    handler of the controller. *)
Lemma handlePointerDown_controller (s : Pointer.t) (game : Game.t) (target : option nat) :
  Pointer.controller (Pointer.handlePointerDown s game target)
  = DragController.handlePointerDown (Pointer.controller s) game target.
Proof.
  unfold Pointer.handlePointerDown, DragController.handlePointerDown.
  destruct (negb (Game.canInteract game)); [done|].
  destruct target as [index|]; [|done].
  by destruct (Game.trayPieces game !! index) as [[piece|]|].
Qed.

Lemma handlePointerUp_controller (s : Pointer.t) (game : Game.t) (gridRect : DOMRect.t)
    (isTouchDevice sourceFound : bool) (x y : Q) (u : draws) :
  (fun r : Pointer.t * Game.t => (Pointer.controller r.1, r.2))
    <$> Pointer.handlePointerUp s game gridRect isTouchDevice sourceFound x y u
  = DragController.handlePointerUp (Pointer.controller s) game
      (Pointer.pageToGrid (Game.grid game) gridRect x (y + Pointer.touchOffset isTouchDevice)) u.
Proof.
  unfold Pointer.handlePointerUp, DragController.handlePointerUp. cbv zeta.
  destruct (negb (DragController.isDragging (Pointer.controller s))); [done|].
  destruct (Pointer.pageToGrid _ _ _ _) as [[row col]|]; [|done].
  destruct (DragController.draggedPiece (Pointer.controller s)) as [piece|]; [|done].
  destruct (Grid.canPlacePiece (Game.grid game) piece row col); [|done].
  destruct (DragController.draggedPieceIndex (Pointer.controller s)) as [trayIndex|]; [|done].
  by destruct (Game.placePiece game piece row col trayIndex u).
Qed.

(** X13. While the drag element exists, the ghost shown during a drag
    tells what a drop at the same pointer position does: off the grid
    ([clearGhost]) and on an invalid ghost the drop leaves the game as it
    is and sends the element back to the tray; on a valid ghost it is
    [placePiece] at the cell of the ghost; while the ghost is kept, the
    pointer is still over the cell of the last ghost. *)
Theorem ghost_agrees_with_drop (s s' : Pointer.t) (game : Game.t)
    (gridRect : DOMRect.t) (isTouchDevice sourceFound : bool) (x y : Q) (u : draws)
    (piece : Piece.t) (trayIndex element : nat) (call : ghostCall) :
  DragController.isDragging (Pointer.controller s) = true →
  DragController.draggedPiece (Pointer.controller s) = Some piece →
  DragController.draggedPieceIndex (Pointer.controller s) = Some trayIndex →
  Pointer.dragElement s = Some element →
  Pointer.handlePointerMove s game gridRect isTouchDevice x y = Some (s', call) →
  Pointer.dragElement s' = Some element ∧
  match call with
  | GhostCleared =>
      Pointer.handlePointerUp s' game gridRect isTouchDevice sourceFound x y u
      = Some (Pointer.endDrag (Pointer.animateReturnToTray s' sourceFound), game)
  | GhostShown row col isValid =>
      isValid = Grid.canPlacePiece (Game.grid game) piece row col ∧
      DragController.lastGridPos (Pointer.controller s') = Some (row, col) ∧
      Pointer.handlePointerUp s' game gridRect isTouchDevice sourceFound x y u
      = if isValid
        then game' ← Game.placePiece game piece row col trayIndex u;
             Some (Pointer.endDrag (Pointer.removeDragElement s'), game')
        else Some (Pointer.endDrag (Pointer.animateReturnToTray s' sourceFound), game)
  | GhostKept =>
      s' = s ∧
      Pointer.pageToGrid (Game.grid game) gridRect x (y + Pointer.touchOffset isTouchDevice)
      = DragController.lastGridPos (Pointer.controller s)
  end.
Proof.
  destruct s as [[dragging dragged index last] elem bd cr timers].
  cbn [Pointer.controller Pointer.dragElement DragController.isDragging
       DragController.draggedPiece DragController.draggedPieceIndex].
  intros -> -> -> ->.
  unfold Pointer.handlePointerMove, Pointer.updateGhostPreview, Pointer.handlePointerUp.
  cbn [negb orb Pointer.controller Pointer.dragElement DragController.isDragging
       DragController.draggedPiece DragController.draggedPieceIndex
       DragController.lastGridPos]. cbv zeta.
  destruct (Pointer.pageToGrid (Game.grid game) gridRect x
              (y + Pointer.touchOffset isTouchDevice)) as [[row col]|] eqn:Hpos.
  - destruct last as [[lastRow lastCol]|].
    + destruct (Z.eqb_spec lastRow row) as [->|Hne]; cbn [andb].
      * destruct (Z.eqb_spec lastCol col) as [->|Hne].
        -- by intros [= <- <-].
        -- intros [= <- <-]. done.
      * intros [= <- <-]. done.
    + intros [= <- <-]. done.
  - by intros [= <- <-].
Qed.
Lemma filter_other (element : nat) (l : list nat) :
  Forall (fun e => e < element) l →
  List.filter (fun e => negb (Nat.eqb e element)) l = l.
Proof.
  induction 1 as [|e l He _ IH]; [done|]. simpl.
  destruct (Nat.eqb_spec e element); [lia|]. simpl. by rewrite IH.
Qed.

(** X20. A drop that is refused leaves its drag element to a timeout
    200 ms later, and that timeout removes whatever [this.dragElement]
    holds by then. When the next drag starts before it fires, the
    timeout takes the element of that drag: the drag goes on without an
    element, [handlePointerMove] does nothing any more, wherever the
    pointer is, although a drop on a cell that fits still places the
    piece; and the element of the refused drop stays attached to the
    document. *)
Theorem stale_return_timeout (s0 : Pointer.t) (game : Game.t) (gridRect : DOMRect.t)
    (isTouchDevice : bool) (x y : Q) (u : draws) (i j : nat) (p q : Piece.t) :
  Forall (fun e => e < Pointer.created s0) (Pointer.body s0) →
  Game.canInteract game = true →
  Game.trayPieces game !! i = Some (Some p) →
  Game.trayPieces game !! j = Some (Some q) →
  match Pointer.pageToGrid (Game.grid game) gridRect x (y + Pointer.touchOffset isTouchDevice)
  with
  | None => True
  | Some (row, col) => Grid.canPlacePiece (Game.grid game) p row col = false
  end →
  let s1 := Pointer.handlePointerDown s0 game (Some i) in
  ∃ s2,
    Pointer.handlePointerUp s1 game gridRect isTouchDevice true x y u = Some (s2, game) ∧
    let s3 := Pointer.handlePointerDown s2 game (Some j) in
    let s4 := Pointer.returnTimeout s3 in
    Pointer.dragElement s3 = Some (S (Pointer.created s0)) ∧
    DragController.isDragging (Pointer.controller s4) = true ∧
    DragController.draggedPiece (Pointer.controller s4) = Some q ∧
    DragController.draggedPieceIndex (Pointer.controller s4) = Some j ∧
    Pointer.dragElement s4 = None ∧
    Pointer.body s4 = (Pointer.body s0 ++ [Pointer.created s0])%list ∧
    (∀ x' y', Pointer.handlePointerMove s4 game gridRect isTouchDevice x' y'
              = Some (s4, GhostKept)) ∧
    (∀ x' y' row col sourceFound u',
       Pointer.pageToGrid (Game.grid game) gridRect x' (y' + Pointer.touchOffset isTouchDevice)
       = Some (row, col) →
       Grid.canPlacePiece (Game.grid game) q row col = true →
       Pointer.handlePointerUp s4 game gridRect isTouchDevice sourceFound x' y' u'
       = game' ← Game.placePiece game q row col j u'; Some (Pointer.endDrag s4, game')).
Proof.
  intros Hfresh Hcan Hp Hq Hrefused s1.
  destruct s0 as [dc0 elem bd cr timers]. cbn [Pointer.created Pointer.body] in *.
  set (last := DragController.lastGridPos dc0).
  assert (Hs1 : s1 = {| Pointer.controller :=
                          {| DragController.isDragging := true;
                             DragController.draggedPiece := Some p;
                             DragController.draggedPieceIndex := Some i;
                             DragController.lastGridPos := last |};
                        Pointer.dragElement := Some cr; Pointer.body := (bd ++ [cr])%list;
                        Pointer.created := S cr; Pointer.returnTimers := timers |}).
  { unfold s1, Pointer.handlePointerDown. by rewrite Hcan, Hp. }
  clearbody s1. subst s1.
  set (s2 := {| Pointer.controller := new_DragController;
                Pointer.dragElement := Some cr; Pointer.body := (bd ++ [cr])%list;
                Pointer.created := S cr; Pointer.returnTimers := S timers |}).
  exists s2. split.
  { unfold Pointer.handlePointerUp. cbv zeta.
    cbn [Pointer.controller DragController.isDragging DragController.draggedPiece negb].
    destruct (Pointer.pageToGrid _ _ _ _) as [[row col]|]; [|done]. by rewrite Hrefused. }
  cbv zeta.
  assert (Hs3 : Pointer.handlePointerDown s2 game (Some j)
                = {| Pointer.controller :=
                       {| DragController.isDragging := true;
                          DragController.draggedPiece := Some q;
                          DragController.draggedPieceIndex := Some j;
                          DragController.lastGridPos := None |};
                     Pointer.dragElement := Some (S cr);
                     Pointer.body := ((bd ++ [cr]) ++ [S cr])%list;
                     Pointer.created := S (S cr); Pointer.returnTimers := S timers |}).
  { unfold Pointer.handlePointerDown. by rewrite Hcan, Hq. }
  rewrite Hs3. clear Hs3.
  assert (Hbody : List.filter (fun e => negb (Nat.eqb e (S cr))) ((bd ++ [cr]) ++ [S cr])
                  = (bd ++ [cr])%list).
  { rewrite List.filter_app. cbn [List.filter]. rewrite Nat.eqb_refl. cbn [negb].
    rewrite app_nil_r. apply filter_other. apply Forall_app. split.
    - eapply Forall_impl; [exact Hfresh|]. cbn. lia.
    - repeat constructor. }
  unfold Pointer.returnTimeout, Pointer.removeDragElement.
  cbn [Pointer.controller Pointer.dragElement Pointer.body Pointer.created
       Pointer.returnTimers pred].
  rewrite Hbody.
  split; [reflexivity|]. split; [reflexivity|]. split; [reflexivity|].
  split; [reflexivity|]. split; [reflexivity|]. split; [reflexivity|]. split.
  - intros x' y'. reflexivity.
  - intros x' y' row col sourceFound u' Hpos Hfit.
    unfold Pointer.handlePointerUp. cbv zeta.
    cbn [Pointer.controller DragController.isDragging DragController.draggedPiece
         DragController.draggedPieceIndex negb].
    rewrite Hpos, Hfit. reflexivity.
Qed.

Lemma ghost_agrees_with_drop_witness :
  let s := {| Pointer.controller := drag_corner; Pointer.dragElement := Some 0;
              Pointer.body := [0]; Pointer.created := 1; Pointer.returnTimers := 0 |} in
  let s' := Pointer.with_controller s
              {| DragController.isDragging := true;
                 DragController.draggedPiece := Some piece_line3h;
                 DragController.draggedPieceIndex := Some 0;
                 DragController.lastGridPos := Some (1, 0)%Z |} in
  Pointer.handlePointerMove s game_corner (DOMRect.mk 10 20 410 420 400) false 15 75
  = Some (s', GhostShown 1 0 true) ∧
  Pointer.handlePointerUp s' game_corner (DOMRect.mk 10 20 410 420 400) false true 15 75
    draws_sample
  = game' ← Game.placePiece game_corner piece_line3h 1 0 0 draws_sample;
    Some (Pointer.endDrag (Pointer.removeDragElement s'), game').
Proof.
  intros s s'.
  assert (Hmove :
    Pointer.handlePointerMove s game_corner (DOMRect.mk 10 20 410 420 400) false 15 75
    = Some (s', GhostShown 1 0 true)) by reflexivity.
  split; [exact Hmove|].
  exact (proj2 (proj2 (proj2 (ghost_agrees_with_drop s s' game_corner
                         (DOMRect.mk 10 20 410 420 400) false true 15 75 draws_sample
                         piece_line3h 0 0 _ eq_refl eq_refl eq_refl eq_refl Hmove)))).
Defined.

Lemma stale_return_timeout_witness :
  let rect := DOMRect.mk 10 20 410 420 400 in
  ∃ s2,
    Pointer.handlePointerUp (Pointer.handlePointerDown Pointer.initial game_corner (Some 0))
      game_corner rect false true 15 25 draws_sample = Some (s2, game_corner) ∧
    let s4 := Pointer.returnTimeout (Pointer.handlePointerDown s2 game_corner (Some 1)) in
    DragController.isDragging (Pointer.controller s4) = true ∧
    Pointer.dragElement s4 = None ∧ Pointer.body s4 = [0] ∧
    Pointer.handlePointerMove s4 game_corner rect false 15 75 = Some (s4, GhostKept).
Proof.
  intros rect.
  destruct (stale_return_timeout Pointer.initial game_corner rect false 15 25 draws_sample
              0 1 piece_line3h piece_square2)
    as (s2 & Hup & _ & Hdrag & _ & _ & Helem & Hbody & Hmove & _).
  - constructor.
  - reflexivity.
  - reflexivity.
  - reflexivity.
  - reflexivity.
  - exists s2. split; [exact Hup|]. split; [exact Hdrag|]. split; [exact Helem|].
    split; [exact Hbody|]. apply Hmove.
Defined.

(* ===================================================================== *)
(** ** The high score                                                      *)
(* ===================================================================== *)

(** *** The hash *)

Lemma ToInt32_mod (z : Z) : (ToInt32 z mod 2 ^ 32 = z mod 2 ^ 32)%Z.
Proof.
  unfold ToInt32. destruct (Z.ltb_spec (z mod 2 ^ 32) (2 ^ 31)).
  - apply Z.mod_mod. lia.
  - rewrite <- (Z.mod_mod z (2 ^ 32)) at 2 by lia.
    rewrite <- (Z.mod_add (z mod 2 ^ 32 - 2 ^ 32) 1 (2 ^ 32)) by lia. f_equal. lia.
Qed.

Lemma ToInt32_small (z : Z) : (0 ≤ z < 2 ^ 31)%Z → ToInt32 z = z.
Proof.
  intros Hz. unfold ToInt32. rewrite Z.mod_small by lia.
  destruct (Z.ltb_spec z (2 ^ 31)); lia.
Qed.

Lemma lxor_mod_pow2 (a b n : Z) :
  (0 ≤ n)%Z → (Z.lxor a b mod 2 ^ n = Z.lxor (a mod 2 ^ n) (b mod 2 ^ n))%Z.
Proof.
  intros Hn. apply Z.bits_inj'. intros i Hi.
  rewrite Z.lxor_spec, !Z.testbit_mod_pow2, Z.lxor_spec by done.
  by destruct (i <? n)%Z.
Qed.

(** X14. One turn of the hash loop is the djb2 step on unsigned 32-bit
    integers: 33 times the hash, cut to 32 bits, combined by exclusive
    or with the character code; the signed intermediate results of [<<]
    and [^] do not show. *)
Theorem hashStep_uint32 (hash code : Z) :
  (0 ≤ hash < 2 ^ 32)%Z → (0 ≤ code < 2 ^ 16)%Z →
  HighScore.hashStep hash code = Z.lxor ((33 * hash) mod 2 ^ 32) code ∧
  (0 ≤ HighScore.hashStep hash code < 2 ^ 32)%Z.
Proof.
  intros Hh Hc.
  assert (Heq : HighScore.hashStep hash code = Z.lxor ((33 * hash) mod 2 ^ 32) code).
  { unfold HighScore.hashStep, ToUint32.
    rewrite lxor_mod_pow2, !ToInt32_mod by lia.
    rewrite Z.shiftl_mul_pow2 by lia.
    rewrite <- Zplus_mod_idemp_l, ToInt32_mod, <- Zmult_mod_idemp_l, ToInt32_mod.
    rewrite Zmult_mod_idemp_l, Zplus_mod_idemp_l.
    rewrite (Z.mod_small code) by lia. f_equal. f_equal. lia. }
  split; [done|]. unfold HighScore.hashStep, ToUint32. apply Z.mod_pos_bound. lia.
Qed.

Lemma hashStep_uint32_witness :
  HighScore.hashStep 5381 97 = Z.lxor ((33 * 5381) mod 2 ^ 32) 97 ∧
  (0 ≤ HighScore.hashStep 5381 97 < 2 ^ 32)%Z ∧
  HighScore.hashStep 4294967295 255 = 4294967072%Z.
Proof.
  destruct (hashStep_uint32 5381 97) as [Heq Hrange]; [lia|lia|].
  split; [exact Heq|]. split; [exact Hrange|]. reflexivity.
Defined.

(** *** The stored form and reading it back *)

Lemma digit36_not_colon (d : Z) : (0 ≤ d < 36)%Z → Ascii.eqb (digit36 d) ":" = false.
Proof.
  intros Hd. rewrite <- (Z2Nat.id d) by lia.
  assert (Hn : Z.to_nat d < 36) by lia. revert Hn. generalize (Z.to_nat d) as k.
  do 36 (destruct k as [|k]; [reflexivity|]). lia.
Qed.

Lemma split_colon_toString36_loop (fuel : nat) (n : Z) (acc : string) :
  split_colon acc = [acc] →
  split_colon (toString36_loop fuel n acc) = [toString36_loop fuel n acc].
Proof.
  revert n acc. induction fuel as [|fuel IH]; intros n acc Hacc; simpl; [done|].
  assert (Hstep : split_colon (String (digit36 (n mod 36)) acc)
                  = [String (digit36 (n mod 36)) acc]).
  { simpl. rewrite digit36_not_colon by (apply Z.mod_pos_bound; lia). by rewrite Hacc. }
  destruct (n / 36 =? 0)%Z; [done|]. by apply IH.
Qed.

Lemma split_colon_toString36 (n : Z) : split_colon (toString36 n) = [toString36 n].
Proof. by apply split_colon_toString36_loop. Qed.

Lemma split_colon_uint (d : Decimal.uint) :
  split_colon (NilEmpty.string_of_uint d) = [NilEmpty.string_of_uint d].
Proof. induction d; simpl; [done|by rewrite IHd..]. Qed.

Lemma split_colon_showZ (z : Z) : split_colon (showZ z) = [showZ z].
Proof.
  unfold showZ. destruct (Z.to_int z) as [d|d]; simpl; [apply split_colon_uint|].
  by rewrite split_colon_uint.
Qed.

Lemma split_colon_single (s : string) :
  split_colon s = [s] → ∀ s', split_colon (s +:+ String ":" s') = s :: split_colon s'.
Proof.
  induction s as [|a s IH]; intros Hs s'; [done|].
  simpl in Hs |- *. destruct (Ascii.eqb a ":"); [discriminate|].
  destruct (split_colon s) as [|hd tl] eqn:Hsp.
  - destruct s; [|discriminate]. simpl in Hsp. discriminate.
  - injection Hs as -> ->. by rewrite IH.
Qed.

Lemma takeDigits_uint (d : Decimal.uint) :
  takeDigits (NilEmpty.string_of_uint d) = NilEmpty.string_of_uint d.
Proof. induction d; simpl; [done|by rewrite IHd..]. Qed.

(** A printed integer is read back by [parseInt]. *)
Lemma parseInt_showZ (z : Z) : parseInt (showZ z) = Some z.
Proof.
  assert (Hnum : ∀ d, d ≠ Nil → ∀ neg : bool,
            parseInt ((if neg then String "-" else id) (NilEmpty.string_of_uint d))
            = Some (if neg then - Z.of_uint d else Z.of_uint d)%Z).
  { intros d Hd neg. unfold parseInt.
    assert (Hskip : skipWhiteSpace (NilEmpty.string_of_uint d) = NilEmpty.string_of_uint d
                    ∧ ∃ a rest, NilEmpty.string_of_uint d = String a rest ∧
                                Ascii.eqb a "-" = false ∧ Ascii.eqb a "+" = false).
    { destruct d; try done; simpl; eauto 6. }
    destruct Hskip as [Hskip (a & rest & Hd' & Hminus & Hplus)].
    destruct neg; cbn [id].
    - cbn [skipWhiteSpace isWhiteSpace]. change (isWhiteSpace "-") with false. cbv iota.
      change (Ascii.eqb "-" "-") with true. cbv iota.
      rewrite takeDigits_uint. pose proof (NilEmpty.usu d) as Hu.
      destruct (NilEmpty.string_of_uint d); [discriminate|]. by rewrite Hu.
    - rewrite Hskip. pose proof (NilEmpty.usu d) as Hu.
      pose proof (takeDigits_uint d) as Ht.
      destruct (NilEmpty.string_of_uint d) as [|a0 rest0]; [discriminate|].
      injection Hd' as -> ->. rewrite Hminus, Hplus. cbv beta iota. rewrite Ht.
      by rewrite Hu. }
  unfold showZ. rewrite <- (DecimalZ.of_to z) at 2.
  destruct z as [|p|p]; simpl Z.to_int.
  - reflexivity.
  - apply (Hnum _ (DecimalPos.Unsigned.to_uint_nonnil p) false).
  - apply (Hnum _ (DecimalPos.Unsigned.to_uint_nonnil p) true).
Qed.

Lemma showZ_nonempty (z : Z) : showZ z ≠ "".
Proof.
  unfold showZ. destruct z as [|p|p]; simpl; try done.
  pose proof (DecimalPos.Unsigned.to_uint_nonnil p). by destruct (Pos.to_uint p).
Qed.

(** What [loadHighScore] finds of the item that [saveHighScore] writes. *)
Lemma loadHighScore_written (st st' : LocalStorage.t) (score : Z) :
  LocalStorage.getItemThrows st = false →
  LocalStorage.setItem st (showZ score +:+ ":" +:+ HighScore.generateScoreHash score)
  = Some st' →
  HighScore.loadHighScore st' = (score, st').
Proof.
  intros Hget. unfold LocalStorage.setItem.
  destruct (LocalStorage.setItemThrows st); [discriminate|]. intros [= <-].
  unfold HighScore.loadHighScore, LocalStorage.getItem. cbn [LocalStorage.getItemThrows
    LocalStorage.item]. rewrite Hget.
  set (stored := showZ score +:+ ":" +:+ HighScore.generateScoreHash score).
  assert (Hsplit : split_colon stored = [showZ score; HighScore.generateScoreHash score]).
  { unfold stored. change (":" +:+ ?s) with (String ":" s).
    rewrite split_colon_single by apply split_colon_showZ.
    unfold HighScore.generateScoreHash. by rewrite split_colon_toString36. }
  destruct stored as [|a rest] eqn:Hstored.
  { exfalso. apply (showZ_nonempty score). unfold stored in Hstored.
    by destruct (showZ score). }
  rewrite Hsplit, parseInt_showZ. unfold HighScore.verifyScoreHash.
  by rewrite String.eqb_refl.
Qed.

(** *** Loading and saving *)

(** [loadHighScore] changes nothing of the storage but the item. *)
Lemma loadHighScore_flags (st : LocalStorage.t) :
  let st' := (HighScore.loadHighScore st).2 in
  LocalStorage.getItemThrows st' = LocalStorage.getItemThrows st ∧
  LocalStorage.setItemThrows st' = LocalStorage.setItemThrows st ∧
  LocalStorage.removeItemThrows st' = LocalStorage.removeItemThrows st.
Proof.
  assert (Hrej : ∀ st0, let st' := (HighScore.rejectItem st0).2 in
            LocalStorage.getItemThrows st' = LocalStorage.getItemThrows st0 ∧
            LocalStorage.setItemThrows st' = LocalStorage.setItemThrows st0 ∧
            LocalStorage.removeItemThrows st' = LocalStorage.removeItemThrows st0).
  { intros st0. cbv zeta. unfold HighScore.rejectItem, LocalStorage.removeItem.
    destruct (LocalStorage.removeItemThrows st0) eqn:Hthrows; cbn; done. }
  cbv zeta. unfold HighScore.loadHighScore.
  destruct (LocalStorage.getItem st) as [[[|a rest]|]|]; try done.
  destruct (split_colon (String a rest)) as [|part0 [|hash [|? ?]]]; try done.
  destruct (parseInt part0) as [score|]; [|apply Hrej].
  destruct (HighScore.verifyScoreHash score hash); [done|apply Hrej].
Qed.

(** [loadHighScore] leaves the storage as it is, or takes the branch
    that rejects the item. *)
Lemma loadHighScore_cases (st : LocalStorage.t) :
  (∃ score, HighScore.loadHighScore st = (score, st)) ∨
  (LocalStorage.getItemThrows st = false ∧ refused (LocalStorage.item st) ∧
   HighScore.loadHighScore st = HighScore.rejectItem st).
Proof.
  unfold HighScore.loadHighScore, LocalStorage.getItem.
  destruct (LocalStorage.getItemThrows st) eqn:Hget; [eauto|].
  destruct (LocalStorage.item st) as [[|a rest]|] eqn:Hitem; [eauto| |eauto].
  destruct (split_colon (String a rest)) as [|part0 [|hash [|? ?]]] eqn:Hsplit; eauto.
  destruct (parseInt part0) as [read|] eqn:Hparse.
  - destruct (HighScore.verifyScoreHash read hash) eqn:Hverify; [eauto|].
    right. split; [done|]. split; [|done]. exists (String a rest), part0, hash.
    split; [done|]. split; [done|]. right. exists read. split; [done|].
    by apply String.eqb_neq.
  - right. split; [done|]. split; [|done]. exists (String a rest), part0, hash. auto.
Qed.

(** Loading twice is loading once. *)
Lemma loadHighScore_again (st : LocalStorage.t) :
  HighScore.loadHighScore (HighScore.loadHighScore st).2 = HighScore.loadHighScore st.
Proof.
  destruct (loadHighScore_cases st) as [[score Hkept]|(Hget & _ & Hrej)].
  - by rewrite Hkept.
  - rewrite Hrej. unfold HighScore.rejectItem, LocalStorage.removeItem.
    destruct (LocalStorage.removeItemThrows st) eqn:Hthrows; cbn [snd].
    + rewrite Hrej. unfold HighScore.rejectItem, LocalStorage.removeItem.
      by rewrite Hthrows.
    + unfold HighScore.loadHighScore, LocalStorage.getItem. cbn. by rewrite Hget.
Qed.
(** What the branch that rejects does. *)
Lemma rejectItem_spec (st : LocalStorage.t) :
  (HighScore.rejectItem st).1 = 0%Z ∧
  LocalStorage.item (HighScore.rejectItem st).2
  = (if LocalStorage.removeItemThrows st then LocalStorage.item st else None) ∧
  (LocalStorage.removeItemThrows st = true → (HighScore.rejectItem st).2 = st).
Proof.
  unfold HighScore.rejectItem, LocalStorage.removeItem.
  by destruct (LocalStorage.removeItemThrows st) eqn:Hthrows.
Qed.

Lemma refused_not_verified (item : option string) (stored part0 hash : string) (read : Z) :
  refused item → item = Some stored → split_colon stored = [part0; hash] →
  parseInt part0 = Some read → HighScore.generateScoreHash read = hash → False.
Proof.
  intros (stored' & part0' & hash' & -> & Hsplit' & Hbad) [= <-] Hsplit Hparse Hhash.
  rewrite Hsplit in Hsplit'. injection Hsplit' as <- <-.
  destruct Hbad as [Hnone|(read' & Hparse' & Hne)]; congruence.
Qed.

(** X15. [loadHighScore] returns a score other than 0 only for an item of
    the form [numeral:hash] whose hash is that of the number read; such
    an item is left in place and its number returned. An item of that
    form whose numeral is no number, or whose hash is another, counts as
    0 and is removed (it stays only when [removeItem] throws); nothing
    else changes the storage. When [getItem] throws, the [catch] returns
    0. *)
Theorem loadHighScore_verified (st st' : LocalStorage.t) (score : Z) :
  safeItem (LocalStorage.item st) →
  HighScore.loadHighScore st = (score, st') →
  (score ≠ 0%Z →
     LocalStorage.getItemThrows st = false ∧ st' = st ∧
     ∃ stored part0 hash,
       LocalStorage.item st = Some stored ∧ split_colon stored = [part0; hash] ∧
       parseInt part0 = Some score ∧ HighScore.generateScoreHash score = hash) ∧
  (∀ stored part0 hash read,
     LocalStorage.getItemThrows st = false →
     LocalStorage.item st = Some stored → split_colon stored = [part0; hash] →
     parseInt part0 = Some read → HighScore.generateScoreHash read = hash →
     score = read ∧ st' = st) ∧
  (LocalStorage.getItemThrows st = false → refused (LocalStorage.item st) →
     score = 0%Z ∧
     LocalStorage.item st'
     = if LocalStorage.removeItemThrows st then LocalStorage.item st else None) ∧
  (LocalStorage.item st' ≠ LocalStorage.item st →
     LocalStorage.getItemThrows st = false ∧ LocalStorage.removeItemThrows st = false ∧
     refused (LocalStorage.item st) ∧ LocalStorage.item st' = None) ∧
  (LocalStorage.getItemThrows st = true → score = 0%Z ∧ st' = st).
Proof.
  intros _ Hload.
  destruct (LocalStorage.getItemThrows st) eqn:Hget.
  { revert Hload. unfold HighScore.loadHighScore, LocalStorage.getItem. rewrite Hget.
    intros [= <- <-]. repeat split; done. }
  assert (Hkept : ¬ refused (LocalStorage.item st) →
            (∀ stored part0 hash read,
               LocalStorage.item st = Some stored → split_colon stored = [part0; hash] →
               parseInt part0 = Some read → HighScore.generateScoreHash read = hash →
               score = read) →
            (score ≠ 0%Z →
               ∃ stored part0 hash,
                 LocalStorage.item st = Some stored ∧ split_colon stored = [part0; hash] ∧
                 parseInt part0 = Some score ∧ HighScore.generateScoreHash score = hash) →
            st' = st →
            (score ≠ 0%Z →
               false = false ∧ st' = st ∧
               ∃ stored part0 hash,
                 LocalStorage.item st = Some stored ∧ split_colon stored = [part0; hash] ∧
                 parseInt part0 = Some score ∧ HighScore.generateScoreHash score = hash) ∧
            (∀ stored part0 hash read,
               false = false →
               LocalStorage.item st = Some stored → split_colon stored = [part0; hash] →
               parseInt part0 = Some read → HighScore.generateScoreHash read = hash →
               score = read ∧ st' = st) ∧
            (false = false → refused (LocalStorage.item st) →
               score = 0%Z ∧
               LocalStorage.item st'
               = if LocalStorage.removeItemThrows st then LocalStorage.item st else None) ∧
            (LocalStorage.item st' ≠ LocalStorage.item st →
               false = false ∧ LocalStorage.removeItemThrows st = false ∧
               refused (LocalStorage.item st) ∧ LocalStorage.item st' = None) ∧
            (false = true → score = 0%Z ∧ st' = st)).
  { intros Hnot Hread Hscore ->. split; [auto|]. split; [eauto|].
    split; [by intros _ ?|]. split; [by intros ?|done]. }
  revert Hload. unfold HighScore.loadHighScore, LocalStorage.getItem. rewrite Hget.
  destruct (LocalStorage.item st) as [stored|] eqn:Hitem.
  2:{ intros [= <- <-]. apply Hkept; try done. by intros (? & ? & ? & ? & _). }
  assert (Hbad : refused (Some stored) →
            HighScore.rejectItem st = (score, st') →
            (score ≠ 0%Z →
               false = false ∧ st' = st ∧
               ∃ stored0 part0 hash,
                 Some stored = Some stored0 ∧ split_colon stored0 = [part0; hash] ∧
                 parseInt part0 = Some score ∧ HighScore.generateScoreHash score = hash) ∧
            (∀ stored0 part0 hash read,
               false = false →
               Some stored = Some stored0 → split_colon stored0 = [part0; hash] →
               parseInt part0 = Some read → HighScore.generateScoreHash read = hash →
               score = read ∧ st' = st) ∧
            (false = false → refused (Some stored) →
               score = 0%Z ∧
               LocalStorage.item st'
               = if LocalStorage.removeItemThrows st then Some stored else None) ∧
            (LocalStorage.item st' ≠ Some stored →
               false = false ∧ LocalStorage.removeItemThrows st = false ∧
               refused (Some stored) ∧ LocalStorage.item st' = None) ∧
            (false = true → score = 0%Z ∧ st' = st)).
  { intros Href Hrej. destruct (rejectItem_spec st) as (Hzero & Hi & _).
    rewrite Hrej in Hzero, Hi. rewrite Hitem in Hi. cbn [fst snd] in Hzero, Hi. subst score.
    split; [done|]. split.
    { intros stored0 part0 hash read _ Hs0 Hs Hp Hh. exfalso.
      by eapply refused_not_verified. }
    split; [done|]. split; [|done].
    intros Hne. destruct (LocalStorage.removeItemThrows st); [by rewrite Hi in Hne|auto]. }
  destruct stored as [|a rest] eqn:Hstored.
  { intros [= <- <-]. apply Hkept; [|intros ? ? ? ? [= <-] Hs; discriminate Hs|done..].
    by intros (? & ? & ? & [= <-] & ? & _). }
  rewrite <- Hstored in *. clear Hstored.
  destruct (split_colon stored) as [|part0 [|hash [|? ?]]] eqn:Hsplit.
  1,2,4: intros [= <- <-];
         (apply Hkept; [|intros ? ? ? ? [= <-]; congruence|done..]);
         intros (? & ? & ? & [= <-] & ? & _); congruence.
  destruct (parseInt part0) as [read|] eqn:Hparse.
  - destruct (HighScore.verifyScoreHash read hash) eqn:Hverify.
    + intros [= <- <-]. apply String.eqb_eq in Hverify. apply Hkept; [| | |done].
      * intros Href. by eapply refused_not_verified.
      * intros ? ? ? ? [= <-]. congruence.
      * intros _. by exists stored, part0, hash.
    + apply String.eqb_neq in Hverify. apply Hbad.
      exists stored, part0, hash. split; [done|]. split; [done|]. right. eauto.
  - apply Hbad. exists stored, part0, hash. auto.
Qed.
Lemma item_tampered_safe : safeItem item_tampered.
Proof.
  intros stored part0 hash score [= <-] Hsplit Hparse.
  vm_compute in Hsplit. injection Hsplit as <- <-.
  vm_compute in Hparse. injection Hparse as <-. unfold safeInteger. simpl. lia.
Qed.

Lemma item_2030_safe : safeItem item_2030.
Proof.
  intros stored part0 hash score [= <-] Hsplit Hparse.
  vm_compute in Hsplit. injection Hsplit as <- <-.
  vm_compute in Hparse. injection Hparse as <-. unfold safeInteger. simpl. lia.
Qed.

Lemma item_tampered_refused : refused item_tampered.
Proof.
  exists "9999:1qpei78", "9999", "1qpei78". split; [done|]. split; [done|].
  right. exists 9999%Z. split; [done|]. by vm_compute.
Qed.

Lemma loadHighScore_verified_witness :
  HighScore.loadHighScore storage_tampered
  = (0%Z, {| LocalStorage.item := None; LocalStorage.getItemThrows := false;
             LocalStorage.setItemThrows := false; LocalStorage.removeItemThrows := false |}) ∧
  refused (LocalStorage.item storage_tampered).
Proof.
  assert (Hload : HighScore.loadHighScore storage_tampered
                  = (0%Z, {| LocalStorage.item := None; LocalStorage.getItemThrows := false;
                             LocalStorage.setItemThrows := false;
                             LocalStorage.removeItemThrows := false |})) by reflexivity.
  split; [exact Hload|].
  destruct (loadHighScore_verified storage_tampered _ 0 item_tampered_safe Hload)
    as (_ & _ & _ & Hremoved & _).
  destruct Hremoved as (_ & _ & Href & _); [discriminate|exact Href].
Defined.

(** What [saveHighScore] does, case by case. *)
Lemma saveHighScore_spec (hs hs' : HighScore.t) (score : Z) (isNew : bool) :
  HighScore.saveHighScore hs score = (isNew, hs') →
  let before := (HighScore.loadHighScore (HighScore.storage hs)).1 in
  (isNew = true ↔
   (before < score)%Z ∧ LocalStorage.setItemThrows (HighScore.storage hs) = false) ∧
  HighScore.highScore hs' = (if isNew then score else HighScore.highScore hs) ∧
  (if isNew
   then LocalStorage.item (HighScore.storage hs')
        = Some (showZ score +:+ ":" +:+ HighScore.generateScoreHash score)
   else HighScore.storage hs' = (HighScore.loadHighScore (HighScore.storage hs)).2) ∧
  (LocalStorage.getItemThrows (HighScore.storage hs) = false →
   LocalStorage.setItemThrows (HighScore.storage hs) = false →
   HighScore.loadHighScore (HighScore.storage hs')
   = (Z.max score before, HighScore.storage hs')) ∧
  (working (HighScore.storage hs) → working (HighScore.storage hs')).
Proof.
  unfold HighScore.saveHighScore. cbv zeta.
  pose proof (loadHighScore_again (HighScore.storage hs)) as Hagain.
  destruct (loadHighScore_flags (HighScore.storage hs)) as (Hfg & Hfs & Hfr).
  destruct (HighScore.loadHighScore (HighScore.storage hs)) as [current st] eqn:Hload.
  cbn [fst snd] in *.
  assert (Hwork : working (HighScore.storage hs) → working st).
  { unfold working. by rewrite Hfg, Hfs, Hfr. }
  destruct (Z.ltb_spec current score) as [Hlt|Hge].
  - destruct (LocalStorage.setItem st _) as [st2|] eqn:Hset.
    + intros [= <- <-]. cbn [HighScore.storage HighScore.highScore].
      pose proof Hset as Hset'. unfold LocalStorage.setItem in Hset'. rewrite Hfs in Hset'.
      destruct (LocalStorage.setItemThrows (HighScore.storage hs)) eqn:Hthrows;
        [discriminate|]. injection Hset' as <-.
      split; [by split|]. split; [done|]. split; [done|]. split.
      * intros Hget _. rewrite <- Hfg in Hget.
        rewrite (loadHighScore_written _ _ _ Hget Hset). f_equal. lia.
      * intros Hw. apply Hwork in Hw. destruct Hw as (? & ? & ?). by repeat split.
    + intros [= <- <-]. cbn [HighScore.storage HighScore.highScore].
      unfold LocalStorage.setItem in Hset. rewrite Hfs in Hset.
      destruct (LocalStorage.setItemThrows (HighScore.storage hs)) eqn:Hthrows;
        [|discriminate].
      split; [split; [done|by intros [_ ?]]|]. split; [done|]. split; [done|].
      split; [done|]. exact Hwork.
  - intros [= <- <-]. cbn [HighScore.storage HighScore.highScore].
    split; [split; [done|intros [? _]; lia]|]. split; [done|]. split; [done|].
    split; [|done]. intros _ _. rewrite Hagain. f_equal. lia.
Qed.

(** X16. [saveHighScore(score)] answers [true] exactly when the score is
    above the high score that [loadHighScore] returns and [setItem] does
    not throw; it then sets the field and writes the item
    [score:hash]. In every other case it answers [false], the field is
    unchanged and the storage is as [loadHighScore] left it. On a
    storage that can be read and written, [loadHighScore] afterwards
    returns the larger of the score offered and the high score stored
    before. *)
Theorem saveHighScore_max (hs hs' : HighScore.t) (score : Z) (isNew : bool) :
  safeInteger score → safeItem (LocalStorage.item (HighScore.storage hs)) →
  HighScore.saveHighScore hs score = (isNew, hs') →
  let before := (HighScore.loadHighScore (HighScore.storage hs)).1 in
  (isNew = true ↔
   (before < score)%Z ∧ LocalStorage.setItemThrows (HighScore.storage hs) = false) ∧
  HighScore.highScore hs' = (if isNew then score else HighScore.highScore hs) ∧
  (if isNew
   then LocalStorage.item (HighScore.storage hs')
        = Some (showZ score +:+ ":" +:+ HighScore.generateScoreHash score)
   else HighScore.storage hs' = (HighScore.loadHighScore (HighScore.storage hs)).2) ∧
  (LocalStorage.getItemThrows (HighScore.storage hs) = false →
   LocalStorage.setItemThrows (HighScore.storage hs) = false →
   HighScore.loadHighScore (HighScore.storage hs')
   = (Z.max score before, HighScore.storage hs')).
Proof.
  intros _ _ Hsave.
  destruct (saveHighScore_spec _ _ _ _ Hsave) as (H1 & H2 & H3 & H4 & _). done.
Qed.

Lemma saveHighScore_max_witness :
  (∃ hs', HighScore.saveHighScore {| HighScore.storage := storage_tampered;
                                     HighScore.highScore := 0 |} 2030 = (true, hs') ∧
          HighScore.highScore hs' = 2030%Z ∧
          LocalStorage.item (HighScore.storage hs') = item_2030 ∧
          (HighScore.loadHighScore (HighScore.storage hs')).1 = 2030%Z) ∧
  HighScore.saveHighScore {| HighScore.storage := storage_full;
                             HighScore.highScore := 2030 |} 5000
  = (false, {| HighScore.storage := storage_full; HighScore.highScore := 2030 |}).
Proof.
  split.
  - destruct (HighScore.saveHighScore {| HighScore.storage := storage_tampered;
                                         HighScore.highScore := 0 |} 2030)
      as [isNew hs'] eqn:Hsave.
    destruct (saveHighScore_max {| HighScore.storage := storage_tampered;
                                   HighScore.highScore := 0 |} _ _ _
                (eq_refl : safeInteger 2030) item_tampered_safe Hsave)
      as (HisNew & Hfield & Hitem & Hmax).
    assert (Htrue : isNew = true).
    { apply HisNew. split; reflexivity. }
    subst isNew. exists hs'. split; [reflexivity|]. split; [exact Hfield|].
    split; [exact Hitem|]. rewrite (Hmax eq_refl eq_refl). reflexivity.
  - destruct (HighScore.saveHighScore {| HighScore.storage := storage_full;
                                         HighScore.highScore := 2030 |} 5000)
      as [isNew hs'] eqn:Hsave.
    destruct (saveHighScore_max {| HighScore.storage := storage_full;
                                   HighScore.highScore := 2030 |} _ _ _
                (eq_refl : safeInteger 5000) item_2030_safe Hsave)
      as (HisNew & Hfield & Hitem & _).
    destruct isNew.
    + destruct (proj1 HisNew eq_refl) as [_ Hthrows]. discriminate Hthrows.
    + destruct hs' as [st' field]. cbn [HighScore.storage HighScore.highScore] in Hfield, Hitem.
      rewrite Hfield, Hitem. reflexivity.
Defined.

(** The constructor leaves a field that agrees with the storage. *)
Lemma new_agrees (st : LocalStorage.t) : agrees (HighScore.new st).
Proof.
  unfold agrees, HighScore.new. pose proof (loadHighScore_again st) as Hagain.
  destruct (HighScore.loadHighScore st) as [score st']. cbn [snd] in Hagain.
  cbn [HighScore.storage HighScore.highScore]. by rewrite Hagain.
Qed.

(** X17. [triggerGameOver] sets the game-over flag and keeps the score.
    [isNewHighScore] is [true] exactly when the final score is above the
    high score that [loadHighScore] returns and [setItem] does not
    throw; only then is the field [highScore] assigned, the final score.
    When the field agreed with a storage that works, which it does after
    the constructor, it becomes the larger of itself and the final score
    and agrees again. *)
Theorem triggerGameOver_high_score (game game' : Game.t) (hs hs' : HighScore.t)
    (isNewHighScore : bool) :
  safeItem (LocalStorage.item (HighScore.storage hs)) → safeInteger (Game.score game) →
  HighScore.triggerGameOver game hs = (game', hs', isNewHighScore) →
  let before := (HighScore.loadHighScore (HighScore.storage hs)).1 in
  Game.isGameOver game' = true ∧ Game.score game' = Game.score game ∧
  Game.grid game' = Game.grid game ∧ Game.trayPieces game' = Game.trayPieces game ∧
  (isNewHighScore = true ↔
   (before < Game.score game)%Z ∧ LocalStorage.setItemThrows (HighScore.storage hs) = false) ∧
  HighScore.highScore hs'
  = (if isNewHighScore then Game.score game else HighScore.highScore hs) ∧
  (working (HighScore.storage hs) → agrees hs →
   HighScore.highScore hs' = Z.max (HighScore.highScore hs) (Game.score game) ∧
   isNewHighScore = (HighScore.highScore hs <? Game.score game)%Z ∧
   agrees hs' ∧ working (HighScore.storage hs')) ∧
  agrees (HighScore.new (HighScore.storage hs)).
Proof.
  intros Hitem Hscore. unfold HighScore.triggerGameOver. cbv zeta.
  cbn [Game.triggerGameOver Game.score].
  destruct (HighScore.saveHighScore hs (Game.score game)) as [isNew hs2] eqn:Hsave.
  intros [= <- <- <-]. cbn [Game.isGameOver Game.score Game.grid Game.trayPieces].
  destruct (saveHighScore_spec _ _ _ _ Hsave) as (HisNew & Hfield & Hst & Hmax & Hwork).
  do 4 (split; [done|]). split; [exact HisNew|]. split; [exact Hfield|].
  split; [|apply new_agrees].
  intros (Hg & Hs & Hr) Hagree. unfold agrees in *.
  specialize (Hmax Hg Hs). rewrite Hagree in HisNew, Hmax.
  assert (Hnew : isNew = (HighScore.highScore hs <? Game.score game)%Z).
  { destruct (Z.ltb_spec (HighScore.highScore hs) (Game.score game)) as [Hlt|Hge].
    - by apply HisNew.
    - destruct isNew; [|done]. destruct (proj1 HisNew eq_refl). lia. }
  rewrite Hmax. cbn [fst].
  split; [rewrite Hfield, Hnew; destruct (Z.ltb_spec (HighScore.highScore hs) (Game.score game)); lia|].
  split; [done|]. split.
  { rewrite Hfield, Hnew.
    destruct (Z.ltb_spec (HighScore.highScore hs) (Game.score game)); lia. }
  by apply Hwork.
Qed.

Lemma triggerGameOver_high_score_witness :
  let hs := {| HighScore.storage :=
                 {| LocalStorage.item := None; LocalStorage.getItemThrows := false;
                    LocalStorage.setItemThrows := false;
                    LocalStorage.removeItemThrows := false |};
               HighScore.highScore := 0 |} in
  HighScore.new storage_tampered = hs ∧
  ∃ game' hs',
    HighScore.triggerGameOver game_stuck hs = (game', hs', true) ∧
    HighScore.highScore hs' = 1270%Z ∧ agrees hs'.
Proof.
  intros hs. split; [vm_compute; reflexivity|].
  destruct (HighScore.triggerGameOver game_stuck hs) as [[game' hs'] isNew] eqn:Hover.
  assert (Hsafe : safeItem (LocalStorage.item (HighScore.storage hs))).
  { intros stored part0 hash score Hitem. discriminate Hitem. }
  destruct (triggerGameOver_high_score game_stuck game' hs hs' isNew Hsafe
              (eq_refl : safeInteger 1270) Hover)
    as (_ & _ & _ & _ & _ & _ & Hwork & _).
  destruct Hwork as (Hmax & HisNew & Hagree & _).
  { repeat split. }
  { reflexivity. }
  exists game', hs'. split; [|split; [exact Hmax|exact Hagree]].
  rewrite HisNew. reflexivity.
Defined.

(** *** The printed hash *)

Lemma value36_digit36 (d : Z) : (0 ≤ d < 36)%Z → value36_digit (digit36 d) = Some d.
Proof.
  intros Hd. rewrite <- (Z2Nat.id d) at 2 by lia. rewrite <- (Z2Nat.id d) at 1 by lia.
  assert (Hn : Z.to_nat d < 36) by lia. revert Hn. generalize (Z.to_nat d) as k.
  do 36 (destruct k as [|k]; [reflexivity|]). lia.
Qed.

Lemma value36_toString36_loop (fuel : nat) (n : Z) (acc : string) :
  0 < fuel → (0 ≤ n < 36 ^ Z.of_nat fuel)%Z →
  value36_from 0 (toString36_loop fuel n acc) = value36_from n acc.
Proof.
  revert n acc. induction fuel as [|fuel IH]; intros n acc Hfuel Hn; [lia|].
  cbn [toString36_loop]. cbv zeta.
  assert (Hdigit : (0 ≤ n mod 36 < 36)%Z) by (apply Z.mod_pos_bound; lia).
  destruct (Z.eqb_spec (n / 36) 0) as [Hq|Hq].
  - cbn [value36_from]. rewrite value36_digit36 by done. f_equal.
    pose proof (Z.div_mod n 36). lia.
  - assert (Hquot : (0 ≤ n / 36 < 36 ^ Z.of_nat fuel)%Z).
    { split; [apply Z.div_pos; lia|]. apply Z.div_lt_upper_bound; [lia|].
      rewrite Nat2Z.inj_succ, Z.pow_succ_r in Hn by lia. lia. }
    rewrite IH; [|destruct fuel; [simpl in Hquot; lia|lia]|done].
    cbn [value36_from]. rewrite value36_digit36 by done. f_equal.
    pose proof (Z.div_mod n 36). lia.
Qed.

Lemma toString36_loop_nonempty (fuel : nat) (n : Z) (a : ascii) (acc : string) :
  toString36_loop fuel n (String a acc) ≠ "".
Proof.
  revert n a acc. induction fuel as [|fuel IH]; intros n a acc; [discriminate|].
  cbn [toString36_loop]. cbv zeta. destruct (n / 36 =? 0)%Z; [discriminate|]. apply IH.
Qed.

(** The digits that [toString(36)] prints give the number back: as many
    digits are printed as the number has. *)
Lemma value36_toString36 (n : Z) : (0 ≤ n)%Z → value36 (toString36 n) = Some n.
Proof.
  intros Hn. unfold toString36.
  assert (Hbound : (n < 36 ^ Z.of_nat (S (Z.to_nat (Z.log2 n))))%Z).
  { rewrite Nat2Z.inj_succ, Z2Nat.id by apply Z.log2_nonneg.
    destruct (Z.eq_dec n 0%Z) as [->|Hne]; [done|].
    eapply Z.lt_le_trans; [apply Z.log2_spec; lia|].
    apply Z.pow_le_mono_l. lia. }
  pose proof (value36_toString36_loop (S (Z.to_nat (Z.log2 n))) n "") as Hloop.
  assert (Hne : toString36_loop (S (Z.to_nat (Z.log2 n))) n "" ≠ "").
  { cbn [toString36_loop]. cbv zeta. destruct (n / 36 =? 0)%Z; [discriminate|].
    apply toString36_loop_nonempty. }
  unfold value36. destruct (toString36_loop _ n "") eqn:Hs; [done|].
  rewrite Hloop; [done|lia|lia].
Qed.

Lemma hashOf_range (data : string) : (0 ≤ HighScore.hashOf data < 2 ^ 32)%Z.
Proof.
  unfold HighScore.hashOf. generalize (charCodes data) as codes.
  assert (H0 : (0 ≤ 5381 < 2 ^ 32)%Z) by lia. revert H0. generalize 5381%Z as h.
  intros h Hh codes. revert h Hh. induction codes as [|c codes IH]; intros h Hh; [done|].
  simpl. apply IH. unfold HighScore.hashStep, ToUint32. apply Z.mod_pos_bound. lia.
Qed.

(** X18. [verifyScoreHash] compares 32-bit hashes: a hash string verifies a
    score exactly when it is the print of the hash of that score, and the
    prints of two scores agree only when their hashes do. *)
Theorem verifyScoreHash_compares_hashes (score score' : Z) :
  let data := fun s : Z => HighScore.salt +:+ ":" +:+ showZ s +:+ ":" +:+
                           reverseString HighScore.salt in
  HighScore.verifyScoreHash score (HighScore.generateScoreHash score') = true ↔
  HighScore.hashOf (data score) = HighScore.hashOf (data score').
Proof.
  intros data. unfold HighScore.verifyScoreHash, HighScore.generateScoreHash.
  fold (data score) (data score'). rewrite String.eqb_eq. split; [|by intros ->].
  intros Heq. assert (H : Some (HighScore.hashOf (data score))
                          = Some (HighScore.hashOf (data score'))); [|by injection H].
  rewrite <- !value36_toString36 by apply hashOf_range. by rewrite Heq.
Qed.

(* ===================================================================== *)
(** ** The sound preference                                                *)
(* ===================================================================== *)

